(** * Pandemic X86: byte stream, operand model, type checker, encoder,
    parser actions and decoder description language

    A shallow embedding of the Python modules [X86ByteStream], [X86MetaData],
    [X86Internal], [X86TypeChecker], [X86EncodeTable], [X86Encoder],
    [X86Yacc] and [X86DecodeTable], and of a helper of the ModRM tests.

    Python integers are [Z]; Python exceptions are the constructors of
    [exn]; a method that may raise returns a [res].  Methods that mutate
    [self] take the object and return the updated object next to their
    result, so that what an exception leaves behind is visible. *)

From Stdlib Require Import String Ascii ZArith List Bool Lia Permutation.
Import ListNotations.
Open Scope Z_scope.

Set Implicit Arguments.

(* ===================================================================== *)
(** * Exceptions and results *)
(* ===================================================================== *)

(** The exception classes the modules raise.  [NameError] is what Python
    raises when a name that is not bound is evaluated.  [Unmodelled]
    stands for what a helper outside these modules would do on an input
    this development does not follow it on. *)
Inductive exn : Type :=
| InvalidInstruction
| X86TypeCheckError (str : string)
| ExerciseError (str : string)
| IndexError
| AttributeError
| NameError
| Unmodelled (what : string).

Inductive res (A : Type) : Type :=
| Ok (a : A)
| Raise (e : exn).
Arguments Ok {A} a.
Arguments Raise {A} e.

Definition res_bind {A B} (r : res A) (k : A -> res B) : res B :=
  match r with
  | Ok a => k a
  | Raise e => Raise e
  end.

Declare Scope res_scope.
Delimit Scope res_scope with res.
Notation "x <- r ;; k" := (res_bind r (fun x => k))
  (at level 61, r at next level, right associativity) : res_scope.

Definition is_Ok {A} (r : res A) : bool :=
  match r with Ok _ => true | Raise _ => false end.

(* ===================================================================== *)
(** * X86ByteStream *)
(* ===================================================================== *)

Module ByteStream.

(** [self.bytes], [self.pos], [self.origpos]. *)
Record StreamObj : Type := mkStream {
  bytes : list Z;
  pos : Z;
  origpos : Z
}.

(** A method of [StreamObj]: the result (or the exception) and the object
    as the call leaves it. *)
Definition M (A : Type) : Type := StreamObj -> res A * StreamObj.

Definition ret {A} (a : A) : M A := fun s => (Ok a, s).

Definition bind {A B} (m : M A) (k : A -> M B) : M B :=
  fun s =>
    match m s with
    | (Ok a, s') => k a s'
    | (Raise e, s') => (Raise e, s')
    end.

(** Python's [l[i]] on a list: a negative index counts from the end, and
    an index outside [-len l, len l) raises [IndexError]. *)
Definition py_index (l : list Z) (i : Z) : res Z :=
  let n := Z.of_nat (length l) in
  let j := if i <? 0 then i + n else i in
  if (j <? 0) || (n <=? j) then Raise IndexError
  else match nth_error l (Z.to_nat j) with
       | Some b => Ok b
       | None => Raise IndexError
       end.

(** [__init__] followed by [Init]. *)
Definition new (bs : list Z) : StreamObj :=
  {| bytes := bs; pos := 0; origpos := 0 |}.

Definition Init : M unit :=
  fun s => (Ok tt, {| bytes := bytes s; pos := 0; origpos := 0 |}).

Definition GetByteInternal : M Z :=
  fun s => (py_index (bytes s) (pos s), s).

Definition Byte : M Z :=
  fun s =>
    if pos s - origpos s >=? 16 then (Raise InvalidInstruction, s)
    else
      bind GetByteInternal
        (fun b s' =>
           (Ok b, {| bytes := bytes s'; pos := pos s' + 1; origpos := origpos s' |}))
        s.

Definition Word : M Z :=
  bind Byte (fun b0 =>
  bind Byte (fun b1 =>
  ret (Z.lor (Z.shiftl b1 8) b0))).

Definition Dword : M Z :=
  bind Word (fun w0 =>
  bind Word (fun w1 =>
  ret (Z.lor (Z.shiftl w1 16) w0))).

Definition Pos : M Z := fun s => (Ok (pos s), s).

Definition SetPos (ea : Z) : M unit :=
  fun s => (Ok tt, {| bytes := bytes s; pos := ea; origpos := ea |}).

(** [n] calls of [Byte] in a row, stopping at the first exception: the
    values read so far, the outcome of the last call made, and the
    stream. *)
Fixpoint Byte_calls (n : nat) (s : StreamObj) : list Z * res unit * StreamObj :=
  match n with
  | O => ([], Ok tt, s)
  | S n' =>
      match Byte s with
      | (Ok b, s') =>
          let '(bs, r, s'') := Byte_calls n' s' in (b :: bs, r, s'')
      | (Raise e, s') => ([], Raise e, s')
      end
  end.

End ByteStream.

(* ===================================================================== *)
(** * X86MetaData: enumerations *)
(* ===================================================================== *)

Inductive PF1Elt : Type := REP | REPNE | LOCK.
Inductive R8Elt : Type := Al | Cl | Dl | Bl | Ah | Ch | Dh | Bh.
Inductive R16Elt : Type := Ax | Cx | Dx | Bx | Sp | Bp | Si | Di.
Inductive R32Elt : Type := Eax | Ecx | Edx | Ebx | Esp | Ebp | Esi | Edi.
Inductive SegElt : Type := ES | CS | SS | DS | FS | GS.
Inductive CntElt : Type := CR0 | CR1 | CR2 | CR3 | CR4 | CR5 | CR6 | CR7.
Inductive DbgElt : Type := DR0 | DR1 | DR2 | DR3 | DR4 | DR5 | DR6 | DR7.
Inductive FPUElt : Type := ST0 | ST1 | ST2 | ST3 | ST4 | ST5 | ST6 | ST7.
Inductive MMXElt : Type := MM0 | MM1 | MM2 | MM3 | MM4 | MM5 | MM6 | MM7.
Inductive XMMElt : Type :=
  XMM0 | XMM1 | XMM2 | XMM3 | XMM4 | XMM5 | XMM6 | XMM7.
Inductive MSElt : Type := Mb | Mw | Md | Mf | Mq | Mt | Mdq.

(** The mnemonics whose encodings are transcribed below, out of the
    enumeration [MnemList]. *)
Inductive MnemElt : Type :=
| Aaa | Aas | Adc | Add | Daa | Das | Fldcw | Fldenv | Frstor | Fsave
| Fstenv | Fxrstor | Fxsave | Jmp | Ldmxcsr | Or | Pushad | Pushaw | Ret.

(** [IntValue] of an enumeration element: its position in the list the
    enumeration was made from. *)
Definition R8_IntValue (r : R8Elt) : Z :=
  match r with
  | Al => 0 | Cl => 1 | Dl => 2 | Bl => 3 | Ah => 4 | Ch => 5 | Dh => 6 | Bh => 7
  end.
Definition R16_IntValue (r : R16Elt) : Z :=
  match r with
  | Ax => 0 | Cx => 1 | Dx => 2 | Bx => 3 | Sp => 4 | Bp => 5 | Si => 6 | Di => 7
  end.
Definition R32_IntValue (r : R32Elt) : Z :=
  match r with
  | Eax => 0 | Ecx => 1 | Edx => 2 | Ebx => 3
  | Esp => 4 | Ebp => 5 | Esi => 6 | Edi => 7
  end.
Definition Seg_IntValue (r : SegElt) : Z :=
  match r with ES => 0 | CS => 1 | SS => 2 | DS => 3 | FS => 4 | GS => 5 end.
Definition Cnt_IntValue (r : CntElt) : Z :=
  match r with
  | CR0 => 0 | CR1 => 1 | CR2 => 2 | CR3 => 3
  | CR4 => 4 | CR5 => 5 | CR6 => 6 | CR7 => 7
  end.
Definition Dbg_IntValue (r : DbgElt) : Z :=
  match r with
  | DR0 => 0 | DR1 => 1 | DR2 => 2 | DR3 => 3
  | DR4 => 4 | DR5 => 5 | DR6 => 6 | DR7 => 7
  end.
Definition FPU_IntValue (r : FPUElt) : Z :=
  match r with
  | ST0 => 0 | ST1 => 1 | ST2 => 2 | ST3 => 3
  | ST4 => 4 | ST5 => 5 | ST6 => 6 | ST7 => 7
  end.
Definition MMX_IntValue (r : MMXElt) : Z :=
  match r with
  | MM0 => 0 | MM1 => 1 | MM2 => 2 | MM3 => 3
  | MM4 => 4 | MM5 => 5 | MM6 => 6 | MM7 => 7
  end.
Definition XMM_IntValue (r : XMMElt) : Z :=
  match r with
  | XMM0 => 0 | XMM1 => 1 | XMM2 => 2 | XMM3 => 3
  | XMM4 => 4 | XMM5 => 5 | XMM6 => 6 | XMM7 => 7
  end.

Definition SegElt_eq_dec (a b : SegElt) : {a = b} + {a <> b}.
Proof. decide equality. Defined.
Definition MSElt_eq_dec (a b : MSElt) : {a = b} + {a <> b}.
Proof. decide equality. Defined.

Definition SegElt_eqb (a b : SegElt) : bool :=
  if SegElt_eq_dec a b then true else false.
Definition MSElt_eqb (a b : MSElt) : bool :=
  if MSElt_eq_dec a b then true else false.

(* ===================================================================== *)
(** * X86Internal: operands *)
(* ===================================================================== *)

(** Modelled from the spec: [Pandemic.Util.Guarded.GuardedInteger], which
    is not among the sources.  The spec calls immediates and displacements
    modulo-masked integers, each carrying a value modulo its width; [None]
    is held as it is. *)
Definition GuardedInteger (value : option Z) (mask : Z) : option Z :=
  match value with
  | None => None
  | Some v => Some (Z.land v mask)
  end.

(** The operand classes.  A constructor carries the values the object
    holds; the Python constructors, which guard those values, are the
    [new_] functions below. *)
Inductive Operand : Type :=
| Gb (value : R8Elt)
| Gw (value : R16Elt)
| Gd (value : R32Elt)
| SegReg (value : SegElt)
| ControlReg (value : CntElt)
| DebugReg (value : DbgElt)
| FPUReg (value : FPUElt)
| MMXReg (value : MMXElt)
| XMMReg (value : XMMElt)
| Ib (value : Z)
| Iw (value : Z)
| Id (value : Z)
| Mem16 (Seg : SegElt) (size : MSElt)
        (BaseReg IndexReg : option R16Elt) (Disp : option Z)
| Mem32 (Seg : SegElt) (size : MSElt)
        (BaseReg IndexReg : option R32Elt) (ScaleFac : Z) (Disp : option Z)
| AP16 (Seg Off : Z)
| AP32 (Seg Off : Z)
| JccTarget (taken not_taken : Z).

Definition Operand_eq_dec (a b : Operand) : {a = b} + {a <> b}.
Proof.
  repeat decide equality.
Defined.

(** [a == b] on operands: same class and same held values. *)
Definition Operand_eqb (a b : Operand) : bool :=
  if Operand_eq_dec a b then true else false.

(** [type(op)]. *)
Inductive OperandClass : Type :=
| cGb | cGw | cGd | cSegReg | cControlReg | cDebugReg | cFPUReg | cMMXReg
| cXMMReg | cIb | cIw | cId | cMem16 | cMem32 | cAP16 | cAP32 | cJccTarget.

Definition type_of (op : Operand) : OperandClass :=
  match op with
  | Gb _ => cGb | Gw _ => cGw | Gd _ => cGd | SegReg _ => cSegReg
  | ControlReg _ => cControlReg | DebugReg _ => cDebugReg
  | FPUReg _ => cFPUReg | MMXReg _ => cMMXReg | XMMReg _ => cXMMReg
  | Ib _ => cIb | Iw _ => cIw | Id _ => cId
  | Mem16 _ _ _ _ _ => cMem16 | Mem32 _ _ _ _ _ _ => cMem32
  | AP16 _ _ => cAP16 | AP32 _ _ => cAP32
  | JccTarget _ _ => cJccTarget
  end.

Definition OperandClass_eq_dec (a b : OperandClass) : {a = b} + {a <> b}.
Proof. decide equality. Defined.

(** [type(a) == type(b)]. *)
Definition same_type (a b : Operand) : bool :=
  if OperandClass_eq_dec (type_of a) (type_of b) then true else false.

(** [isinstance(op,Register)], [isinstance(op,Immediate)],
    [isinstance(op,MemExpr)], [isinstance(op,FarTarget)]. *)
Definition is_Register (op : Operand) : bool :=
  match op with
  | Gb _ | Gw _ | Gd _ | SegReg _ | ControlReg _ | DebugReg _
  | FPUReg _ | MMXReg _ | XMMReg _ => true
  | _ => false
  end.
Definition is_Immediate (op : Operand) : bool :=
  match op with Ib _ | Iw _ | Id _ => true | _ => false end.
Definition is_MemExpr (op : Operand) : bool :=
  match op with Mem16 _ _ _ _ _ | Mem32 _ _ _ _ _ _ => true | _ => false end.
Definition is_FarTarget (op : Operand) : bool :=
  match op with AP16 _ _ | AP32 _ _ => true | _ => false end.
Definition is_JccTarget (op : Operand) : bool :=
  match op with JccTarget _ _ => true | _ => false end.
Definition is_Mem16 (op : Operand) : bool :=
  match op with Mem16 _ _ _ _ _ => true | _ => false end.

(** [Register.IntValue]. *)
Definition Register_IntValue (op : Operand) : option Z :=
  match op with
  | Gb r => Some (R8_IntValue r)
  | Gw r => Some (R16_IntValue r)
  | Gd r => Some (R32_IntValue r)
  | SegReg r => Some (Seg_IntValue r)
  | ControlReg r => Some (Cnt_IntValue r)
  | DebugReg r => Some (Dbg_IntValue r)
  | FPUReg r => Some (FPU_IntValue r)
  | MMXReg r => Some (MMX_IntValue r)
  | XMMReg r => Some (XMM_IntValue r)
  | _ => None
  end.

(** [Immediate.init]: the value is held in a [GuardedInteger]; the
    [value] property reads it back. *)
Definition Immediate_init (value mask : Z) : Z :=
  match GuardedInteger (Some value) mask with
  | Some v => v
  | None => value
  end.

Definition new_Ib (value : Z) : Operand := Ib (Immediate_init value 0xFF).
Definition new_Iw (value : Z) : Operand := Iw (Immediate_init value 0xFFFF).
Definition new_Id (value : Z) : Operand :=
  Id (Immediate_init value 0xFFFFFFFF).

(** [MemExpr.init], the displacement it stores:
    [GuardedInteger(None if disp == None or disp == 0 else disp,mask)].
    The registers are passed as enumeration elements ([adjust_values] is
    [False]); their types make the two [TypeError] tests pass. *)
Definition MemExpr_init_disp (disp : option Z) (mask : Z) : option Z :=
  GuardedInteger
    (match disp with
     | None => None
     | Some d => if d =? 0 then None else Some d
     end)
    mask.

(** The constructors of the two memory classes, as the parser calls them:
    [Mem16(seg,size,base,index,disp)] with mask [0xFFFF] and
    [Mem32(seg,size,base,index,scale,disp)] with mask [0xFFFFFFFF]. *)
Definition new_Mem16 (seg : SegElt) (size : MSElt)
    (basereg indexreg : option R16Elt) (disp : option Z) : Operand :=
  Mem16 seg size basereg indexreg (MemExpr_init_disp disp 0xFFFF).

Definition new_Mem32 (seg : SegElt) (size : MSElt)
    (basereg indexreg : option R32Elt) (scalefac : Z) (disp : option Z)
    : Operand :=
  Mem32 seg size basereg indexreg scalefac (MemExpr_init_disp disp 0xFFFFFFFF).


Definition Seg_of (op : Operand) : option SegElt :=
  match op with
  | Mem16 s _ _ _ _ => Some s
  | Mem32 s _ _ _ _ _ => Some s
  | _ => None
  end.

Definition size_of (op : Operand) : option MSElt :=
  match op with
  | Mem16 _ sz _ _ _ => Some sz
  | Mem32 _ sz _ _ _ _ => Some sz
  | _ => None
  end.

(** [op.BaseReg == None and op.IndexReg == None]. *)
Definition no_base_no_index (op : Operand) : bool :=
  match op with
  | Mem16 _ _ None None _ => true
  | Mem32 _ _ None None _ _ => true
  | _ => false
  end.

(** Modelled from the spec: [MemExpr.DefaultSeg], defined in the memory
    classes outside the sources.  A memory expression has a default
    segment: [SS] when the base is one of [ESP], [EBP], [SP], [BP],
    otherwise [DS]. *)
Definition DefaultSeg (op : Operand) : SegElt :=
  match op with
  | Mem16 _ _ (Some Sp) _ _ | Mem16 _ _ (Some Bp) _ _ => SS
  | Mem32 _ _ (Some Esp) _ _ _ | Mem32 _ _ (Some Ebp) _ _ _ => SS
  | _ => DS
  end.

(** Modelled from the spec: [MemExpr.__call__], which the type checker
    uses as [a.value(op.Seg)] to copy a memory expression with another
    segment; it is defined in the memory classes outside the sources. *)
Definition with_Seg (op : Operand) (seg : SegElt) : Operand :=
  match op with
  | Mem16 _ sz b i d => Mem16 seg sz b i d
  | Mem32 _ sz b i sc d => Mem32 seg sz b i sc d
  | _ => op
  end.

(** The values a guarded operand can hold. *)
Definition guarded (op : Operand) : bool :=
  match op with
  | Ib v => (0 <=? v) && (v <=? 0xFF)
  | Iw v => (0 <=? v) && (v <=? 0xFFFF)
  | Id v => (0 <=? v) && (v <=? 0xFFFFFFFF)
  | JccTarget t n =>
      (0 <=? t) && (t <=? 0xFFFFFFFF) && (0 <=? n) && (n <=? 0xFFFFFFFF)
  | _ => true
  end.

(* ===================================================================== *)
(** * Abstract operand types *)
(* ===================================================================== *)

(** Modelled from the spec: the classes of [X86InternalOperandDescriptions],
    which is not among the sources.  Each abstract operand type compiles
    to one of these nodes: [Exact(v)], [ExactSeg(v)], [GPart(archetype)],
    [RegOrMem(reg_archetype?, mem_size?)], [ImmEnc(archetype)],
    [SignedImm(archetype)], [SizePrefix(yes, no)], [AddrPrefix(yes, no)]. *)
Inductive X86AOTDL : Type :=
| Exact (value : Operand)
| ExactSeg (value : Operand)
| GPart (archetype : Operand)
| RegOrMem (reg : option Operand) (mem : option MSElt)
| ImmEnc (archetype : Operand)
| SignedImm (archetype : Operand)
| SizePrefix (yes no : X86AOTDL)
| AddrPrefix (yes no : X86AOTDL).

(** The abstract operand types named by the transcribed encodings and by
    [X86TypeChecker.lenient_sizes], out of the enumeration [AOTElt]. *)
Inductive AOTElt : Type :=
| OAL | OEb | OEv | OFPEnv | OFPEnvLow | OGb | OGv | OIb | OIbv | OIw | OIz
| OJz | OMd | OMw | OSimdState | OrAX.

Definition AOTElt_eq_dec (a b : AOTElt) : {a = b} + {a <> b}.
Proof. decide equality. Defined.

(** What the modules under study take from outside: whether the bodies
    left as exercises (they raise [ExerciseError]) have been written, and
    the table [AOTtoAOTDL] of [X86InternalOperandDescriptions]. *)
Class Setting : Type := {
  solved : bool;
  AOTtoAOTDL : AOTElt -> X86AOTDL
}.

(** A body left as an exercise: the source raises [ExerciseError(str)]
    where the body should be; [body] is what the docstring asks for.  In
    the type checker an accepting branch with no prefix to report returns
    [MATCHES()]. *)
Definition exercise `{Setting} {A} (str : string) (body : res A) : res A :=
  if solved then body else Raise (ExerciseError str).

(** Modelled from the spec: [X86.Instruction], which is not among the
    sources.  [Instruction{ group1_prefix, mnemonic, operands: [Operand;0..3] }];
    [NumOps] counts the operands and [GetOp(i)] is the [i]-th of them. *)
Record Instruction : Type := mkInstruction {
  prefixes : list PF1Elt;
  mnem : MnemElt;
  operands : list Operand
}.

Definition NumOps (instr : Instruction) : nat := List.length (operands instr).

(* ===================================================================== *)
(** * X86TypeChecker *)
(* ===================================================================== *)

Module TypeChecker.

Record TypeCheckInfo : Type := mkTypeCheckInfo {
  sizeo : option bool;
  addro : option bool;
  sego : option SegElt
}.

Definition SizePFX (b : bool) (t : option TypeCheckInfo) : TypeCheckInfo :=
  match t with
  | None => {| sizeo := Some b; addro := None; sego := None |}
  | Some t => {| sizeo := Some b; addro := addro t; sego := sego t |}
  end.

Definition AddrPFX (b : bool) (t : option TypeCheckInfo) : TypeCheckInfo :=
  match t with
  | None => {| sizeo := None; addro := Some b; sego := None |}
  | Some t => {| sizeo := sizeo t; addro := Some b; sego := sego t |}
  end.

Definition SegPFX (s : SegElt) (t : option TypeCheckInfo) : TypeCheckInfo :=
  match t with
  | None => {| sizeo := None; addro := None; sego := Some s |}
  | Some t => {| sizeo := sizeo t; addro := addro t; sego := Some s |}
  end.

Definition MATCHES : TypeCheckInfo :=
  {| sizeo := None; addro := None; sego := None |}.

(** [lenient_sizes = set([OFPEnv,OFPEnvLow,OSimdState])]. *)
Definition lenient_sizes : list AOTElt := [OFPEnv; OFPEnvLow; OSimdState].

Definition in_lenient_sizes (aop : AOTElt) : bool :=
  if in_dec AOTElt_eq_dec aop lenient_sizes then true else false.

(** Modelled from the spec: what a memory operand reports once it has
    matched, the body the source leaves out at
    [visit_RegOrMem:Memory:Segment], [visit_RegOrMem:Memory:Addrsize] and
    [visit_Immediate_MemExpr].  The segment override is reported if
    [op.seg] differs from [op.default_seg()], and the address override is
    [true] iff [op] is a [Mem16]; [a_tc] is created based on [s_tc]. *)
Definition memory_overrides (op : Operand) : TypeCheckInfo :=
  let s_tc :=
    match Seg_of op with
    | Some s => if SegElt_eqb s (DefaultSeg op) then MATCHES else SegPFX s None
    | None => MATCHES
    end in
  AddrPFX (is_Mem16 op) (Some s_tc).

Section Visit.
Context `{Setting}.

(** [Default]: the operand and the description were incompatible. *)
Definition Default : res (option TypeCheckInfo) := Ok None.

Definition visit_Exact (op : Operand) (value : Operand)
    : res (option TypeCheckInfo) :=
  if Operand_eqb op value then
    exercise "X86TypeChecker::visit_Exact" (Ok (Some MATCHES))
  else Ok None.

Definition visit_ExactSeg (op : Operand) (value : Operand)
    : res (option TypeCheckInfo) :=
  if Operand_eqb op value then
    exercise "X86TypeChecker::visit_ExactSeg: Exact match" (Ok (Some MATCHES))
  else if is_MemExpr op && is_MemExpr value then
    match Seg_of op with
    | Some s =>
        if Operand_eqb (with_Seg value s) op then
          exercise "X86TypeChecker::visit_ExactSeg: Segment differs"
            (Ok (Some (SegPFX s None)))
        else Ok None
    | None => Ok None
    end
  else Ok None.

(** [check_sizes] is the attribute [check] sets before it visits. *)
Definition visit_RegOrMem (check_sizes : bool) (op : Operand)
    (reg : option Operand) (mem : option MSElt) : res (option TypeCheckInfo) :=
  if match reg with Some r => same_type op r | None => false end then
    exercise "X86TypeChecker::visit_RegOrMem:Register" (Ok (Some MATCHES))
  else
    match mem, size_of op with
    | Some m, Some sz =>
        if MSElt_eqb m sz || negb check_sizes then
          exercise "X86TypeChecker::visit_RegOrMem:Memory:Segment"
            (Ok (Some (memory_overrides op)))
        else Ok None
    | _, _ => Ok None
    end.

Definition visit_GPart (op : Operand) (archetype : Operand)
    : res (option TypeCheckInfo) :=
  if same_type op archetype then
    exercise "X86TypeChecker::visit_GPart" (Ok (Some MATCHES))
  else Ok None.

Definition visit_Immediate_MemExpr (op : Operand) (archetype : Operand)
    : res (option TypeCheckInfo) :=
  if is_MemExpr op && no_base_no_index op then
    match size_of archetype, size_of op with
    | Some asz, Some sz =>
        if MSElt_eqb asz sz then
          exercise "X86TypeChecker::visit_Immediate_MemExpr"
            (Ok (Some (memory_overrides op)))
        else Ok None
    | _, _ => Ok None
    end
  else Ok None.

Definition visit_Immediate_FarTarget (op : Operand) (archetype : Operand)
    : res (option TypeCheckInfo) :=
  if same_type op archetype then
    exercise "X86TypeChecker::visit_Immediate_FarTarget" (Ok (Some MATCHES))
  else Ok None.

Definition visit_Immediate_JccTarget (op : Operand)
    : res (option TypeCheckInfo) :=
  if is_JccTarget op then
    exercise "X86TypeChecker::visit_Immediate_JccTarget" (Ok (Some MATCHES))
  else Ok None.

Definition visit_Immediate_Immediate (op : Operand) (archetype : Operand)
    : res (option TypeCheckInfo) :=
  if same_type op archetype then
    exercise "X86TypeChecker::visit_Immediate_Immediate" (Ok (Some MATCHES))
  else Ok None.

Definition visit_SignExtImm_Iw (op : Operand) : res (option TypeCheckInfo) :=
  match op with
  | Iw value =>
      if (value <? 0x80) || (value >=? 0xFF80) then
        exercise "X86TypeChecker::visit_SignExtImm_Iw" (Ok (Some MATCHES))
      else Ok None
  | _ => Ok None
  end.

Definition visit_SignExtImm_Id (op : Operand) : res (option TypeCheckInfo) :=
  match op with
  | Id value =>
      if (value <? 0x80) || (value >=? 0xFFFFFF80) then
        exercise "X86TypeChecker::visit_SignExtImm_Id" (Ok (Some MATCHES))
      else Ok None
  | _ => Ok None
  end.

(** Modelled from the spec: the body of [visit_SizePrefix] and of
    [visit_AddrPrefix], which the source leaves as exercises, given the
    results of visiting the two children.  Try [yes] (if it matches,
    impose the prefix); else try [no] with the prefix [false]; else no
    match.  [PFX] is [SizePFX] or [AddrPFX]. *)
Definition prefixed (PFX : bool -> option TypeCheckInfo -> TypeCheckInfo)
    (yes : res (option TypeCheckInfo)) (no : res (option TypeCheckInfo))
    : res (option TypeCheckInfo) :=
  (r <- yes ;;
   match r with
   | Some t => Ok (Some (PFX true (Some t)))
   | None =>
       r' <- no ;;
       match r' with
       | Some t => Ok (Some (PFX false (Some t)))
       | None => Ok None
       end
   end)%res.

(** [visit], with the method chosen as [MakeMethodName] names it; a name
    the class has no method for goes to [Default]. *)
Fixpoint visit (check_sizes : bool) (op : Operand) (enc : X86AOTDL)
    {struct enc} : res (option TypeCheckInfo) :=
  match enc with
  | ImmEnc archetype =>
      if is_MemExpr archetype then visit_Immediate_MemExpr op archetype
      else if is_FarTarget archetype then visit_Immediate_FarTarget op archetype
      else if is_Immediate archetype then visit_Immediate_Immediate op archetype
      else if is_JccTarget archetype then visit_Immediate_JccTarget op
      else Default
  | SignedImm archetype =>
      match archetype with
      | JccTarget _ _ => visit_Immediate_JccTarget op
      | Iw _ => visit_SignExtImm_Iw op
      | Id _ => visit_SignExtImm_Id op
      | _ => Default
      end
  | SizePrefix yes no =>
      exercise "X86TypeChecker::visit_SizePrefix"
        (prefixed SizePFX (visit check_sizes op yes) (visit check_sizes op no))
  | AddrPrefix yes no =>
      exercise "X86TypeChecker::visit_AddrPrefix"
        (prefixed AddrPFX (visit check_sizes op yes) (visit check_sizes op no))
  | Exact value => visit_Exact op value
  | ExactSeg value => visit_ExactSeg op value
  | RegOrMem reg mem => visit_RegOrMem check_sizes op reg mem
  | GPart archetype => visit_GPart op archetype
  end.

(** [check]: sets [check_sizes], then visits. *)
Definition check (aop : AOTElt) (opnd : Operand) : res (option TypeCheckInfo) :=
  let check_sizes := negb (in_lenient_sizes aop) in
  visit check_sizes opnd (AOTtoAOTDL aop).

(** [opcheck] inside [reduce_typeinfo]; [eqb] is [==] on the field. *)
Definition opcheck {A} (eqb : A -> A -> bool) (bo1 bo2 : option A)
    (errorstr : string) : res (option A) :=
  match bo1, bo2 with
  | None, _ => Ok bo2
  | _, None => Ok bo1
  | Some v1, Some v2 =>
      if eqb v1 v2 then Ok bo1 else Raise (X86TypeCheckError errorstr)
  end.

Definition reduce_typeinfo (t1 t2 : TypeCheckInfo) : res TypeCheckInfo :=
  (so <- opcheck Bool.eqb (sizeo t1) (sizeo t2) "Size mismatch!" ;;
   ao <- opcheck Bool.eqb (addro t1) (addro t2) "Address size mismatch!" ;;
   sg <- opcheck SegElt_eqb (sego t1) (sego t2) "Segments clash!" ;;
   Ok {| sizeo := so; addro := ao; sego := sg |})%res.

(** The loop of [TypeCheckInstruction_exn] over the operand positions,
    from a given [last_ti]; it runs after the lengths were found equal. *)
Fixpoint check_operands (aops : list AOTElt) (ops : list Operand)
    (last_ti : option TypeCheckInfo) : res (option TypeCheckInfo) :=
  match aops, ops with
  | aop :: aops', op :: ops' =>
      (r <- check aop op ;;
       match r with
       | None => Raise (X86TypeCheckError "Operand does not match!")
       | Some ti =>
           t <- match last_ti with
                | None => Ok ti
                | Some l => reduce_typeinfo l ti
                end ;;
           check_operands aops' ops' (Some t)
       end)%res
  | _, _ => Ok last_ti
  end.

(** [x == True] on a field that holds [None], [True] or [False]. *)
Definition is_True (x : option bool) : bool :=
  match x with Some true => true | _ => false end.

Definition TypeCheckInstruction_exn (instr : Instruction) (aops : list AOTElt)
    : res (bool * bool * option SegElt) :=
  if negb (Nat.eqb (List.length aops) (NumOps instr)) then
    Raise (X86TypeCheckError "Operand lengths differ!")
  else if Nat.eqb (List.length aops) 0 then Ok (false, false, None)
  else
    (last_ti <- check_operands aops (operands instr) None ;;
     match last_ti with
     | Some t => Ok (is_True (sizeo t), is_True (addro t), sego t)
     | None => Raise AttributeError
     end)%res.

(** [except X86TypeCheckError, e: pass]: only that class is caught. *)
Definition TypeCheckInstruction_opt (instr : Instruction) (aops : list AOTElt)
    : res (option (bool * bool * option SegElt)) :=
  match TypeCheckInstruction_exn instr aops with
  | Ok retval => Ok (Some retval)
  | Raise (X86TypeCheckError _) => Ok None
  | Raise e => Raise e
  end.

End Visit.

End TypeChecker.

(* ===================================================================== *)
(** * X86EncodeTable *)
(* ===================================================================== *)

(** The encoding classes: [X86Enc] subclasses with their stem [bytes],
    their abstract operand types [ops] and, for [ModRMGroup], [ggg]. *)
Inductive X86Enc : Type :=
| Ordinary (bytes : list Z) (ops : list AOTElt)
| Native16 (bytes : list Z) (ops : list AOTElt)
| ModRMGroup (ggg : Z) (bytes : list Z) (ops : list AOTElt).

Definition enc_bytes (enc : X86Enc) : list Z :=
  match enc with
  | Ordinary b _ | Native16 b _ | ModRMGroup _ b _ => b
  end.

Definition enc_ops (enc : X86Enc) : list AOTElt :=
  match enc with
  | Ordinary _ o | Native16 _ o | ModRMGroup _ _ o => o
  end.

Definition X86Enc_eq_dec (a b : X86Enc) : {a = b} + {a <> b}.
Proof. repeat decide equality. Defined.

Definition eEbGb := [OEb; OGb].
Definition eEvGv := [OEv; OGv].
Definition eGbEb := [OGb; OEb].
Definition eGvEv := [OGv; OEv].
Definition eALIb := [OAL; OIb].
Definition erAXIz := [OrAX; OIz].
Definition eEbIb := [OEb; OIb].
Definition eEvIz := [OEv; OIz].
Definition eEvIbv := [OEv; OIbv].
Definition eEv := [OEv].
Definition eIw := [OIw].
Definition eMw := [OMw].
Definition eMd := [OMd].
Definition eFPEnv := [OFPEnv].
Definition eFPEnvLow := [OFPEnvLow].
Definition eSimdState := [OSimdState].
Definition eNone : list AOTElt := [].

(** [mnem_to_encodings], at the transcribed mnemonics; the order of every
    list is the order of the source.  The source table is an array over
    all mnemonics that starts as [[None]*(X86_LAST_MNEMONIC+1)]; 21
    mnemonics ([Ja] .. [Jz], [Jcxz], [Jecxz], [Loop], [Loopnz], [Loopz])
    are never assigned a list, and the loop of [EncodeInstruction] over
    [None] raises [TypeError] there.  None of them is among the
    mnemonics of [MnemElt]: what is proved of [EncodeInstruction] is
    proved for mnemonics that have a list. *)
Definition mnem_to_encodings (m : MnemElt) : list X86Enc :=
  match m with
  | Daa => [Ordinary [0x27] eNone]
  | Das => [Ordinary [0x2F] eNone]
  | Aaa => [Ordinary [0x37] eNone]
  | Aas => [Ordinary [0x3F] eNone]
  | Add =>
      [ Ordinary [0x00] eEbGb;
        Ordinary [0x01] eEvGv;
        Ordinary [0x02] eGbEb;
        Ordinary [0x03] eGvEv;
        Ordinary [0x04] eALIb;
        Ordinary [0x05] erAXIz;
        ModRMGroup 0 [0x80] eEbIb;
        ModRMGroup 0 [0x81] eEvIz;
        ModRMGroup 0 [0x83] eEvIbv ]
  | Or =>
      [ Ordinary [0x08] eEbGb;
        Ordinary [0x09] eEvGv;
        Ordinary [0x0A] eGbEb;
        Ordinary [0x0B] eGvEv;
        Ordinary [0x0C] eALIb;
        Ordinary [0x0D] erAXIz;
        ModRMGroup 1 [0x80] eEbIb;
        ModRMGroup 1 [0x81] eEvIz;
        ModRMGroup 1 [0x83] eEvIbv ]
  | Adc =>
      [ Ordinary [0x10] eEbGb;
        Ordinary [0x11] eEvGv;
        Ordinary [0x12] eGbEb;
        Ordinary [0x13] eGvEv;
        Ordinary [0x14] eALIb;
        Ordinary [0x15] erAXIz;
        ModRMGroup 2 [0x80] eEbIb;
        ModRMGroup 2 [0x81] eEvIz;
        ModRMGroup 2 [0x83] eEvIbv ]
  | Pushaw => [Native16 [0x60] eNone]
  | Pushad => [Ordinary [0x60] eNone]
  | Ret => [Ordinary [0xC2] eIw; Ordinary [0xC3] eNone]
  | Jmp => [Ordinary [0xE9] [OJz]; ModRMGroup 4 [0xFF] eEv]
  | Fldenv => [ModRMGroup 4 [0xD9] eFPEnvLow]
  | Fldcw => [ModRMGroup 5 [0xD9] eMw]
  | Fstenv => [ModRMGroup 6 [0xD9] eFPEnvLow]
  | Frstor => [ModRMGroup 4 [0xDD] eFPEnv]
  | Fsave => [ModRMGroup 6 [0xDD] eFPEnv]
  | Fxsave => [ModRMGroup 0 [0x0F; 0xAE] eSimdState]
  | Fxrstor => [ModRMGroup 1 [0x0F; 0xAE] eSimdState]
  | Ldmxcsr => [ModRMGroup 2 [0x0F; 0xAE] eMd]
  end.

(* ===================================================================== *)
(** * X86Encoder *)
(* ===================================================================== *)

(** The interface of [X86ModRM], which is not among the sources: the two
    classes [ModRM16] and [ModRM32], the fields [MOD], [GGG] and [RM] the
    encoder assigns, and the methods [EncodeFromParts] and [Encode]. *)
Class ModRMCodec : Type := {
  ModRM : Type;
  ModRM16 : ModRM;
  ModRM32 : ModRM;
  set_MOD : Z -> ModRM -> ModRM;
  set_GGG : Z -> ModRM -> ModRM;
  set_RM : Z -> ModRM -> ModRM;
  EncodeFromParts16 :
    option R16Elt -> option R16Elt -> option Z -> ModRM -> res ModRM;
  EncodeFromParts32 :
    option R32Elt -> option R32Elt -> Z -> option Z -> ModRM -> res ModRM;
  Encode : ModRM -> res (list Z)
}.

(** Modelled from the spec: [little_endian_bytes(imm,n)] of [X86ModRM],
    which is not among the sources: the [n] low bytes of [imm], the least
    significant first. *)
Definition little_endian_bytes (imm : Z) (n : nat) : list Z :=
  map (fun i => Z.land (Z.shiftr imm (8 * Z.of_nat i)) 0xFF) (seq 0 n).

(** [PrefixOfSeg]. *)
Definition PrefixOfSeg (s : SegElt) : Z :=
  match s with
  | CS => 0x2E
  | SS => 0x36
  | DS => 0x3E
  | ES => 0x26
  | FS => 0x64
  | GS => 0x65
  end.

Module Encoder.

Section Encoder.
Context `{Setting} `{ModRMCodec}.

(** The attributes of an [X86Encoder] object.  [group1pfx] holds what the
    encoder appends to the byte list when it is not [None]. *)
Record X86Encoder : Type := mkEncoder {
  group1pfx : option Z;
  stem : list Z;
  segpfx : option SegElt;
  addrpfx : bool;
  sizepfx : bool;
  immediates : list Z;
  _modrm : option ModRM;
  addr : Z
}.

(** [Reset], on an encoder whose [addr] is kept. *)
Definition Reset (a : Z) : X86Encoder :=
  {| group1pfx := None; stem := []; segpfx := None; addrpfx := false;
     sizepfx := false; immediates := []; _modrm := None; addr := a |}.

(** The [ModRM] property: the object is created the first time it is
    read, a [ModRM16] if [addrpfx] holds then and a [ModRM32] otherwise.
    [on_ModRM f] reads the property and lets [f] update the object. *)
Definition on_ModRM (f : ModRM -> res ModRM) (s : X86Encoder)
    : res X86Encoder :=
  let m := match _modrm s with
           | Some m => m
           | None => if addrpfx s then ModRM16 else ModRM32
           end in
  (m' <- f m ;;
   Ok {| group1pfx := group1pfx s; stem := stem s; segpfx := segpfx s;
         addrpfx := addrpfx s; sizepfx := sizepfx s;
         immediates := immediates s; _modrm := Some m'; addr := addr s |})%res.

Definition AppendImmediate (imm : Z) (n : nat) (s : X86Encoder) : X86Encoder :=
  {| group1pfx := group1pfx s; stem := stem s; segpfx := segpfx s;
     addrpfx := addrpfx s; sizepfx := sizepfx s;
     immediates := immediates s ++ little_endian_bytes imm n;
     _modrm := _modrm s; addr := addr s |}.

Definition set_sizepfx (b : bool) (s : X86Encoder) : X86Encoder :=
  {| group1pfx := group1pfx s; stem := stem s; segpfx := segpfx s;
     addrpfx := addrpfx s; sizepfx := b; immediates := immediates s;
     _modrm := _modrm s; addr := addr s |}.

(** [enc.Encode(self)].  The three bodies are exercises; their docstrings
    say: [Ordinary] does not modify the encoder, [Native16] sets its
    [sizepfx], [ModRMGroup] sets the [GGG] of its ModRM to [ggg]. *)
Definition enc_Encode (enc : X86Enc) (s : X86Encoder) : res X86Encoder :=
  match enc with
  | Ordinary _ _ => exercise "X86EncodeTable::Ordinary" (Ok s)
  | Native16 _ _ =>
      exercise "X86EncodeTable::Native16" (Ok (set_sizepfx true s))
  | ModRMGroup ggg _ _ =>
      exercise "X86EncodeTable::ModRMGroup"
        (on_ModRM (fun m => Ok (set_GGG ggg m)) s)
  end.

Definition visit_Exact (s : X86Encoder) : res X86Encoder :=
  exercise "X86Encoder::visit_Exact" (Ok s).

Definition visit_ExactSeg (s : X86Encoder) : res X86Encoder :=
  exercise "X86Encoder::visit_ExactSeg" (Ok s).

Definition visit_GPart (op : Operand) (s : X86Encoder) : res X86Encoder :=
  exercise "X86Encoder::visit_GPart"
    match Register_IntValue op with
    | Some v => on_ModRM (fun m => Ok (set_GGG v m)) s
    | None => Raise AttributeError
    end.

Definition visit_RegOrMem_Register (op : Operand) (s : X86Encoder)
    : res X86Encoder :=
  exercise "X86Encoder::visit_RegOrMem_Register"
    match Register_IntValue op with
    | Some v => on_ModRM (fun m => Ok (set_RM v (set_MOD 3 m))) s
    | None => Raise AttributeError
    end.

Definition visit_RegOrMem_Mem16 (mem : Operand) (s : X86Encoder)
    : res X86Encoder :=
  exercise "X86Encoder::visit_RegOrMem_Mem16"
    match mem with
    | Mem16 _ _ b i d => on_ModRM (EncodeFromParts16 b i d) s
    | _ => Raise AttributeError
    end.

Definition visit_RegOrMem_Mem32 (mem : Operand) (s : X86Encoder)
    : res X86Encoder :=
  exercise "X86Encoder::visit_RegOrMem_Mem32"
    match mem with
    | Mem32 _ _ b i sc d => on_ModRM (EncodeFromParts32 b i sc d) s
    | _ => Raise AttributeError
    end.

(** The docstring: write [Disp] as an immediate, 2 bytes for [Mem16] and
    4 bytes for [Mem32].  A [Disp] that is [None] is not followed. *)
Definition visit_Immediate_MemExpr (op : Operand) (s : X86Encoder)
    : res X86Encoder :=
  exercise "X86Encoder::visit_Immediate_MemExpr"
    match op with
    | Mem16 _ _ _ _ (Some d) => Ok (AppendImmediate d 2 s)
    | Mem32 _ _ _ _ _ (Some d) => Ok (AppendImmediate d 4 s)
    | Mem16 _ _ _ _ None | Mem32 _ _ _ _ _ None =>
        Raise (Unmodelled "little_endian_bytes(None,n)")
    | _ => Raise AttributeError
    end.

Definition visit_Immediate_FarTarget (op : Operand) (s : X86Encoder)
    : res X86Encoder :=
  exercise "X86Encoder::visit_Immediate_FarTarget"
    match op with
    | AP16 sg off => Ok (AppendImmediate sg 2 (AppendImmediate off 2 s))
    | AP32 sg off => Ok (AppendImmediate sg 2 (AppendImmediate off 4 s))
    | _ => Raise AttributeError
    end.

(** [op.value] as an integer: the immediates have one. *)
Definition Immediate_value (op : Operand) : res Z :=
  match op with
  | Ib v | Iw v | Id v => Ok v
  | _ => Raise AttributeError
  end.

Definition visit_Immediate_Ib (op : Operand) (s : X86Encoder)
    : res X86Encoder :=
  exercise "X86Encoder::visit_Immediate_Ib"
    (v <- Immediate_value op ;; Ok (AppendImmediate v 1 s))%res.

Definition visit_Immediate_Iw (op : Operand) (s : X86Encoder)
    : res X86Encoder :=
  exercise "X86Encoder::visit_Immediate_Iw"
    (v <- Immediate_value op ;; Ok (AppendImmediate v 2 s))%res.

Definition visit_Immediate_Id (op : Operand) (s : X86Encoder)
    : res X86Encoder :=
  exercise "X86Encoder::visit_Immediate_Id"
    (v <- Immediate_value op ;; Ok (AppendImmediate v 4 s))%res.

(** A Python [bool] used as a number. *)
Definition int_of_bool (b : bool) : Z := if b then 1 else 0.

Definition is_Some {A} (o : option A) : bool :=
  match o with Some _ => true | None => false end.

(** [instrlen] of [visit_Immediate_JccTarget]. *)
Definition instrlen (s : X86Encoder) : Z :=
  int_of_bool (is_Some (segpfx s)) + int_of_bool (sizepfx s)
  + (int_of_bool (addrpfx s) + Z.of_nat (List.length (stem s)) + 4).

(** [visit_Immediate_JccTarget]; this body is written in the source.  The
    statement of the domain test is
    [raise X86EncoderError("%s: had address prefix with 32-bit dest" % jcc)]:
    nothing in the method, the module or the other sources binds [jcc]
    (nor defines [X86EncoderError]), so evaluating the statement raises
    [NameError]. *)
Definition visit_Immediate_JccTarget (op : Operand) (s : X86Encoder)
    : res X86Encoder :=
  match op with
  | JccTarget taken _ =>
      let dest := taken in
      if addrpfx s && (dest >? 0xFFFF) then Raise NameError
      else
        let displacement := Z.land (dest - (addr s + instrlen s)) 0xFFFFFFFF in
        Ok (AppendImmediate displacement (if addrpfx s then 2%nat else 4%nat) s)
  | _ => Raise AttributeError
  end.

(** What [Visitor2.visit] does with a method name the class lacks; the
    encoder does not override [Default], and [Visitor2] is not among the
    sources. *)
Definition Default : res X86Encoder := Raise (Unmodelled "Visitor2.Default").

(** [visit], with the method chosen as the encoder's [MakeMethodName]
    names it.  The bodies of [visit_SizePrefix] and [visit_AddrPrefix] are
    exercises; their docstrings: visit the appropriate child depending
    upon whether the prefix is present. *)
Fixpoint visit (op : Operand) (enc : X86AOTDL) (s : X86Encoder) {struct enc}
    : res X86Encoder :=
  match enc with
  | ImmEnc archetype =>
      if is_MemExpr archetype then visit_Immediate_MemExpr op s
      else if is_FarTarget archetype then visit_Immediate_FarTarget op s
      else match archetype with
           | Ib _ => visit_Immediate_Ib op s
           | Iw _ => visit_Immediate_Iw op s
           | Id _ => visit_Immediate_Id op s
           | JccTarget _ _ => visit_Immediate_JccTarget op s
           | _ => Default
           end
  | RegOrMem _ _ =>
      if is_Register op then visit_RegOrMem_Register op s
      else match op with
           | Mem16 _ _ _ _ _ => visit_RegOrMem_Mem16 op s
           | Mem32 _ _ _ _ _ _ => visit_RegOrMem_Mem32 op s
           | _ => Default
           end
  | SignedImm archetype =>
      match archetype with
      | JccTarget _ _ => visit_Immediate_JccTarget op s
      | _ => visit_Immediate_Ib op s
      end
  | Exact _ => visit_Exact s
  | ExactSeg _ => visit_ExactSeg s
  | GPart _ => visit_GPart op s
  | SizePrefix yes no =>
      exercise "X86Encoder::visit_SizePrefix"
        (if sizepfx s then visit op yes s else visit op no s)
  | AddrPrefix yes no =>
      exercise "X86Encoder::visit_AddrPrefix"
        (if addrpfx s then visit op yes s else visit op no s)
  end.

(** [for i in xrange(len(enc.ops)): self.visit(instr.GetOp(i),...)]. *)
Fixpoint visit_operands (aops : list AOTElt) (ops : list Operand)
    (s : X86Encoder) : res X86Encoder :=
  match aops, ops with
  | aop :: aops', op :: ops' =>
      (s' <- visit op (AOTtoAOTDL aop) s ;; visit_operands aops' ops' s')%res
  | _, _ => Ok s
  end.

(** The byte list collected at the end of [EncodeInstruction], in the
    order of its statements. *)
Definition seg_bytes (s : X86Encoder) : list Z :=
  match segpfx s with Some sg => [PrefixOfSeg sg] | None => [] end.
Definition addr_bytes (s : X86Encoder) : list Z :=
  if addrpfx s then [0x67] else [].
Definition size_bytes (s : X86Encoder) : list Z :=
  if sizepfx s then [0x66] else [].
Definition group1_bytes (s : X86Encoder) : list Z :=
  match group1pfx s with Some p => [p] | None => [] end.
Definition modrm_bytes (s : X86Encoder) : res (list Z) :=
  match _modrm s with Some m => Encode m | None => Ok [] end.

Definition collect (s : X86Encoder) : res (list Z) :=
  let enc := [] in
  let enc := enc ++ seg_bytes s in
  let enc := enc ++ addr_bytes s in
  let enc := enc ++ size_bytes s in
  let enc := enc ++ group1_bytes s in
  let enc := enc ++ stem s in
  (m <- modrm_bytes s ;;
   let enc := enc ++ m in
   let enc := enc ++ immediates s in
   Ok enc)%res.

(** The body of the loop of [EncodeInstruction] once [enc] type-checked
    with [val]: the encoder as it stands before the byte list is
    collected. *)
Definition encode_state (instr : Instruction) (a : Z) (enc : X86Enc)
    (val : bool * bool * option SegElt) : res X86Encoder :=
  let '(v0, v1, v2) := val in
  let s := {| group1pfx := None; stem := enc_bytes enc; segpfx := v2;
              addrpfx := v1; sizepfx := v0; immediates := [];
              _modrm := None; addr := a |} in
  (s1 <- enc_Encode enc s ;;
   visit_operands (enc_ops enc) (operands instr) s1)%res.

Definition encode_with (instr : Instruction) (a : Z) (enc : X86Enc)
    (val : bool * bool * option SegElt) : res (list Z) :=
  (s <- encode_state instr a enc val ;; collect s)%res.

(** The loop of [EncodeInstruction] over the candidate encodings. *)
Fixpoint try_encodings (instr : Instruction) (a : Z) (encs : list X86Enc)
    : res (list Z) :=
  match encs with
  | [] => Raise InvalidInstruction
  | enc :: encs' =>
      (val <- TypeChecker.TypeCheckInstruction_opt instr (enc_ops enc) ;;
       match val with
       | None => try_encodings instr a encs'
       | Some v => encode_with instr a enc v
       end)%res
  end.

Definition EncodeInstruction (instr : Instruction) (a : Z) : res (list Z) :=
  try_encodings instr a (mnem_to_encodings (mnem instr)).

(** [EncodeInstructions]. *)
Fixpoint EncodeInstructions (instrs : list Instruction) (curraddr : Z)
    : res (list Z) :=
  match instrs with
  | [] => Ok []
  | instr :: instrs' =>
      (enc <- EncodeInstruction instr curraddr ;;
       rest <- EncodeInstructions instrs' (curraddr + Z.of_nat (List.length enc)) ;;
       Ok (enc ++ rest))%res
  end.

End Encoder.

End Encoder.

(* ===================================================================== *)
(** * X86Internal: hexadecimal strings *)
(* ===================================================================== *)

Module Hexify.

(** Python's [hex] on an integer: a sign for a negative value, ["0x"],
    the lowercase digits of the magnitude without leading zeros, and an
    ["L"] when the value is a Python [long] ([is_long] says so: [Z] does
    not tell [int] from [long]). *)
Definition hex_digit (d : Z) : ascii :=
  nth (Z.to_nat d)
      ["0"; "1"; "2"; "3"; "4"; "5"; "6"; "7"; "8"; "9";
       "a"; "b"; "c"; "d"; "e"; "f"]%char "0"%char.

Fixpoint hex_digits (fuel : nat) (n : Z) : list ascii :=
  match fuel with
  | O => []
  | S fuel' =>
      if n <? 16 then [hex_digit n]
      else hex_digits fuel' (n / 16) ++ [hex_digit (n mod 16)]
  end.

Definition hex (value : Z) (is_long : bool) : list ascii :=
  (if value <? 0 then ["-"%char] else [])
  ++ ["0"; "x"]%char
  ++ hex_digits (S (Z.to_nat (Z.log2 (Z.abs value)))) (Z.abs value)
  ++ (if is_long then ["L"%char] else []).

(** [str.upper] on one character and on a string. *)
Definition upper_ascii (c : ascii) : ascii :=
  let n := nat_of_ascii c in
  if (Nat.leb 97 n && Nat.leb n 122)%bool then ascii_of_nat (n - 32) else c.

Definition upper (s : list ascii) : list ascii := map upper_ascii s.

(** [c1 <= c2] on characters. *)
Definition ascii_leb (c1 c2 : ascii) : bool :=
  Nat.leb (nat_of_ascii c1) (nat_of_ascii c2).

(** [X86Hexify]; [hstr[2]] raises [IndexError] on a string shorter than
    three characters. *)
Definition X86Hexify (value : Z) (is_long : bool) : res (list ascii) :=
  let hstr := hex value is_long in
  let hstr :=
    match last hstr "x"%char with
    | "l"%char | "L"%char => removelast hstr
    | _ => hstr
    end in
  match nth_error hstr 2 with
  | None => Raise IndexError
  | Some c =>
      let hstr :=
        if (ascii_leb "a" c && ascii_leb c "f")%bool
        then "0"%char :: skipn 2 hstr
        else skipn 2 hstr in
      Ok (upper hstr ++ ["h"%char])
  end.

End Hexify.

(* ===================================================================== *)
(** * X86Yacc: what the parser does with the operands it read *)
(* ===================================================================== *)

Module Yacc.

(** The parser raises [ValueError]; an exception of the type checker
    passes through it. *)
Inductive yacc_exn : Type :=
| ValueError (str : string)
| Passed (e : exn).

Inductive yres (A : Type) : Type :=
| YOk (a : A)
| YRaise (e : yacc_exn).
Arguments YOk {A} a.
Arguments YRaise {A} e.

(** [validate_scale]. *)
Definition validate_scale (num : Z) : yres Z :=
  if negb ((Z.land num (num - 1) =? 0) && negb (num =? 0) && (num <=? 8))
  then YRaise (ValueError "Decoding memory expression:  bad scale factor")
  else YOk (if num =? 8 then 3
            else if num =? 4 then 2
            else if num =? 2 then 1
            else 0).

(** [memsizes]. *)
Definition memsizes : list MSElt := [Mb; Mw; Md; Mf; Mq; Mt; Mdq].

(** An operand as the grammar rules build it: an operand of a known
    class, or an object of one of the three classes
    [X86UnknownSizeImmediate], [X86UnknownSizeMem16] and
    [X86UnknownSizeMem32], which hold what their base class holds. *)
Inductive PseudoOperand : Type :=
| Sized (op : Operand)
| X86UnknownSizeImmediate (value : Z)
| X86UnknownSizeMem16 (Seg : SegElt)
    (BaseReg IndexReg : option R16Elt) (Disp : option Z)
| X86UnknownSizeMem32 (Seg : SegElt)
    (BaseReg IndexReg : option R32Elt) (ScaleFac : Z) (Disp : option Z).

(** [X86Pseudo]. *)
Record X86Pseudo : Type := mkPseudo {
  pf : list PF1Elt;
  pmnem : MnemElt;
  op1 : option PseudoOperand;
  op2 : option PseudoOperand;
  op3 : option PseudoOperand
}.

(** The two tests of [mk_op_list] on the value of an immediate of
    unknown size, as they are written. *)
Definition offers_Ib (v : Z) : bool :=
  (v <=? 0xFF) || ((v <=? 0x7F) || (v >=? 0xFFFFFF80))
  || ((v <=? 0x7F) || ((v >=? 0xFF80) && (v <=? 0xFFFF))).

Definition offers_Iw (v : Z) : bool :=
  (v <=? 0xFFFF) || ((v <=? 0x7F) || (v >=? 0xFFFF8000))
  || ((v <=? 0x7F) || ((v >=? 0xFF80) && (v <=? 0xFFFF))).

(** [mk_op_list] inside [p_instr_pseudo]: the operands to try for one
    operand position, in order; [None] stands for an absent operand. *)
Definition mk_op_list (op : option PseudoOperand) : list (option Operand) :=
  match op with
  | None => [None]
  | Some (X86UnknownSizeImmediate v) =>
      let l := [Some (new_Id v)] in
      let l := if offers_Ib v then l ++ [Some (new_Ib v)] else l in
      let l := if offers_Iw v then l ++ [Some (new_Iw v)] else l in
      l
  | Some (X86UnknownSizeMem16 seg b i d) =>
      map (fun s => Some (new_Mem16 seg s b i d)) memsizes
  | Some (X86UnknownSizeMem32 seg b i sc d) =>
      map (fun s => Some (new_Mem32 seg s b i sc d)) memsizes
  | Some (Sized o) => [Some o]
  end.

(** [itertools.product] of three lists: the last position varies
    fastest. *)
Definition product3 {A} (l1 l2 l3 : list A) : list (A * A * A) :=
  flat_map (fun a => flat_map (fun b => map (fun c => (a, b, c)) l3) l2) l1.

(** Modelled from the spec: [X86.Instruction(pf,mnem,op1,op2,op3)], which
    is not among the sources; its operands are the ones that are not
    [None]. *)
Definition make_Instruction (pfs : list PF1Elt) (m : MnemElt)
    (t : option Operand * option Operand * option Operand) : Instruction :=
  let '(o1, o2, o3) := t in
  {| prefixes := pfs; mnem := m;
     operands := concat (map (fun o => match o with
                                       | Some x => [x]
                                       | None => []
                                       end) [o1; o2; o3]) |}.

Section Parser.
Context `{Setting}.

(** The inner loop of [p_instr_pseudo]: whether some encoding of the
    mnemonic type-checks, the encodings taken in table order. *)
Fixpoint some_encoding_matches (i : Instruction) (encs : list X86Enc)
    : res bool :=
  match encs with
  | [] => Ok false
  | enc :: encs' =>
      (val <- TypeChecker.TypeCheckInstruction_opt i (enc_ops enc) ;;
       match val with
       | None => some_encoding_matches i encs'
       | Some _ => Ok true
       end)%res
  end.

(** The outer loop of [p_instr_pseudo] over the candidate instructions. *)
Fixpoint first_accepted (candidates : list Instruction) : yres Instruction :=
  match candidates with
  | [] => YRaise (ValueError "bad instruction")
  | i :: candidates' =>
      match some_encoding_matches i (mnem_to_encodings (mnem i)) with
      | Raise e => YRaise (Passed e)
      | Ok true => YOk i
      | Ok false => first_accepted candidates'
      end
  end.

(** [p_instr_pseudo]: the first combination of operand choices that
    type-checks against an encoding of the mnemonic, or [ValueError]. *)
Definition p_instr_pseudo (pseudo : X86Pseudo) : yres Instruction :=
  let g := product3 (mk_op_list (op1 pseudo)) (mk_op_list (op2 pseudo))
                    (mk_op_list (op3 pseudo)) in
  first_accepted (map (make_Instruction (pf pseudo) (pmnem pseudo)) g).

End Parser.

End Yacc.

(* ===================================================================== *)
(** * X86DecodeTable: the decoder description language *)
(* ===================================================================== *)

Module DecodeTable.

(** The exceptions of this module: those of [exn], [RuntimeError], and
    the [NameError] of a name that is not bound. *)
Inductive dec_exn : Type :=
| Std (e : exn)
| RuntimeError
| NameError (name : string).

Inductive dres (A : Type) : Type :=
| DOk (a : A)
| DRaise (e : dec_exn).
Arguments DOk {A} a.
Arguments DRaise {A} e.

(** The classes that derive from [X86DECDL]; [Fatal] and [InvalidEntry]
    stand for the two objects [Fatal] and [Invalid] the table uses. *)
#[warnings="-register-all"]
Inductive X86DECDL : Type :=
| Fatal
| InvalidEntry
| Direct (mnem : MnemElt) (opl : list AOTElt)
| Group (group : list X86DECDL)
| RMGroup (group : list X86DECDL)
| SSE (no rep size repne : X86DECDL)
| PredOpSize (overridden regular : X86DECDL)
| PredAddrSize (overridden regular : X86DECDL)
| PredMOD (overridden regular : X86DECDL).

(** [isinstance(entry,InvalidEntry)]. *)
Definition is_InvalidEntry (entry : X86DECDL) : bool :=
  match entry with InvalidEntry => true | _ => false end.

(** [SSENo], [SSE66], [SSENo66]. *)
Definition SSENo (no : X86DECDL) : X86DECDL :=
  SSE no InvalidEntry InvalidEntry InvalidEntry.
Definition SSE66 (se : X86DECDL) : X86DECDL :=
  SSE InvalidEntry InvalidEntry se InvalidEntry.
Definition SSENo66 (no se : X86DECDL) : X86DECDL :=
  SSE no InvalidEntry se InvalidEntry.

(** Modelled from the spec: what the entries read of the ModRM object of
    the decoder, whose class is not among the sources: its [GGG] and [RM]
    fields and whether it refers to memory. *)
Record DecodedModRM : Type := mkModRM {
  GGG : Z;
  RM : Z;
  refers_to_memory : bool
}.

(** Modelled from the spec: what the entries read of the decoder object,
    whose class [X86Decoder] is not among the sources: the stack of
    group 1 prefixes, the two prefix flags, and the ModRM, which is
    optional and is decoded from the stream when it is first consulted. *)
Record X86Decoder : Type := mkDecoder {
  group1pfx : list PF1Elt;
  sizepfx : bool;
  addrpfx : bool;
  modrm : option DecodedModRM;
  stream : ByteStream.StreamObj
}.

(** [decoder.group1pfx = []]. *)
Definition clear_group1pfx (d : X86Decoder) : X86Decoder :=
  {| group1pfx := []; sizepfx := sizepfx d; addrpfx := addrpfx d;
     modrm := modrm d; stream := stream d |}.

(** The loop of [SSE.decode]: [pfx.pop()] takes the prefixes from the
    end of the list, so [pops] is the list reversed; the loop returns at
    the first [REP] with a valid [rep] entry or [REPNE] with a valid
    [repne] entry, and [pop] raises [IndexError] on the empty list. *)
Inductive popped : Type := UseRep | UseRepne | Exhausted.

Fixpoint pop_until (pops : list PF1Elt) (rep_valid repne_valid : bool)
    : popped :=
  match pops with
  | [] => Exhausted
  | curpfx :: pops' =>
      match curpfx with
      | REP => if rep_valid then UseRep
               else pop_until pops' rep_valid repne_valid
      | REPNE => if repne_valid then UseRepne
                 else pop_until pops' rep_valid repne_valid
      | LOCK => pop_until pops' rep_valid repne_valid
      end
  end.

Section Decode.
Context `{Setting}.

(** What the clause [except e,Exception: pass] of [SSE.decode] does with
    an exception that reaches it: [None] when the clause catches it, and
    the exception that leaves the [try] statement otherwise.  The clause
    names the class to catch [e]; evaluating a name that is not bound
    raises [NameError]. *)
Variable except_e : dec_exn -> option dec_exn.

(** Modelled from the spec: the method that decodes a ModRM from the
    stream, told whether the address-size prefix is there; it belongs to
    the ModRM classes, which are not among the sources. *)
Variable read_ModRM : bool -> ByteStream.M DecodedModRM.

(** Modelled from the spec: the [ModRM] of the decoder is consulted: the
    one held when there is one; otherwise it is decoded from the stream,
    which advances, and held from then on; an exception of the read
    leaves the decoder without ModRM. *)
Definition get_ModRM (d : X86Decoder) : dres DecodedModRM * X86Decoder :=
  match modrm d with
  | Some m => (DOk m, d)
  | None =>
      match read_ModRM (addrpfx d) (stream d) with
      | (Ok m, st) =>
          (DOk m, {| group1pfx := group1pfx d; sizepfx := sizepfx d;
                     addrpfx := addrpfx d; modrm := Some m; stream := st |})
      | (Raise e, st) =>
          (DRaise (Std e), {| group1pfx := group1pfx d; sizepfx := sizepfx d;
                              addrpfx := addrpfx d; modrm := None;
                              stream := st |})
      end
  end.

(** The [decode] methods.  [Group.decode], [RMGroup.decode] and the three
    [cond] methods are exercises; their docstrings: select the entry of
    [group] at the [GGG], respectively [RM], field of the ModRM held in
    the decoder and call its [decode]; return the decoder's [sizepfx],
    its [addrpfx], whether its ModRM refers to memory. *)
Fixpoint decode (entry : X86DECDL) (d : X86Decoder) {struct entry}
    : dres (MnemElt * list AOTElt) * X86Decoder :=
  match entry with
  | Fatal => (DRaise RuntimeError, d)
  | InvalidEntry => (DRaise (Std InvalidInstruction), d)
  | Direct mnem opl => (DOk (mnem, opl), d)
  | Group group =>
      if solved then
        match get_ModRM d with
        | (DOk m, d1) =>
            (fix select (l : list X86DECDL) (n : nat) {struct l} :=
               match l, n with
               | [], _ => (DRaise (Std IndexError), d1)
               | x :: _, O => decode x d1
               | _ :: l', S n' => select l' n'
               end) group (Z.to_nat (GGG m))
        | (DRaise e, d1) => (DRaise e, d1)
        end
      else (DRaise (Std (ExerciseError "X86DecodeTable::Group::Decode")), d)
  | RMGroup group =>
      if solved then
        match get_ModRM d with
        | (DOk m, d1) =>
            (fix select (l : list X86DECDL) (n : nat) {struct l} :=
               match l, n with
               | [], _ => (DRaise (Std IndexError), d1)
               | x :: _, O => decode x d1
               | _ :: l', S n' => select l' n'
               end) group (Z.to_nat (RM m))
        | (DRaise e, d1) => (DRaise e, d1)
        end
      else (DRaise (Std (ExerciseError "X86DecodeTable::RMGroup::Decode")), d)
  | SSE no rep size repne =>
      let after_try (d' : X86Decoder) :=
        if sizepfx d' && negb (is_InvalidEntry size) then decode size d'
        else decode no d' in
      let leave_try (r : dres (MnemElt * list AOTElt) * X86Decoder) :=
        match r with
        | (DOk x, d') => (DOk x, d')
        | (DRaise x, d') =>
            match except_e x with
            | Some y => (DRaise y, d')
            | None => after_try d'
            end
        end in
      match group1pfx d with
      | [] => after_try d
      | _ :: _ =>
          let d1 := clear_group1pfx d in
          match pop_until (rev (group1pfx d))
                  (negb (is_InvalidEntry rep)) (negb (is_InvalidEntry repne))
          with
          | UseRep => leave_try (decode rep d1)
          | UseRepne => leave_try (decode repne d1)
          | Exhausted => leave_try (DRaise (Std IndexError), d1)
          end
      end
  | PredOpSize overridden regular =>
      if solved then
        if sizepfx d then decode overridden d else decode regular d
      else (DRaise (Std (ExerciseError "X86DecodeTable::PredOpSize::cond")), d)
  | PredAddrSize overridden regular =>
      if solved then
        if addrpfx d then decode overridden d else decode regular d
      else (DRaise (Std (ExerciseError "X86DecodeTable::PredAddrSize::cond")), d)
  | PredMOD overridden regular =>
      if solved then
        match get_ModRM d with
        | (DOk m, d1) =>
            if refers_to_memory m then decode overridden d1
            else decode regular d1
        | (DRaise e, d1) => (DRaise e, d1)
        end
      else (DRaise (Std (ExerciseError "X86DecodeTable::PredMOD::cond")), d)
  end.

End Decode.

(** Modelled from the spec: a ModRM read as one byte of the stream, with
    [MOD] in its two high bits, [GGG] in the next three and [RM] in the
    low three; it refers to memory unless [MOD] is [3]. *)
Definition read_ModRM_byte (addr16 : bool) : ByteStream.M DecodedModRM :=
  ByteStream.bind ByteStream.Byte
    (fun b => ByteStream.ret
       {| GGG := Z.land (Z.shiftr b 3) 7; RM := Z.land b 7;
          refers_to_memory := negb (Z.shiftr b 6 =? 3) |}).

(** The clause as the module stands: nothing in it binds [e]. *)
Definition e_not_bound (x : dec_exn) : option dec_exn := Some (NameError "e").

End DecodeTable.

(* ===================================================================== *)
(** * Tests: the displacements the ModRM tests generate *)
(* ===================================================================== *)

Module TestSupport.

(** [rnd_displ] of [TestModRM16] and [TestModRM32].  [i], [r1] and [r2]
    are the numbers its calls of [random.randint] return:
    [randint(0 if choose_none else 1,2)], [randint(0,255)] and
    [randint(0,mask)]. *)
Definition rnd_displ (choose_none : bool) (mask : Z) (i r1 r2 : Z)
    : option Z :=
  if i =? 0 then None
  else if i =? 1 then Some (Z.land mask (127 - r1))
  else if i =? 2 then Some r2
  else None.

(** [random.randint(a,b)] returns a number [N] with [a <= N <= b]. *)
Definition drawn (choose_none : bool) (mask : Z) (i r1 r2 : Z) : Prop :=
  (if choose_none then 0 else 1) <= i <= 2
  /\ 0 <= r1 <= 255 /\ 0 <= r2 <= mask.

End TestSupport.

(* ===================================================================== *)
(** * Settings to run the encoder in *)
(* ===================================================================== *)

(** Modelled from the spec: the entries of [AOTtoAOTDL] for the abstract
    operand types above; the table is in [X86InternalOperandDescriptions],
    which is not among the sources.  The spec names the roles: [Eb] is
    r/m 8, [Gv] is reg 16/32, [Iz] is imm 16/32, [AL] and [rAX] are exact
    registers, [Jz] a jump target; [SignedImm] is the sign-extended imm8
    form; [FPEnv], [FPEnvLow] and [SimdState] are memory types whose size
    is not encoded in the opcode (the tag given to them here is the one
    the type checker does not compare). *)
Definition AOTtoAOTDL_spec (aop : AOTElt) : X86AOTDL :=
  match aop with
  | OAL => Exact (Gb Al)
  | OEb => RegOrMem (Some (Gb Al)) (Some Mb)
  | OEv => SizePrefix (RegOrMem (Some (Gw Ax)) (Some Mw))
                      (RegOrMem (Some (Gd Eax)) (Some Md))
  | OGb => GPart (Gb Al)
  | OGv => SizePrefix (GPart (Gw Ax)) (GPart (Gd Eax))
  | OIb => ImmEnc (Ib 0)
  | OIw => ImmEnc (Iw 0)
  | OIz => SizePrefix (ImmEnc (Iw 0)) (ImmEnc (Id 0))
  | OIbv => SizePrefix (SignedImm (Iw 0)) (SignedImm (Id 0))
  | OJz => ImmEnc (JccTarget 0 0)
  | OMd => RegOrMem None (Some Md)
  | OMw => RegOrMem None (Some Mw)
  | OFPEnv | OFPEnvLow | OSimdState => RegOrMem None (Some Mb)
  | OrAX => SizePrefix (Exact (Gw Ax)) (Exact (Gd Eax))
  end.

(** The source as it is: every exercise raises [ExerciseError]. *)
Definition as_shipped : Setting :=
  {| solved := false; AOTtoAOTDL := AOTtoAOTDL_spec |}.

(** The source with the exercises written as their docstrings say. *)
Definition exercises_done : Setting :=
  {| solved := true; AOTtoAOTDL := AOTtoAOTDL_spec |}.

Record ModRMFields : Type := mkModRM {
  MOD : Z;
  GGG : Z;
  RM : Z
}.

(** Modelled from the spec: the register-direct part of [X86ModRM], which
    is not among the sources.  ModR/M is the byte [MOD|REG|R/M]; a register
    operand has [MOD=11] and [R/M] its ordinal, and [GGG] carries the
    sub-opcode or the second register.  Memory forms ([EncodeFromParts])
    are not followed here. *)
Definition RegisterModRM : ModRMCodec :=
  {| ModRM := ModRMFields;
     ModRM16 := {| MOD := 0; GGG := 0; RM := 0 |};
     ModRM32 := {| MOD := 0; GGG := 0; RM := 0 |};
     set_MOD := fun v m => {| MOD := v; GGG := GGG m; RM := RM m |};
     set_GGG := fun v m => {| MOD := MOD m; GGG := v; RM := RM m |};
     set_RM := fun v m => {| MOD := MOD m; GGG := GGG m; RM := v |};
     EncodeFromParts16 := fun _ _ _ _ => Raise (Unmodelled "ModRM16.EncodeFromParts");
     EncodeFromParts32 := fun _ _ _ _ _ => Raise (Unmodelled "ModRM32.EncodeFromParts");
     Encode := fun m =>
       Ok [Z.lor (Z.lor (Z.shiftl (MOD m) 6) (Z.shiftl (GGG m) 3)) (RM m)] |}.

(* ===================================================================== *)
(** * Vocabulary of the properties *)
(* ===================================================================== *)

(** A value that fits in eight bits. *)
Definition is_byte (b : Z) : Prop := 0 <= b < 256.

(** The number a list of bytes stands for, the first byte being the least
    significant. *)
Fixpoint le_value (bs : list Z) : Z :=
  match bs with
  | [] => 0
  | b :: bs' => b + 2 ^ 8 * le_value bs'
  end.

(** A read composed of [n] calls of [Byte]: the little-endian value of the
    bytes when all calls returned, the exception of the call that raised
    otherwise, and the stream as the last call left it. *)
Definition read_le (n : nat) (s : ByteStream.StreamObj)
    : res Z * ByteStream.StreamObj :=
  let '(bs, r, s') := ByteStream.Byte_calls n s in
  (match r with Ok _ => Ok (le_value bs) | Raise e => Raise e end, s').

(** A displacement that its memory class can hold: absent, or within the
    mask. *)
Definition disp_in_range (disp : option Z) (mask : Z) : Prop :=
  match disp with
  | None => True
  | Some d => 0 <= d <= mask
  end.

(** The two answers of the type checker: [None] (no match) and a
    [TypeCheckInfo] (match). *)
Definition rejects (r : res (option TypeChecker.TypeCheckInfo)) : Prop :=
  r = Ok None.

Definition matches (r : res (option TypeChecker.TypeCheckInfo)) : Prop :=
  exists ti, r = Ok (Some ti).

(** The values one field takes over the operands of a tuple, [None] where
    an operand does not constrain the field.  No operand constrains it;
    two operands report different values in it; the field of the reduced
    info [r] is unset if no operand constrained it and is the value the
    constraining operands report. *)
Definition unconstrained {A} (vals : list (option A)) : Prop :=
  forall v, In v vals -> v = None.

Definition conflict {A} (vals : list (option A)) : Prop :=
  exists x y, In (Some x) vals /\ In (Some y) vals /\ x <> y.

Definition field_reduced {A} (vals : list (option A)) (r : option A) : Prop :=
  (unconstrained vals -> r = None) /\
  (forall x, In (Some x) vals -> r = Some x).

(** The per-operand infos of a tuple: [tis] holds what [check] returns at
    each operand position. *)
Definition operand_infos `{Setting} (aops : list AOTElt) (ops : list Operand)
    (tis : list TypeChecker.TypeCheckInfo) : Prop :=
  Forall2 (fun p ti => TypeChecker.check (fst p) (snd p) = Ok (Some ti))
          (combine aops ops) tis.

(** The value range of the sign-extended imm8 forms: [0,0x7F] and the top
    [0x80] values below [width]. *)
Definition sign_extended_byte (width v : Z) : Prop :=
  0 <= v <= 0x7F \/ width - 0x80 <= v <= width - 1.

(** [reduce_typeinfo] folded over the infos that follow the first one, as
    the loop of [TypeCheckInstruction_exn] does with [last_ti]. *)
Fixpoint reduce_list (l : TypeChecker.TypeCheckInfo)
    (tis : list TypeChecker.TypeCheckInfo) : res TypeChecker.TypeCheckInfo :=
  match tis with
  | [] => Ok l
  | t :: tis' =>
      (l' <- TypeChecker.reduce_typeinfo l t ;; reduce_list l' tis')%res
  end.

(** What the visits of the encoder leave alone: the stem, the group 1
    prefix, the segment and address prefixes and the address. *)
Definition same_frame `{ModRMCodec} (s s' : Encoder.X86Encoder) : Prop :=
  Encoder.stem s' = Encoder.stem s
  /\ Encoder.group1pfx s' = Encoder.group1pfx s
  /\ Encoder.segpfx s' = Encoder.segpfx s
  /\ Encoder.addrpfx s' = Encoder.addrpfx s
  /\ Encoder.addr s' = Encoder.addr s.

(** The displacement of a jump target as the specification words it:
    [(taken - (addr + L)) mod 2^32], [L] being one byte for each required
    prefix (segment, address-size, operand-size), the stem length and the
    width of the emitted immediate, which is 2 bytes when the address-size
    prefix is required and 4 bytes otherwise; emitted little-endian at
    that width. *)
Definition specified_Jcc_width `{ModRMCodec} (s : Encoder.X86Encoder) : nat :=
  if Encoder.addrpfx s then 2%nat else 4%nat.

Definition specified_Jcc_length `{ModRMCodec} (s : Encoder.X86Encoder) : Z :=
  (match Encoder.segpfx s with Some _ => 1 | None => 0 end)
  + (if Encoder.addrpfx s then 1 else 0)
  + (if Encoder.sizepfx s then 1 else 0)
  + Z.of_nat (List.length (Encoder.stem s))
  + Z.of_nat (specified_Jcc_width s).

Definition specified_Jcc_bytes `{ModRMCodec} (taken : Z)
    (s : Encoder.X86Encoder) : list Z :=
  little_endian_bytes
    ((taken - (Encoder.addr s + specified_Jcc_length s)) mod 2 ^ 32)
    (specified_Jcc_width s).

(** The field of [t1] after [opcheck]: the first of the two values that is
    not [None]. *)
Definition merged {A} (a b : option A) : option A :=
  match a with None => b | Some _ => a end.

Definition compatible {A} (a b : option A) : Prop :=
  forall x y, a = Some x -> b = Some y -> x = y.

Definition is_X86TypeCheckError (e : exn) : Prop :=
  match e with X86TypeCheckError _ => True | _ => False end.

(** Instructions the theorems are run on: [ADD EBX, 5] with a 32-bit
    immediate, [ADD BX, 1234h] with a 16-bit one, and [JMP taken]. *)
Definition Add_Ebx_5 : Instruction :=
  {| prefixes := []; mnem := Add; operands := [Gd Ebx; Id 5] |}.

Definition Add_Bx_0x1234 : Instruction :=
  {| prefixes := []; mnem := Add; operands := [Gw Bx; Iw 0x1234] |}.

Definition Jmp_to (taken : Z) : Instruction :=
  {| prefixes := []; mnem := Jmp; operands := [JccTarget taken 0] |}.


(** The stream [s] with its position moved to [p]. *)
Definition at_pos (s : ByteStream.StreamObj) (p : Z) : ByteStream.StreamObj :=
  {| ByteStream.bytes := ByteStream.bytes s; ByteStream.pos := p;
     ByteStream.origpos := ByteStream.origpos s |}.

(** The number of bytes consumed since the last [SetPos]. *)
Definition consumed (s : ByteStream.StreamObj) : Z :=
  ByteStream.pos s - ByteStream.origpos s.

(** An exception that comes from a body left as an exercise. *)
Definition from_exercise `{Setting} (e : exn) : Prop :=
  solved = false /\ exists str, e = ExerciseError str.

(** Where a relative jump encoded as [bs] at address [a] continues when
    it is taken: the address after the instruction plus the displacement,
    which is the last four bytes of [bs], modulo [2^32]. *)
Definition decoded_target (a : Z) (bs : list Z) : Z :=
  (a + Z.of_nat (List.length bs)
   + le_value (skipn (List.length bs - 4) bs)) mod 2 ^ 32.

(** An encoder object with another address, and an instruction none of
    whose operands is a jump target. *)
Definition with_addr `{ModRMCodec} (s : Encoder.X86Encoder) (a : Z)
    : Encoder.X86Encoder :=
  {| Encoder.group1pfx := Encoder.group1pfx s; Encoder.stem := Encoder.stem s;
     Encoder.segpfx := Encoder.segpfx s; Encoder.addrpfx := Encoder.addrpfx s;
     Encoder.sizepfx := Encoder.sizepfx s;
     Encoder.immediates := Encoder.immediates s;
     Encoder._modrm := Encoder._modrm s; Encoder.addr := a |}.

Definition no_jump_target (instr : Instruction) : Prop :=
  Forall (fun op => is_JccTarget op = false) (operands instr).

(** A value of [bits] bits read as a signed number and written on [to]
    bits. *)
Definition sign_extend (bits to x : Z) : Z :=
  if x <? 2 ^ (bits - 1) then x else x + (2 ^ to - 2 ^ bits).

(** The immediate operand [op] stands for the 32-bit value [v]: its value
    is [v], or [v] is its sign extension to 16 or to 32 bits. *)
Definition stands_for (op : Operand) (v : Z) : Prop :=
  match op with
  | Id x => x = v
  | Iw x => 0 <= x <= 0xFFFF /\ (x = v \/ sign_extend 16 32 x = v)
  | Ib x => 0 <= x <= 0xFF
            /\ (x = v \/ sign_extend 8 16 x = v \/ sign_extend 8 32 x = v)
  | _ => False
  end.

(** Reading a string of hexadecimal digits, the letters in upper case;
    and the test for a decimal digit. *)
Definition hex_digit_value (c : ascii) : option Z :=
  let n := Z.of_nat (nat_of_ascii c) in
  if (48 <=? n) && (n <=? 57) then Some (n - 48)
  else if (65 <=? n) && (n <=? 70) then Some (n - 55)
  else None.

Definition hex_step (acc : option Z) (c : ascii) : option Z :=
  match acc, hex_digit_value c with
  | Some n, Some d => Some (16 * n + d)
  | _, _ => None
  end.

Definition hex_value (s : list ascii) : option Z :=
  fold_left hex_step s (Some 0).

Definition is_decimal_digit (c : ascii) : bool :=
  Hexify.ascii_leb "0" c && Hexify.ascii_leb c "9".

(** A description of an immediate: [ImmEnc] or [SignedImm], possibly
    under prefix choices; and a description of a register or of a
    register or memory location: [GPart] with a register archetype or
    [RegOrMem] with a register archetype or none, possibly under prefix
    choices. *)
Fixpoint immediate_description (enc : X86AOTDL) : bool :=
  match enc with
  | ImmEnc _ | SignedImm _ => true
  | SizePrefix yes no | AddrPrefix yes no =>
      immediate_description yes && immediate_description no
  | _ => false
  end.

Fixpoint register_description (enc : X86AOTDL) : bool :=
  match enc with
  | GPart a => is_Register a
  | RegOrMem (Some r) _ => is_Register r
  | RegOrMem None _ => true
  | SizePrefix yes no | AddrPrefix yes no =>
      register_description yes && register_description no
  | _ => false
  end.

(** The entry a group 1 prefix selects in an [SSE] entry: [rep] for [REP]
    and [repne] for [REPNE] when the entry is valid, none otherwise; and
    the entry used without a group 1 prefix. *)
Definition selects (p : PF1Elt) (rep repne : DecodeTable.X86DECDL)
    : option DecodeTable.X86DECDL :=
  match p with
  | REP => if DecodeTable.is_InvalidEntry rep then None else Some rep
  | REPNE => if DecodeTable.is_InvalidEntry repne then None else Some repne
  | LOCK => None
  end.

Definition unprefixed_entry (no size : DecodeTable.X86DECDL)
    (d : DecodeTable.X86Decoder) : DecodeTable.X86DECDL :=
  if DecodeTable.sizepfx d && negb (DecodeTable.is_InvalidEntry size)
  then size else no.

(** A description of a jump target, and an instruction with other
    prefixes. *)
Definition jump_description (enc : X86AOTDL) : Prop :=
  exists z1 z2,
    enc = ImmEnc (JccTarget z1 z2) \/ enc = SignedImm (JccTarget z1 z2).


(** A method of the ModRM classes raises [e] on some call. *)
Definition ModRM_raises `{ModRMCodec} (e : exn) : Prop :=
  (exists b i d m, EncodeFromParts16 b i d m = Raise e)
  \/ (exists b i sc d m, EncodeFromParts32 b i sc d m = Raise e)
  \/ (exists m, Encode m = Raise e).

(** What decoding an entry may leave of a decoder [d]: the prefix flags
    as they were; the stack of group 1 prefixes as it was, or emptied
    when it was not empty; a ModRM that was held, with the stream where
    it was; and, with the exercises as shipped, the ModRM and the stream
    as they were. *)
Definition kept `{Setting} (d d' : DecodeTable.X86Decoder) : Prop :=
  DecodeTable.sizepfx d' = DecodeTable.sizepfx d
  /\ DecodeTable.addrpfx d' = DecodeTable.addrpfx d
  /\ (DecodeTable.group1pfx d' = DecodeTable.group1pfx d
      \/ (DecodeTable.group1pfx d' = [] /\ DecodeTable.group1pfx d <> []))
  /\ (forall m, DecodeTable.modrm d = Some m ->
        DecodeTable.modrm d' = Some m
        /\ DecodeTable.stream d' = DecodeTable.stream d)
  /\ (solved = false ->
      DecodeTable.modrm d' = DecodeTable.modrm d
      /\ DecodeTable.stream d' = DecodeTable.stream d).

(* ===================================================================== *)
(** * The byte stream: the length cap and the little-endian reads *)
(* ===================================================================== *)

Module ByteStreamFacts.
Import ByteStream.

Lemma land_shiftl_low (a b n : Z) :
  0 <= n -> 0 <= b < 2 ^ n -> Z.land (Z.shiftl a n) b = 0.
Proof.
  intros Hn Hb. apply Z.bits_inj'. intros i Hi.
  rewrite Z.land_spec, Z.bits_0.
  destruct (Z.ltb_spec i n) as [Hlt | Hge].
  - rewrite Z.shiftl_spec_low by lia. reflexivity.
  - assert (Z.testbit b i = false) as ->.
    { destruct (Z.eq_dec b 0) as [-> | Hne]; [apply Z.bits_0 |].
      apply Z.bits_above_log2; [lia |].
      apply Z.log2_lt_pow2; [lia |].
      apply Z.lt_le_trans with (2 ^ n); [lia |].
      apply Z.pow_le_mono_r; lia. }
    apply andb_false_r.
Qed.

Lemma lor_shiftl_add (a b n : Z) :
  0 <= n -> 0 <= b < 2 ^ n -> Z.lor (Z.shiftl a n) b = b + 2 ^ n * a.
Proof.
  intros Hn Hb.
  pose proof (Z.add_lor_land (Z.shiftl a n) b) as E.
  rewrite (land_shiftl_low a Hn Hb), Z.add_0_r in E.
  rewrite E, Z.shiftl_mul_pow2 by lia. lia.
Qed.

(** X2: [Byte] raises [InvalidInstruction] exactly when sixteen bytes or
    more were read since the last [SetPos]. *)
Theorem Byte_raises_iff (s : StreamObj) :
  fst (Byte s) = Raise InvalidInstruction <-> 16 <= pos s - origpos s.
Proof.
  unfold Byte, bind, GetByteInternal.
  destruct (Z.geb_spec (pos s - origpos s) 16) as [H | H]; simpl.
  - split; [lia | reflexivity].
  - split; [| lia].
    unfold py_index.
    destruct (_ || _); simpl; [discriminate |].
    destruct (nth_error _ _); simpl; discriminate.
Qed.

(** A read inside the list and below the cap returns the byte at [pos]
    and advances [pos] by one. *)
Lemma Byte_reads (s : StreamObj) (b : Z) :
  pos s - origpos s < 16 -> 0 <= pos s ->
  nth_error (bytes s) (Z.to_nat (pos s)) = Some b ->
  Byte s = (Ok b, {| bytes := bytes s; pos := pos s + 1; origpos := origpos s |}).
Proof.
  intros Hcap Hpos Hnth.
  unfold Byte, bind, GetByteInternal, py_index.
  destruct (Z.geb_spec (pos s - origpos s) 16); [lia |].
  destruct (Z.ltb_spec (pos s) 0); [lia |].
  assert (Hlen : (Z.to_nat (pos s) < List.length (bytes s))%nat).
  { apply nth_error_Some. rewrite Hnth. discriminate. }
  destruct (Z.ltb_spec (pos s) 0); [lia |].
  destruct (Z.leb_spec (Z.of_nat (List.length (bytes s))) (pos s)); [lia |].
  simpl. rewrite Hnth. reflexivity.
Qed.

(** After [SetPos ea] on a stream that holds at least seventeen bytes
    from [ea] on, sixteen calls of [Byte] return bytes and only the
    seventeenth raises [InvalidInstruction]. *)
Lemma Byte_calls_below_cap (n : nat) (s : StreamObj) :
  0 <= pos s ->
  pos s - origpos s + Z.of_nat n <= 16 ->
  pos s + Z.of_nat n <= Z.of_nat (List.length (bytes s)) ->
  Byte_calls n s =
    (firstn n (skipn (Z.to_nat (pos s)) (bytes s)), Ok tt,
     {| bytes := bytes s; pos := pos s + Z.of_nat n; origpos := origpos s |}).
Proof.
  revert s. induction n as [| n IH]; intros s Hpos Hcap Hlen.
  - simpl. rewrite Z.add_0_r. destruct s; reflexivity.
  - destruct (nth_error (bytes s) (Z.to_nat (pos s))) as [b |] eqn:Hnth.
    2:{ apply nth_error_None in Hnth. lia. }
    cbn [Byte_calls]. rewrite (Byte_reads s) with (b := b) by (auto; lia).
    rewrite IH; cbn [bytes pos origpos]; try lia.
    replace (Z.to_nat (pos s + 1)) with (S (Z.to_nat (pos s))) by lia.
    replace (pos s + 1 + Z.of_nat n) with (pos s + Z.of_nat (S n)) by lia.
    f_equal. f_equal.
    clear - Hnth. revert Hnth. generalize (Z.to_nat (pos s)) as k.
    generalize (bytes s) as l. induction l as [| x l IHl]; intros [| k] Hk;
      simpl in *; try discriminate.
    + injection Hk as ->. reflexivity.
    + apply IHl in Hk. exact Hk.
Qed.

Lemma Byte_Ok_inv (s s' : StreamObj) (b : Z) :
  Byte s = (Ok b, s') -> In b (bytes s) /\ bytes s' = bytes s.
Proof.
  unfold Byte, bind, GetByteInternal, py_index.
  destruct (_ >=? _); [discriminate |].
  destruct (_ || _); [discriminate |].
  destruct (nth_error _ _) as [x |] eqn:Hnth; [| discriminate].
  intros E. injection E as <- <-. split; [| reflexivity].
  eapply nth_error_In. exact Hnth.
Qed.

(** C2, at a stream of seventeen bytes: after [SetPos 0], sixteen calls
    of [Byte] return the first sixteen bytes, so the call that reads the
    sixteenth byte does not raise; the first call to raise
    [InvalidInstruction] is the seventeenth. *)
Theorem Byte_sixteenth_read_returns :
  Byte_calls 16 (snd (SetPos 0 (new (repeat 0x90 17%nat)))) =
    (repeat 0x90 16%nat, Ok tt,
     {| bytes := repeat 0x90 17%nat; pos := 16; origpos := 0 |})
  /\ Byte_calls 17 (snd (SetPos 0 (new (repeat 0x90 17%nat)))) =
    (repeat 0x90 16%nat, Raise InvalidInstruction,
     {| bytes := repeat 0x90 17%nat; pos := 16; origpos := 0 |}).
Proof. split; vm_compute; reflexivity. Qed.

(** The same for every stream and every position [ea] inside it: with
    sixteen bytes available from [ea], all sixteen reads return. *)
Lemma sixteen_reads_after_SetPos (bs : list Z) (ea : Z) :
  0 <= ea -> ea + 16 <= Z.of_nat (List.length bs) ->
  Byte_calls 16 (snd (SetPos ea (new bs))) =
    (firstn 16 (skipn (Z.to_nat ea) bs), Ok tt,
     {| bytes := bs; pos := ea + 16; origpos := ea |}).
Proof.
  intros H0 Hlen.
  rewrite Byte_calls_below_cap; cbn [SetPos new snd bytes pos origpos]; try lia.
  reflexivity.
Qed.

Lemma Byte_calls_Ok (n : nat) (s s' : StreamObj) (bs : list Z) :
  Forall is_byte (bytes s) ->
  Byte_calls n s = (bs, Ok tt, s') ->
  Forall is_byte bs /\ List.length bs = n.
Proof.
  revert s bs. induction n as [| n IH]; intros s bs Hall E; cbn [Byte_calls] in E.
  - injection E as <- <-. split; [constructor | reflexivity].
  - destruct (Byte s) as [[b | e] s1] eqn:Eb; [| discriminate].
    apply Byte_Ok_inv in Eb as [Hin Hbs].
    destruct (Byte_calls n s1) as [[bs1 r1] s2] eqn:E1.
    injection E as <- -> <-.
    rewrite <- Hbs in Hall. destruct (IH _ _ Hall E1) as [Hf Hl].
    rewrite Hbs in Hall. rewrite Forall_forall in Hall.
    split; [constructor; auto | simpl; congruence].
Qed.

Lemma le_value_bound (bs : list Z) :
  Forall is_byte bs -> 0 <= le_value bs < 2 ^ (8 * Z.of_nat (List.length bs)).
Proof.
  induction 1 as [| b bs Hb _ IH]; cbn [le_value List.length]; [lia |].
  replace (8 * Z.of_nat (S (List.length bs)))
    with (8 + 8 * Z.of_nat (List.length bs)) by lia.
  rewrite Z.pow_add_r by lia. unfold is_byte in Hb. nia.
Qed.

Lemma read_le_bound (n : nat) (s s' : StreamObj) (v : Z) :
  Forall is_byte (bytes s) ->
  read_le n s = (Ok v, s') -> 0 <= v < 2 ^ (8 * Z.of_nat n).
Proof.
  intros Hall. unfold read_le.
  destruct (Byte_calls n s) as [[bs r] s1] eqn:E.
  destruct r as [[] | e]; [| discriminate].
  intros R. injection R as <- <-.
  destruct (Byte_calls_Ok _ _ Hall E) as [Hf <-].
  apply le_value_bound. exact Hf.
Qed.

(** C9: for every stream of bytes, [Word] is two calls of [Byte] and
    [Dword] is four: the result is the little-endian value of the bytes
    read (the first byte read is the low byte), a 16-bit value for [Word]
    and a 32-bit value for [Dword]; an exception of [Byte] is the
    exception of the read, and the stream is left as the calls of [Byte]
    leave it. *)
Theorem Word_Dword_little_endian (s : StreamObj) :
  Forall is_byte (bytes s) ->
  Word s = read_le 2 s /\ Dword s = read_le 4 s
  /\ (forall v s', Word s = (Ok v, s') -> 0 <= v < 2 ^ 16)
  /\ (forall v s', Dword s = (Ok v, s') -> 0 <= v < 2 ^ 32).
Proof.
  intros Hall.
  assert (Hb : forall t t' b, bytes t = bytes s -> Byte t = (Ok b, t') ->
                 is_byte b /\ bytes t' = bytes s).
  { intros t t' b Ht E. apply Byte_Ok_inv in E as [Hin Hbs].
    rewrite Ht in Hin, Hbs. split; [| exact Hbs].
    rewrite Forall_forall in Hall. auto. }
  assert (HW : forall t, bytes t = bytes s -> Word t = read_le 2 t).
  { intros t Ht. unfold Word, read_le, bind, ret. cbn [Byte_calls].
    destruct (Byte t) as [[b0 | e0] t1] eqn:E0; [| reflexivity].
    destruct (Hb _ _ _ Ht E0) as [Hb0 Ht1].
    destruct (Byte t1) as [[b1 | e1] t2] eqn:E1; [| reflexivity].
    cbn [le_value]. rewrite lor_shiftl_add by (unfold is_byte in *; lia).
    do 2 f_equal. lia. }
  assert (HD : Dword s = read_le 4 s).
  { unfold Dword, bind, ret. rewrite (HW s eq_refl).
    unfold read_le. cbn [Byte_calls].
    destruct (Byte s) as [[b0 | e0] s1] eqn:E0; [| reflexivity].
    destruct (Hb _ _ _ eq_refl E0) as [Hb0 Hs1].
    destruct (Byte s1) as [[b1 | e1] s2] eqn:E1; [| reflexivity].
    destruct (Hb _ _ _ Hs1 E1) as [Hb1 Hs2].
    rewrite (HW s2 Hs2). unfold read_le. cbn [Byte_calls].
    destruct (Byte s2) as [[b2 | e2] s3] eqn:E2; [| reflexivity].
    destruct (Hb _ _ _ Hs2 E2) as [Hb2 Hs3].
    destruct (Byte s3) as [[b3 | e3] s4] eqn:E3; [| reflexivity].
    destruct (Hb _ _ _ Hs3 E3) as [Hb3 Hs4].
    cbn [le_value].
    rewrite lor_shiftl_add by (unfold is_byte in *; lia).
    do 2 f_equal. lia. }
  split; [apply HW; reflexivity |]. split; [exact HD |]. split.
  - intros v s' E. rewrite (HW s eq_refl) in E.
    apply (read_le_bound 2 s Hall E).
  - intros v s' E. rewrite HD in E. apply (read_le_bound 4 s Hall E).
Qed.

Lemma Word_Dword_little_endian_witness :
  Forall is_byte [0x78; 0x56; 0x34; 0x12]
  /\ Word (new [0x78; 0x56; 0x34; 0x12]) =
       (Ok 0x5678, {| bytes := [0x78; 0x56; 0x34; 0x12]; pos := 2; origpos := 0 |})
  /\ Dword (new [0x78; 0x56; 0x34; 0x12]) =
       (Ok 0x12345678,
        {| bytes := [0x78; 0x56; 0x34; 0x12]; pos := 4; origpos := 0 |}).
Proof.
  assert (H : Forall is_byte (bytes (new [0x78; 0x56; 0x34; 0x12]))).
  { repeat constructor; unfold is_byte; lia. }
  split; [exact H |].
  destruct (Word_Dword_little_endian (new [0x78; 0x56; 0x34; 0x12]) H)
    as (HW & HD & _).
  split; [rewrite HW | rewrite HD]; reflexivity.
Defined.

End ByteStreamFacts.

(* ===================================================================== *)
(** * Operands: the displacement of a memory expression *)
(* ===================================================================== *)

Module OperandFacts.



(** The Python constructors of the immediates build guarded operands. *)
Lemma new_immediates_guarded (v : Z) :
  guarded (new_Ib v) = true /\ guarded (new_Iw v) = true
  /\ guarded (new_Id v) = true.
Proof.
  unfold new_Ib, new_Iw, new_Id, Immediate_init, GuardedInteger, guarded.
  change 0xFF with (Z.ones 8). change 0xFFFF with (Z.ones 16).
  change 0xFFFFFFFF with (Z.ones 32).
  rewrite !Z.land_ones by lia. rewrite !Z.ones_equiv.
  pose proof (Z.mod_pos_bound v (2 ^ 8) ltac:(lia)).
  pose proof (Z.mod_pos_bound v (2 ^ 16) ltac:(lia)).
  pose proof (Z.mod_pos_bound v (2 ^ 32) ltac:(lia)).
  repeat split; apply andb_true_iff; split; apply Z.leb_le; lia.
Qed.





End OperandFacts.

(* ===================================================================== *)
(** * The type checker *)
(* ===================================================================== *)

Module TypeCheckerFacts.
Import TypeChecker.

Section Facts.
Context `{Setting}.

Lemma exercise_solved {A} (str : string) (body : res A) :
  solved = true -> exercise str body = body.
Proof. unfold exercise. intros ->. reflexivity. Qed.

Lemma exercise_not_rejects (str : string) (t : TypeCheckInfo) :
  ~ rejects (exercise str (Ok (Some t))).
Proof. unfold rejects, exercise. destruct solved; discriminate. Qed.

Lemma exercise_matches_iff (str : string) (t : TypeCheckInfo) :
  solved = true -> matches (exercise str (Ok (Some t))).
Proof. intros Hs. rewrite exercise_solved by exact Hs. exists t. reflexivity. Qed.

Lemma not_matches_None : ~ matches (Ok None).
Proof. intros [ti E]. discriminate. Qed.

(** ** Sign-extended immediates *)

Lemma SignExtImm_Iw_cases (op : Operand) :
  guarded op = true ->
  ((exists v, op = Iw v /\ sign_extended_byte 0x10000 v)
   /\ visit_SignExtImm_Iw op
      = exercise "X86TypeChecker::visit_SignExtImm_Iw" (Ok (Some MATCHES)))
  \/ (~ (exists v, op = Iw v /\ sign_extended_byte 0x10000 v)
      /\ visit_SignExtImm_Iw op = Ok None).
Proof.
  intros G.
  destruct op; try (right; split; [intros (v & E & _); discriminate | reflexivity]).
  simpl in G. apply andb_true_iff in G as [G0 G1].
  apply Z.leb_le in G0, G1. unfold visit_SignExtImm_Iw.
  destruct ((value <? 0x80) || (value >=? 0xFF80)) eqn:C.
  - left. split; [| reflexivity]. exists value. split; [reflexivity |].
    unfold sign_extended_byte. apply orb_true_iff in C as [C | C].
    + apply Z.ltb_lt in C. lia.
    + apply Z.geb_le in C. lia.
  - right. split; [| reflexivity]. intros (v & E & R). injection E as <-.
    apply orb_false_iff in C as [C0 C1].
    apply Z.ltb_ge in C0. rewrite Z.geb_leb in C1. apply Z.leb_gt in C1.
    unfold sign_extended_byte in R. lia.
Qed.

Lemma SignExtImm_Id_cases (op : Operand) :
  guarded op = true ->
  ((exists v, op = Id v /\ sign_extended_byte 0x100000000 v)
   /\ visit_SignExtImm_Id op
      = exercise "X86TypeChecker::visit_SignExtImm_Id" (Ok (Some MATCHES)))
  \/ (~ (exists v, op = Id v /\ sign_extended_byte 0x100000000 v)
      /\ visit_SignExtImm_Id op = Ok None).
Proof.
  intros G.
  destruct op; try (right; split; [intros (v & E & _); discriminate | reflexivity]).
  simpl in G. apply andb_true_iff in G as [G0 G1].
  apply Z.leb_le in G0, G1. unfold visit_SignExtImm_Id.
  destruct ((value <? 0x80) || (value >=? 0xFFFFFF80)) eqn:C.
  - left. split; [| reflexivity]. exists value. split; [reflexivity |].
    unfold sign_extended_byte. apply orb_true_iff in C as [C | C].
    + apply Z.ltb_lt in C. lia.
    + apply Z.geb_le in C. lia.
  - right. split; [| reflexivity]. intros (v & E & R). injection E as <-.
    apply orb_false_iff in C as [C0 C1].
    apply Z.ltb_ge in C0. rewrite Z.geb_leb in C1. apply Z.leb_gt in C1.
    unfold sign_extended_byte in R. lia.
Qed.

(** C7: against [SignedImm] of archetype [Iw] (resp. [Id]) the type
    checker matches an operand iff it is an [Iw] (resp. [Id]) whose value
    lies in [0,0x7F] or in [width-0x80, width-1]; otherwise it answers
    [None].  The answer [None] is characterised whether or not the
    exercises are written; the match is the answer once they are. *)
Theorem SignedImm_matches_iff (check_sizes : bool) (op : Operand) (z : Z) :
  guarded op = true ->
  (rejects (visit check_sizes op (SignedImm (Iw z)))
     <-> ~ (exists v, op = Iw v /\ sign_extended_byte 0x10000 v))
  /\ (rejects (visit check_sizes op (SignedImm (Id z)))
     <-> ~ (exists v, op = Id v /\ sign_extended_byte 0x100000000 v))
  /\ (solved = true ->
      (matches (visit check_sizes op (SignedImm (Iw z)))
         <-> exists v, op = Iw v /\ (0 <= v <= 0x7F \/ 0xFF80 <= v <= 0xFFFF))
      /\ (matches (visit check_sizes op (SignedImm (Id z)))
         <-> exists v, op = Id v
               /\ (0 <= v <= 0x7F \/ 0xFFFFFF80 <= v <= 0xFFFFFFFF))).
Proof.
  intros G. cbn [visit].
  destruct (SignExtImm_Iw_cases op G) as [[Hw Ew] | [Hw Ew]];
  destruct (SignExtImm_Id_cases op G) as [[Hd Ed] | [Hd Ed]];
  rewrite Ew, Ed.
  all: repeat split; intros; try reflexivity; try assumption;
    try (exfalso; eapply exercise_not_rejects; eassumption);
    try (exfalso; eapply not_matches_None; eassumption);
    try (apply exercise_matches_iff; assumption);
    try tauto.
Qed.

(** ** Size-lenient abstract operand types *)

Lemma in_lenient_sizes_iff (aop : AOTElt) :
  in_lenient_sizes aop = true <-> In aop [OFPEnv; OFPEnvLow; OSimdState].
Proof.
  unfold in_lenient_sizes, lenient_sizes.
  destruct (in_dec AOTElt_eq_dec aop _) as [Hin | Hout]; split; intros;
    try assumption; try reflexivity; try discriminate; contradiction.
Qed.

Lemma memory_never_a_register (op r : Operand) :
  is_MemExpr op = true -> is_Register r = true -> same_type op r = false.
Proof.
  destruct op; try discriminate; destruct r; try discriminate; reflexivity.
Qed.

Lemma MSElt_eqb_eq (a b : MSElt) : MSElt_eqb a b = true <-> a = b.
Proof.
  unfold MSElt_eqb. destruct (MSElt_eq_dec a b); split; intros;
    try assumption; try reflexivity; try discriminate; contradiction.
Qed.

(** What [visit_RegOrMem] answers to a memory operand when the register
    archetype, if any, is a register. *)
Lemma visit_RegOrMem_memory (check_sizes : bool) (op : Operand)
    (reg : option Operand) (ms : MSElt) :
  (forall r, reg = Some r -> is_Register r = true) ->
  is_MemExpr op = true ->
  exists sz, size_of op = Some sz /\
    visit_RegOrMem check_sizes op reg (Some ms) =
      if MSElt_eqb ms sz || negb check_sizes then
        exercise "X86TypeChecker::visit_RegOrMem:Memory:Segment"
          (Ok (Some (memory_overrides op)))
      else Ok None.
Proof.
  intros Hreg Hmem. unfold visit_RegOrMem.
  assert (match reg with Some r => same_type op r | None => false end = false)
    as ->.
  { destruct reg as [r |]; [| reflexivity].
    apply memory_never_a_register; auto. }
  destruct op; try discriminate; cbn [size_of]; eexists; split; reflexivity.
Qed.

(** C8: for [OFPEnv], [OFPEnvLow] and [OSimdState], [check] takes a memory
    operand of any size tag; for every other abstract operand type that is
    a [RegOrMem] with a memory size, a memory operand is taken only when
    its size tag is that memory size. *)
Theorem lenient_sizes_skip_comparison (aop : AOTElt) (op : Operand)
    (reg : option Operand) (ms : MSElt) :
  AOTtoAOTDL aop = RegOrMem reg (Some ms) ->
  (forall r, reg = Some r -> is_Register r = true) ->
  is_MemExpr op = true ->
  (In aop [OFPEnv; OFPEnvLow; OSimdState] ->
     ~ rejects (check aop op)
     /\ (solved = true -> check aop op = Ok (Some (memory_overrides op))))
  /\ (~ In aop [OFPEnv; OFPEnvLow; OSimdState] ->
     (rejects (check aop op) <-> size_of op <> Some ms)
     /\ (solved = true ->
         (matches (check aop op) <-> size_of op = Some ms))).
Proof.
  intros Htab Hreg Hmem. unfold check. rewrite Htab. cbn [visit].
  destruct (@visit_RegOrMem_memory (negb (in_lenient_sizes aop)) op reg ms Hreg Hmem)
    as (sz & Hsz & ->).
  rewrite Hsz.
  pose proof (in_lenient_sizes_iff aop) as Hl.
  destruct (in_lenient_sizes aop) eqn:L; cbn [negb].
  - rewrite orb_true_r. split.
    + intros _. split; [apply exercise_not_rejects |].
      intros Hs. apply exercise_solved. exact Hs.
    + intros N. exfalso. apply N. apply Hl. reflexivity.
  - rewrite orb_false_r. split.
    + intros Hin. apply Hl in Hin. discriminate.
    + intros _. pose proof (MSElt_eqb_eq ms sz) as He.
      destruct (MSElt_eqb ms sz).
      * assert (ms = sz) as -> by (apply He; reflexivity).
        split; [split; [intros R; exfalso; revert R; apply exercise_not_rejects
                       | intros N; contradiction N; reflexivity] |].
        intros Hs. split; [reflexivity | intros _; apply exercise_matches_iff; exact Hs].
      * assert (ms <> sz) by (intros E; apply He in E; discriminate).
        split; [split; [intros _ E; injection E as E; auto | reflexivity] |].
        intros _. split; [intros M; exfalso; revert M; apply not_matches_None |].
        intros E. injection E as E. exfalso. auto.
Qed.

(** ** Reduction of the per-operand infos *)

Lemma opcheck_Ok {A} (eqb : A -> A -> bool)
    (Heqb : forall x y, eqb x y = true <-> x = y)
    (a b : option A) (str : string) (c : option A) :
  opcheck eqb a b str = Ok c -> c = merged a b /\ compatible a b.
Proof.
  unfold opcheck, merged, compatible.
  destruct a as [x |], b as [y |]; try destruct (eqb x y) eqn:E;
    intros R; try discriminate; injection R as <-;
    (split; [reflexivity |]); intros x' y' Ea Eb; try discriminate.
  injection Ea as <-. injection Eb as <-. apply Heqb. exact E.
Qed.

Lemma opcheck_Raise {A} (eqb : A -> A -> bool)
    (Heqb : forall x y, eqb x y = true <-> x = y)
    (a b : option A) (str : string) (e : exn) :
  opcheck eqb a b str = Raise e ->
  is_X86TypeCheckError e /\ exists x y, a = Some x /\ b = Some y /\ x <> y.
Proof.
  unfold opcheck.
  destruct a as [x |], b as [y |]; try destruct (eqb x y) eqn:E;
    intros R; try discriminate; injection R as <-.
  split; [exact I |]. exists x, y. repeat split.
  intros ->. assert (eqb y y = true) by (apply Heqb; reflexivity). congruence.
Qed.

Lemma SegElt_eqb_eq (a b : SegElt) : SegElt_eqb a b = true <-> a = b.
Proof.
  unfold SegElt_eqb. destruct (SegElt_eq_dec a b); split; intros;
    try assumption; try reflexivity; try discriminate; contradiction.
Qed.

Lemma reduce_typeinfo_Ok (t1 t2 t : TypeCheckInfo) :
  reduce_typeinfo t1 t2 = Ok t ->
  (sizeo t = merged (sizeo t1) (sizeo t2) /\ compatible (sizeo t1) (sizeo t2))
  /\ (addro t = merged (addro t1) (addro t2) /\ compatible (addro t1) (addro t2))
  /\ (sego t = merged (sego t1) (sego t2) /\ compatible (sego t1) (sego t2)).
Proof.
  unfold reduce_typeinfo, res_bind.
  destruct (opcheck Bool.eqb _ _ _) as [so |] eqn:Es; [| discriminate].
  destruct (opcheck Bool.eqb (addro t1) _ _) as [ao |] eqn:Ea; [| discriminate].
  destruct (opcheck SegElt_eqb _ _ _) as [sg |] eqn:Eg; [| discriminate].
  intros R. injection R as <-. cbn [sizeo addro sego].
  apply (opcheck_Ok _ Bool.eqb_true_iff) in Es, Ea.
  apply (opcheck_Ok _ SegElt_eqb_eq) in Eg. auto.
Qed.

Lemma reduce_typeinfo_Raise (t1 t2 : TypeCheckInfo) (e : exn) :
  reduce_typeinfo t1 t2 = Raise e ->
  is_X86TypeCheckError e
  /\ (conflict [sizeo t1; sizeo t2] \/ conflict [addro t1; addro t2]
      \/ conflict [sego t1; sego t2]).
Proof.
  unfold reduce_typeinfo, res_bind, conflict.
  destruct (opcheck Bool.eqb _ _ _) as [so |] eqn:Es.
  2:{ intros R. injection R as <-.
      apply (opcheck_Raise _ Bool.eqb_true_iff) in Es as (He & x & y & -> & -> & N).
      split; [exact He |]. left. exists x, y. simpl. auto. }
  destruct (opcheck Bool.eqb (addro t1) _ _) as [ao |] eqn:Ea.
  2:{ intros R. injection R as <-.
      apply (opcheck_Raise _ Bool.eqb_true_iff) in Ea as (He & x & y & -> & -> & N).
      split; [exact He |]. right. left. exists x, y. simpl. auto. }
  destruct (opcheck SegElt_eqb _ _ _) as [sg |] eqn:Eg; [discriminate |].
  intros R. injection R as <-.
  apply (opcheck_Raise _ SegElt_eqb_eq) in Eg as (He & x & y & Ex & Ey & N).
  split; [exact He |]. right. right. exists x, y. rewrite Ex, Ey. simpl. auto.
Qed.

(** One step of the loop seen on one field: replacing the two first
    values by their merge keeps the constraints and the conflicts. *)
Lemma merged_keeps_Some {A} (a b : option A) (rest : list (option A)) (x : A) :
  compatible a b ->
  In (Some x) (a :: b :: rest) -> In (Some x) (merged a b :: rest).
Proof.
  intros Hc [-> | [-> | Hin]].
  - left. reflexivity.
  - destruct a as [y |]; [| left; reflexivity].
    left. simpl. f_equal. apply (Hc y x); reflexivity.
  - right. exact Hin.
Qed.

Lemma merged_is_old {A} (a b : option A) (rest : list (option A))
    (v : option A) :
  In v (merged a b :: rest) -> In v (a :: b :: rest).
Proof.
  intros [<- | Hin]; [| right; right; exact Hin].
  destruct a; simpl; auto.
Qed.

Lemma merged_step {A} (a b c : option A) (rest : list (option A))
    (r : option A) :
  c = merged a b -> compatible a b ->
  ~ conflict (c :: rest) /\ field_reduced (c :: rest) r ->
  ~ conflict (a :: b :: rest) /\ field_reduced (a :: b :: rest) r.
Proof.
  intros -> Hc [Hn [Hu Hs]]. split.
  - intros (x & y & Hx & Hy & N). apply Hn. exists x, y.
    repeat split; auto using merged_keeps_Some.
  - split.
    + intros U. apply Hu. intros v Hv. apply U. apply merged_is_old. exact Hv.
    + intros x Hx. apply Hs. apply merged_keeps_Some; assumption.
Qed.

Lemma conflict_step {A} (a b c : option A) (rest : list (option A)) :
  c = merged a b -> conflict (c :: rest) -> conflict (a :: b :: rest).
Proof.
  intros -> (x & y & Hx & Hy & N). exists x, y.
  repeat split; auto using merged_is_old.
Qed.

Lemma conflict_head {A} (a b : option A) (rest : list (option A)) :
  conflict [a; b] -> conflict (a :: b :: rest).
Proof.
  intros (x & y & Hx & Hy & N). exists x, y. simpl in *. intuition.
Qed.

Lemma single_reduced {A} (a : option A) :
  ~ conflict [a] /\ field_reduced [a] a.
Proof.
  split.
  - intros (x & y & [Hx | []] & [Hy | []] & N). congruence.
  - split.
    + intros U. apply U. left. reflexivity.
    + intros x [Hx | []]. exact Hx.
Qed.

Lemma reduce_list_Ok (tis : list TypeCheckInfo) (l t : TypeCheckInfo) :
  reduce_list l tis = Ok t ->
  (~ conflict (map sizeo (l :: tis))
   /\ field_reduced (map sizeo (l :: tis)) (sizeo t))
  /\ (~ conflict (map addro (l :: tis))
      /\ field_reduced (map addro (l :: tis)) (addro t))
  /\ (~ conflict (map sego (l :: tis))
      /\ field_reduced (map sego (l :: tis)) (sego t)).
Proof.
  revert l. induction tis as [| t1 tis IH]; intros l R.
  - injection R as <-. cbn [map]. auto using single_reduced.
  - cbn [reduce_list] in R. unfold res_bind in R.
    destruct (reduce_typeinfo l t1) as [l' |] eqn:E; [| discriminate].
    apply reduce_typeinfo_Ok in E as ((Es & Cs) & (Ea & Ca) & (Eg & Cg)).
    apply IH in R as (Rs & Ra & Rg). cbn [map] in *.
    repeat split; eapply merged_step; eauto.
Qed.

Lemma reduce_list_Raise (tis : list TypeCheckInfo) (l : TypeCheckInfo)
    (e : exn) :
  reduce_list l tis = Raise e ->
  is_X86TypeCheckError e
  /\ (conflict (map sizeo (l :: tis)) \/ conflict (map addro (l :: tis))
      \/ conflict (map sego (l :: tis))).
Proof.
  revert l. induction tis as [| t1 tis IH]; intros l R; [discriminate |].
  cbn [reduce_list] in R. unfold res_bind in R.
  destruct (reduce_typeinfo l t1) as [l' |] eqn:E.
  - apply reduce_typeinfo_Ok in E as ((Es & _) & (Ea & _) & (Eg & _)).
    apply IH in R as (He & C). split; [exact He |]. cbn [map] in *.
    destruct C as [C | [C | C]]; eauto using conflict_step.
  - injection R as <-.
    apply reduce_typeinfo_Raise in E as (He & C). split; [exact He |].
    cbn [map]. destruct C as [C | [C | C]]; auto using conflict_head.
Qed.

(** The loop, when [check] returns the infos [t0 :: tis] at the operand
    positions: it is the fold of [reduce_typeinfo]. *)
Lemma check_operands_reduce (aops : list AOTElt) (ops : list Operand)
    (tis : list TypeCheckInfo) (l : TypeCheckInfo) :
  List.length aops = List.length ops ->
  operand_infos aops ops tis ->
  check_operands aops ops (Some l)
  = (t <- reduce_list l tis ;; Ok (Some t))%res.
Proof.
  revert ops tis l.
  induction aops as [| aop aops IH]; intros [| op ops] tis l Hlen Hti;
    try discriminate; unfold operand_infos in Hti; cbn [combine] in Hti.
  - inversion Hti; subst. reflexivity.
  - inversion Hti as [| p t1 ps tis1 Hc Hrest]; subst.
    cbn [check_operands reduce_list fst snd] in *. rewrite Hc.
    unfold res_bind at 1.
    destruct (reduce_typeinfo l t1) as [l2 |]; cbn [res_bind]; [| reflexivity].
    apply IH; [simpl in Hlen; lia | exact Hrest].
Qed.

(** C6: the per-operand infos of a tuple are reduced field by field.
    When no field holds two different values, the reduced info has each
    field unset if no operand constrained it and equal to the value the
    constraining operands agree on otherwise, and the check returns the
    triple read off it; when some field holds two different values, the
    check returns no result. *)
Theorem typeinfo_reduced_fieldwise (instr : Instruction)
    (aops : list AOTElt) (tis : list TypeCheckInfo) :
  aops <> [] ->
  List.length aops = NumOps instr ->
  operand_infos aops (operands instr) tis ->
  (~ conflict (map sizeo tis) -> ~ conflict (map addro tis) ->
   ~ conflict (map sego tis) ->
   exists t,
     check_operands aops (operands instr) None = Ok (Some t)
     /\ field_reduced (map sizeo tis) (sizeo t)
     /\ field_reduced (map addro tis) (addro t)
     /\ field_reduced (map sego tis) (sego t)
     /\ TypeCheckInstruction_opt instr aops
        = Ok (Some (is_True (sizeo t), is_True (addro t), sego t)))
  /\ (conflict (map sizeo tis) \/ conflict (map addro tis)
      \/ conflict (map sego tis) ->
      TypeCheckInstruction_opt instr aops = Ok None).
Proof.
  intros Hne Hlen Hti. unfold NumOps in Hlen.
  destruct aops as [| aop aops]; [contradiction |].
  destruct (operands instr) as [| op ops] eqn:Eops; [discriminate |].
  unfold operand_infos in Hti. cbn [combine] in Hti.
  inversion Hti as [| p t0 ps tis' Hc Hrest]; subst. cbn [fst snd] in Hc.
  assert (Hloop : check_operands (aop :: aops) (op :: ops) None
                  = (t <- reduce_list t0 tis' ;; Ok (Some t))%res).
  { cbn [check_operands]. rewrite Hc. cbn [res_bind].
    apply check_operands_reduce; [simpl in Hlen; lia | exact Hrest]. }
  assert (Hopt : TypeCheckInstruction_opt instr (aop :: aops)
                 = match reduce_list t0 tis' with
                   | Ok t => Ok (Some (is_True (sizeo t), is_True (addro t), sego t))
                   | Raise (X86TypeCheckError _) => Ok None
                   | Raise e => Raise e
                   end).
  { unfold TypeCheckInstruction_opt, TypeCheckInstruction_exn, NumOps.
    rewrite Eops, Hlen, Nat.eqb_refl. cbn [negb Nat.eqb List.length].
    rewrite Hloop. destruct (reduce_list t0 tis') as [t | e]; reflexivity. }
  destruct (reduce_list t0 tis') as [t | e] eqn:R.
  - apply reduce_list_Ok in R as ((Ns & Rs) & (Na & Ra) & (Ng & Rg)). split.
    + intros _ _ _. exists t. rewrite Hloop, Hopt. auto.
    + intros [C | [C | C]]; contradiction.
  - apply reduce_list_Raise in R as (He & C). split.
    + intros Ns Na Ng. destruct C as [C | [C | C]]; contradiction.
    + intros _. rewrite Hopt. destruct e; try contradiction. reflexivity.
Qed.

End Facts.

(** ** The theorems at concrete operands, exercises written *)

Ltac no_conflict :=
  let x := fresh in let y := fresh in
  intros (x & y & ? & ? & ?); simpl in *; intuition congruence.

Lemma SignedImm_matches_iff_witness :
  guarded (Iw 0xFF80) = true
  /\ @solved exercises_done = true
  /\ matches (@visit exercises_done true (Iw 0xFF80) (SignedImm (Iw 0)))
  /\ rejects (@visit exercises_done true (Iw 0x80) (SignedImm (Iw 0))).
Proof.
  split; [reflexivity |]. split; [reflexivity |]. split.
  - destruct (@SignedImm_matches_iff exercises_done true (Iw 0xFF80) 0 eq_refl)
      as (_ & _ & Hm).
    apply (Hm eq_refl). exists 0xFF80. split; [reflexivity | lia].
  - destruct (@SignedImm_matches_iff exercises_done true (Iw 0x80) 0 eq_refl)
      as (Hw & _ & _).
    apply Hw. intros (v & E & R). injection E as <-.
    unfold sign_extended_byte in R. lia.
Defined.

Lemma lenient_sizes_skip_comparison_witness :
  @AOTtoAOTDL exercises_done OFPEnv = RegOrMem None (Some Mb)
  /\ is_MemExpr (Mem32 DS Mq (Some Eax) None 0 None) = true
  /\ @check exercises_done OFPEnv (Mem32 DS Mq (Some Eax) None 0 None)
     = Ok (Some {| sizeo := None; addro := Some false; sego := None |})
  /\ rejects (@check exercises_done OMd (Mem32 DS Mq (Some Eax) None 0 None)).
Proof.
  split; [reflexivity |]. split; [reflexivity |]. split.
  - apply (@lenient_sizes_skip_comparison exercises_done OFPEnv
             (Mem32 DS Mq (Some Eax) None 0 None) None Mb eq_refl).
    + discriminate.
    + reflexivity.
    + simpl. auto.
    + reflexivity.
  - apply (@lenient_sizes_skip_comparison exercises_done OMd
             (Mem32 DS Mq (Some Eax) None 0 None) None Md eq_refl).
    + discriminate.
    + reflexivity.
    + simpl. intuition discriminate.
    + discriminate.
Defined.

Lemma typeinfo_reduced_fieldwise_witness :
  let instr := {| prefixes := []; mnem := Add;
                  operands := [Mem16 ES Mw (Some Bx) None None; Iw 5] |} in
  let tis := [ {| sizeo := Some true; addro := Some true; sego := Some ES |};
               {| sizeo := Some true; addro := None; sego := None |} ] in
  eEvIz <> []
  /\ List.length eEvIz = NumOps instr
  /\ @operand_infos exercises_done eEvIz (operands instr) tis
  /\ ~ conflict (map sizeo tis) /\ ~ conflict (map addro tis)
  /\ ~ conflict (map sego tis)
  /\ @TypeCheckInstruction_opt exercises_done instr eEvIz
     = Ok (Some (true, true, Some ES)).
Proof.
  intros instr tis.
  assert (Hne : eEvIz <> []) by discriminate.
  assert (Hlen : List.length eEvIz = NumOps instr) by reflexivity.
  assert (Hti : @operand_infos exercises_done eEvIz (operands instr) tis).
  { repeat constructor. }
  assert (Hs : ~ conflict (map sizeo tis)) by no_conflict.
  assert (Ha : ~ conflict (map addro tis)) by no_conflict.
  assert (Hg : ~ conflict (map sego tis)) by no_conflict.
  repeat (split; [assumption |]).
  destruct (@typeinfo_reduced_fieldwise exercises_done instr eEvIz tis
              Hne Hlen Hti) as [Hok _].
  destruct (Hok Hs Ha Hg) as (t & _ & (_ & Fs) & (_ & Fa) & (_ & Fg) & ->).
  rewrite (Fs true), (Fa true), (Fg ES); simpl; auto.
Defined.

(** A tuple whose operands disagree on the size override: a 16-bit
    register with a 32-bit immediate. *)
Example size_conflict_has_no_result :
  let instr := {| prefixes := []; mnem := Add; operands := [Gw Bx; Id 5] |} in
  @operand_infos exercises_done eEvIz (operands instr)
    [ {| sizeo := Some true; addro := None; sego := None |};
      {| sizeo := Some false; addro := None; sego := None |} ]
  /\ @TypeCheckInstruction_opt exercises_done instr eEvIz = Ok None.
Proof. split; [repeat constructor | reflexivity]. Qed.

End TypeCheckerFacts.

(* ===================================================================== *)
(** * The encoder *)
(* ===================================================================== *)

Module EncoderFacts.
Import Encoder.

Section Facts.
Context `{Setting} `{ModRMCodec}.

Lemma exercise_Ok {A} (str : string) (body : res A) (x : A) :
  exercise str body = Ok x -> body = Ok x.
Proof. unfold exercise. destruct solved; [auto | discriminate]. Qed.

Lemma exercise_Raise {A} (str : string) (body : res A) :
  solved = false -> exercise str body = Raise (ExerciseError str).
Proof. unfold exercise. intros ->. reflexivity. Qed.

Lemma same_frame_refl (s : X86Encoder) : same_frame s s.
Proof. unfold same_frame. auto. Qed.

Lemma same_frame_trans (s1 s2 s3 : X86Encoder) :
  same_frame s1 s2 -> same_frame s2 s3 -> same_frame s1 s3.
Proof. unfold same_frame. intuition congruence. Qed.

Lemma on_ModRM_frame (f : ModRM -> res ModRM) (s s' : X86Encoder) :
  on_ModRM f s = Ok s' -> same_frame s s' /\ sizepfx s' = sizepfx s.
Proof.
  unfold on_ModRM, res_bind. destruct (f _); [| discriminate].
  intros E. injection E as <-. unfold same_frame. cbn. repeat split.
Qed.

Lemma AppendImmediate_frame (imm : Z) (n : nat) (s : X86Encoder) :
  same_frame s (AppendImmediate imm n s)
  /\ sizepfx (AppendImmediate imm n s) = sizepfx s.
Proof. unfold same_frame. cbn. repeat split. Qed.

Ltac frame_cases :=
  repeat match goal with
  | E : exercise _ _ = Ok _ |- _ => apply exercise_Ok in E
  | E : Raise _ = Ok _ |- _ => discriminate E
  | E : Default = Ok _ |- _ => discriminate E
  | E : Ok _ = Ok _ |- _ => injection E as <-
  | E : on_ModRM _ _ = Ok _ |- _ => apply on_ModRM_frame in E; exact E
  | E : res_bind ?r _ = Ok _ |- _ =>
      let Er := fresh "Er" in destruct r eqn:Er; cbn [res_bind] in E
  | E : match ?x with _ => _ end = Ok _ |- _ => destruct x
  | |- same_frame ?s ?s /\ _ => split; [apply same_frame_refl | reflexivity]
  | |- same_frame ?s (AppendImmediate _ _ _) /\ _ =>
      try apply AppendImmediate_frame
  end.

Lemma AppendImmediate_twice_frame (i1 i2 : Z) (n1 n2 : nat) (s : X86Encoder) :
  same_frame s (AppendImmediate i1 n1 (AppendImmediate i2 n2 s))
  /\ sizepfx (AppendImmediate i1 n1 (AppendImmediate i2 n2 s)) = sizepfx s.
Proof. unfold same_frame. cbn. repeat split. Qed.

(** A visit changes nothing but the ModRM and the immediates. *)
Lemma visit_frame (enc : X86AOTDL) (op : Operand) (s s' : X86Encoder) :
  visit op enc s = Ok s' -> same_frame s s' /\ sizepfx s' = sizepfx s.
Proof.
  revert s s'. induction enc; intros s s' E; cbn [visit] in E.
  - unfold visit_Exact in E. frame_cases.
  - unfold visit_ExactSeg in E. frame_cases.
  - unfold visit_GPart in E. frame_cases.
  - unfold visit_RegOrMem_Register, visit_RegOrMem_Mem16,
      visit_RegOrMem_Mem32 in E.
    destruct (is_Register op); [frame_cases |].
    destruct op; frame_cases.
  - unfold visit_Immediate_MemExpr, visit_Immediate_FarTarget,
      visit_Immediate_Ib, visit_Immediate_Iw, visit_Immediate_Id,
      visit_Immediate_JccTarget in E.
    destruct (is_MemExpr archetype); [frame_cases |].
    destruct (is_FarTarget archetype);
      [frame_cases; apply AppendImmediate_twice_frame |].
    destruct archetype; frame_cases.
  - unfold visit_Immediate_Ib, visit_Immediate_JccTarget in E.
    destruct archetype; frame_cases.
  - apply exercise_Ok in E.
    destruct (sizepfx s) eqn:Es;
      [apply IHenc1 in E | apply IHenc2 in E]; rewrite Es in E; exact E.
  - apply exercise_Ok in E.
    destruct (addrpfx s); [apply IHenc1 in E | apply IHenc2 in E]; exact E.
Qed.

Lemma visit_operands_frame (aops : list AOTElt) (ops : list Operand)
    (s s' : X86Encoder) :
  visit_operands aops ops s = Ok s' -> same_frame s s'.
Proof.
  revert ops s. induction aops as [| aop aops IH]; intros [| op ops] s E;
    cbn [visit_operands] in E; try (injection E as <-; apply same_frame_refl).
  unfold res_bind in E.
  destruct (visit op (AOTtoAOTDL aop) s) as [s1 |] eqn:V; [| discriminate].
  apply visit_frame in V as [F _]. eapply same_frame_trans; eauto.
Qed.

Lemma enc_Encode_frame (enc : X86Enc) (s s' : X86Encoder) :
  enc_Encode enc s = Ok s' -> same_frame s s'.
Proof.
  destruct enc; cbn [enc_Encode]; intros E; apply exercise_Ok in E.
  - injection E as <-. apply same_frame_refl.
  - injection E as <-. unfold same_frame. cbn. auto.
  - apply on_ModRM_frame in E. apply E.
Qed.

Lemma encode_state_frame (instr : Instruction) (a : Z) (enc : X86Enc)
    (v0 v1 : bool) (v2 : option SegElt) (s : X86Encoder) :
  encode_state instr a enc (v0, v1, v2) = Ok s ->
  stem s = enc_bytes enc /\ group1pfx s = None /\ segpfx s = v2
  /\ addrpfx s = v1 /\ addr s = a.
Proof.
  unfold encode_state, res_bind.
  destruct (enc_Encode enc _) as [s1 |] eqn:E1; [| discriminate].
  intros E2. apply enc_Encode_frame in E1. apply visit_operands_frame in E2.
  destruct (same_frame_trans E1 E2) as (? & ? & ? & ? & ?). cbn in *. auto.
Qed.

(** ** The loop over the candidate encodings *)

Lemma try_encodings_first (instr : Instruction) (a : Z)
    (pre : list X86Enc) (enc : X86Enc) (post : list X86Enc)
    (val : bool * bool * option SegElt) :
  Forall (fun e => TypeChecker.TypeCheckInstruction_opt instr (enc_ops e)
                   = Ok None) pre ->
  TypeChecker.TypeCheckInstruction_opt instr (enc_ops enc) = Ok (Some val) ->
  try_encodings instr a (pre ++ enc :: post) = encode_with instr a enc val.
Proof.
  intros Hpre Henc. induction Hpre as [| e pre He _ IH]; cbn [app try_encodings].
  - rewrite Henc. reflexivity.
  - rewrite He. exact IH.
Qed.

Lemma try_encodings_Ok_inv (instr : Instruction) (a : Z)
    (encs : list X86Enc) (bs : list Z) :
  try_encodings instr a encs = Ok bs ->
  exists pre enc post val,
    encs = pre ++ enc :: post
    /\ Forall (fun e => TypeChecker.TypeCheckInstruction_opt instr (enc_ops e)
                        = Ok None) pre
    /\ TypeChecker.TypeCheckInstruction_opt instr (enc_ops enc) = Ok (Some val)
    /\ encode_with instr a enc val = Ok bs.
Proof.
  induction encs as [| e encs IH]; cbn [try_encodings]; [discriminate |].
  destruct (TypeChecker.TypeCheckInstruction_opt instr (enc_ops e))
    as [[val |] |] eqn:T; cbn [res_bind]; [| | discriminate].
  - intros E. exists [], e, encs, val. auto.
  - intros E. destruct (IH E) as (pre & enc & post & val & -> & Hpre & Henc & Hb).
    exists (e :: pre), enc, post, val. auto.
Qed.

(** In the list of [Add], the sign-extended form [0x83] comes after the
    form [0x81]. *)
Lemma Add_0x83_after_0x81 (pre post : list X86Enc) :
  mnem_to_encodings Add = pre ++ ModRMGroup 0 [0x83] eEvIbv :: post ->
  In (ModRMGroup 0 [0x81] eEvIz) pre.
Proof.
  cbn [mnem_to_encodings]. intros E.
  do 9 (destruct pre as [| ? pre]; cbn [app] in E;
        [try discriminate E | injection E as <- E]).
  - simpl. tauto.
  - destruct pre; discriminate E.
Qed.

(** C1, as the code has it: [EncodeInstruction] takes the candidates of
    the mnemonic in table order and encodes with the first one whose
    operand tuple type-checks.  In the list of [Add] the form of stem
    [0x81] comes before the sign-extended imm8 form of stem [0x83], so
    operands that type-check against [[OEv,OIz]] are never encoded with
    the form of stem [0x83]. *)
Theorem first_matching_encoding_wins (instr : Instruction) (a : Z)
    (pre : list X86Enc) (enc : X86Enc) (post : list X86Enc)
    (val : bool * bool * option SegElt) :
  mnem_to_encodings (mnem instr) = pre ++ enc :: post ->
  Forall (fun e => TypeChecker.TypeCheckInstruction_opt instr (enc_ops e)
                   = Ok None) pre ->
  TypeChecker.TypeCheckInstruction_opt instr (enc_ops enc) = Ok (Some val) ->
  EncodeInstruction instr a = encode_with instr a enc val
  /\ (mnem instr = Add ->
      forall v, TypeChecker.TypeCheckInstruction_opt instr eEvIz = Ok (Some v) ->
      enc <> ModRMGroup 0 [0x83] eEvIbv).
Proof.
  intros Htab Hpre Henc. split.
  - unfold EncodeInstruction. rewrite Htab.
    apply try_encodings_first; assumption.
  - intros Hm v Hv ->. rewrite Hm in Htab. apply Add_0x83_after_0x81 in Htab.
    rewrite Forall_forall in Hpre. apply Hpre in Htab. cbn [enc_ops] in Htab.
    congruence.
Qed.

(** ** The order of the emitted bytes *)

(** A returned byte list was collected from the encoder left by the
    first encoding that type-checked. *)
Lemma EncodeInstruction_collected (instr : Instruction) (a : Z)
    (bs : list Z) :
  EncodeInstruction instr a = Ok bs ->
  exists enc v0 v1 v2 s modrm,
    In enc (mnem_to_encodings (mnem instr))
    /\ TypeChecker.TypeCheckInstruction_opt instr (enc_ops enc)
       = Ok (Some (v0, v1, v2))
    /\ encode_state instr a enc (v0, v1, v2) = Ok s
    /\ modrm_bytes s = Ok modrm
    /\ bs = seg_bytes s ++ addr_bytes s ++ size_bytes s ++ group1_bytes s
            ++ stem s ++ modrm ++ immediates s.
Proof.
  unfold EncodeInstruction. intros E.
  apply try_encodings_Ok_inv in E
    as (pre & enc & post & [[v0 v1] v2] & Htab & _ & Henc & Hb).
  unfold encode_with, res_bind in Hb.
  destruct (encode_state instr a enc (v0, v1, v2)) as [s |] eqn:Es;
    [| discriminate].
  unfold collect, res_bind in Hb.
  destruct (modrm_bytes s) as [modrm |] eqn:Em; [| discriminate].
  injection Hb as <-.
  exists enc, v0, v1, v2, s, modrm.
  split; [rewrite Htab; apply in_elt |].
  split; [exact Henc |]. split; [exact Es |]. split; [exact Em |].
  cbn [app]. rewrite <- !app_assoc. reflexivity.
Qed.

(** ** Jump targets *)

(** What [visit_Immediate_JccTarget] appends: the displacement counts four
    bytes for the immediate whatever the width it is emitted at. *)
Lemma JccTarget_displacement (taken not_taken : Z) (s : X86Encoder) :
  addrpfx s && (taken >? 0xFFFF) = false ->
  visit_Immediate_JccTarget (JccTarget taken not_taken) s
  = Ok (AppendImmediate
          (Z.land (taken - (addr s + instrlen s)) 0xFFFFFFFF)
          (if addrpfx s then 2%nat else 4%nat) s).
Proof. unfold visit_Immediate_JccTarget. intros ->. reflexivity. Qed.

(** X3: without an address-size prefix, [visit_Immediate_JccTarget]
    appends the specified displacement: [(taken - (addr + L)) mod 2^32]
    at four bytes, [L] counting the prefixes, the stem and those four
    bytes. *)
Theorem JccTarget_displacement_as_specified (taken not_taken : Z)
    (s : X86Encoder) :
  addrpfx s = false ->
  exists s',
    visit_Immediate_JccTarget (JccTarget taken not_taken) s = Ok s'
    /\ immediates s' = immediates s ++ specified_Jcc_bytes taken s.
Proof.
  intros Ha. eexists. split.
  - apply JccTarget_displacement. rewrite Ha. reflexivity.
  - cbn [AppendImmediate immediates]. f_equal.
    unfold specified_Jcc_bytes, specified_Jcc_width, specified_Jcc_length,
      instrlen, int_of_bool, is_Some.
    rewrite Ha. change 0xFFFFFFFF with (Z.ones 32).
    rewrite Z.land_ones by lia. do 2 f_equal.
    unfold specified_Jcc_width. rewrite Ha. change (Z.of_nat 4) with 4.
    destruct (segpfx s), (sizepfx s); cbv beta iota; lia.
Qed.



(** ** Jump targets under [EncodeInstruction] *)

(** The type checker on a jump target against a description of one: the
    accepting branch of [visit_Immediate_JccTarget], which reports no
    prefix. *)
Lemma jump_target_check (aop : AOTElt) (taken not_taken : Z) :
  jump_description (AOTtoAOTDL aop) ->
  TypeChecker.check aop (JccTarget taken not_taken)
  = exercise "X86TypeChecker::visit_Immediate_JccTarget"
      (Ok (Some TypeChecker.MATCHES)).
Proof.
  intros (z1 & z2 & [E | E]); unfold TypeChecker.check; rewrite E; reflexivity.
Qed.


Lemma jump_target_type_checks (instr : Instruction) (aop : AOTElt)
    (taken not_taken : Z) :
  solved = true ->
  operands instr = [JccTarget taken not_taken] ->
  jump_description (AOTtoAOTDL aop) ->
  TypeChecker.TypeCheckInstruction_opt instr [aop]
  = Ok (Some (false, false, None)).
Proof.
  intros Hs Hops Hd.
  unfold TypeChecker.TypeCheckInstruction_opt,
    TypeChecker.TypeCheckInstruction_exn, NumOps.
  rewrite Hops. cbn [List.length Nat.eqb negb TypeChecker.check_operands].
  rewrite jump_target_check by exact Hd.
  unfold exercise. rewrite Hs. reflexivity.
Qed.


Lemma visit_jump_target (enc : X86AOTDL) (taken not_taken : Z)
    (s : X86Encoder) :
  jump_description enc ->
  visit (JccTarget taken not_taken) enc s
  = visit_Immediate_JccTarget (JccTarget taken not_taken) s.
Proof. intros (z1 & z2 & [-> | ->]); reflexivity. Qed.


(** With the exercises written, what [EncodeInstruction] returns for a
    jump through an [Ordinary] encoding. *)
Lemma jump_encoded (instr : Instruction) (a : Z) (pre : list X86Enc)
    (b : list Z) (aop : AOTElt) (post : list X86Enc)
    (taken not_taken : Z) :
  solved = true ->
  operands instr = [JccTarget taken not_taken] ->
  mnem_to_encodings (mnem instr) = pre ++ Ordinary b [aop] :: post ->
  Forall (fun e => TypeChecker.TypeCheckInstruction_opt instr (enc_ops e)
                   = Ok None) pre ->
  jump_description (AOTtoAOTDL aop) ->
  EncodeInstruction instr a
  = Ok (b ++ little_endian_bytes
               ((taken - (a + (Z.of_nat (List.length b) + 4))) mod 2 ^ 32) 4).
Proof.
  intros Hs Hops Htab Hpre Hd. unfold EncodeInstruction. rewrite Htab.
  assert (Htc : TypeChecker.TypeCheckInstruction_opt instr
                  (enc_ops (Ordinary b [aop]))
                = Ok (Some (false, false, None)))
    by (apply (@jump_target_type_checks instr aop taken not_taken);
        assumption).
  rewrite (@try_encodings_first instr a pre (Ordinary b [aop]) post
             (false, false, None) Hpre Htc).
  unfold encode_with, encode_state. cbn [enc_Encode enc_bytes enc_ops].
  unfold exercise at 1. rewrite Hs, Hops. cbn [res_bind visit_operands].
  rewrite visit_jump_target by exact Hd.
  rewrite JccTarget_displacement by reflexivity.
  cbn [res_bind addrpfx]. unfold collect, modrm_bytes, seg_bytes, addr_bytes,
    size_bytes, group1_bytes, instrlen, int_of_bool, is_Some.
  cbn [AppendImmediate _modrm res_bind segpfx addrpfx sizepfx group1pfx stem
       immediates app addr].
  rewrite !app_nil_r. change 0xFFFFFFFF with (Z.ones 32).
  rewrite Z.land_ones by lia. reflexivity.
Qed.



(** The exception leaves [EncodeInstruction] as it is: the loop has no
    handler, so whatever the first encoding that type-checks raises is
    what the caller gets. *)
Lemma EncodeInstruction_propagates (instr : Instruction) (a : Z)
    (pre : list X86Enc) (enc : X86Enc) (post : list X86Enc)
    (val : bool * bool * option SegElt) (e : exn) :
  mnem_to_encodings (mnem instr) = pre ++ enc :: post ->
  Forall (fun e' => TypeChecker.TypeCheckInstruction_opt instr (enc_ops e')
                    = Ok None) pre ->
  TypeChecker.TypeCheckInstruction_opt instr (enc_ops enc) = Ok (Some val) ->
  encode_with instr a enc val = Raise e ->
  EncodeInstruction instr a = Raise e.
Proof.
  intros Htab Hpre Henc He. unfold EncodeInstruction. rewrite Htab.
  rewrite (@try_encodings_first instr a pre enc post val Hpre Henc).
  exact He.
Qed.

(** ** The source as shipped, and the group 1 prefix *)

(** X1: with the exercise bodies as shipped, [EncodeInstruction] returns
    no byte list: every encoding class raises [ExerciseError] in
    [Encode]. *)
Theorem shipped_encoder_never_returns (instr : Instruction) (a : Z)
    (bs : list Z) :
  solved = false -> EncodeInstruction instr a <> Ok bs.
Proof.
  intros Hs E. unfold EncodeInstruction in E.
  apply try_encodings_Ok_inv in E
    as (pre & enc & post & [[v0 v1] v2] & _ & _ & _ & Hb).
  unfold encode_with, encode_state in Hb.
  destruct enc; cbn [enc_Encode] in Hb; rewrite exercise_Raise in Hb by exact Hs;
    discriminate Hb.
Qed.

(** X4: a byte list returned by [EncodeInstruction] holds no group 1
    prefix: nothing assigns [group1pfx] after [Reset]. *)
Theorem no_group1_prefix_emitted (instr : Instruction) (a : Z) (bs : list Z) :
  EncodeInstruction instr a = Ok bs ->
  exists enc val s modrm,
    encode_state instr a enc val = Ok s
    /\ modrm_bytes s = Ok modrm
    /\ group1pfx s = None
    /\ bs = seg_bytes s ++ addr_bytes s ++ size_bytes s
            ++ stem s ++ modrm ++ immediates s.
Proof.
  intros E.
  destruct (EncodeInstruction_collected _ _ E)
    as (enc & v0 & v1 & v2 & s & modrm & _ & _ & Es & Hm & Hb).
  pose proof (encode_state_frame _ _ _ _ _ _ Es) as (_ & Hg & _).
  exists enc, (v0, v1, v2), s, modrm.
  repeat (split; [assumption |]).
  rewrite Hb. unfold group1_bytes. rewrite Hg. reflexivity.
Qed.

End Facts.

(** ** The theorems at concrete instructions, exercises written *)

Lemma first_matching_encoding_wins_witness :
  let pre := [ Ordinary [0x00] eEbGb; Ordinary [0x01] eEvGv;
               Ordinary [0x02] eGbEb; Ordinary [0x03] eGvEv;
               Ordinary [0x04] eALIb; Ordinary [0x05] erAXIz;
               ModRMGroup 0 [0x80] eEbIb ] in
  let enc := ModRMGroup 0 [0x81] eEvIz in
  let post := [ ModRMGroup 0 [0x83] eEvIbv ] in
  mnem_to_encodings (mnem Add_Ebx_5) = pre ++ enc :: post
  /\ Forall (fun e => @TypeChecker.TypeCheckInstruction_opt exercises_done
                        Add_Ebx_5 (enc_ops e) = Ok None) pre
  /\ @TypeChecker.TypeCheckInstruction_opt exercises_done Add_Ebx_5
       (enc_ops enc) = Ok (Some (false, false, None))
  /\ @EncodeInstruction exercises_done RegisterModRM Add_Ebx_5 0
     = Ok [0x81; 0xC3; 0x05; 0x00; 0x00; 0x00]
  /\ enc <> ModRMGroup 0 [0x83] eEvIbv.
Proof.
  intros pre enc post.
  assert (Htab : mnem_to_encodings (mnem Add_Ebx_5) = pre ++ enc :: post)
    by reflexivity.
  assert (Hpre : Forall (fun e => @TypeChecker.TypeCheckInstruction_opt
                           exercises_done Add_Ebx_5 (enc_ops e) = Ok None) pre)
    by (repeat constructor).
  assert (Henc : @TypeChecker.TypeCheckInstruction_opt exercises_done Add_Ebx_5
                   (enc_ops enc) = Ok (Some (false, false, None)))
    by reflexivity.
  repeat (split; [assumption |]).
  destruct (@first_matching_encoding_wins exercises_done RegisterModRM
              Add_Ebx_5 0 pre enc post _ Htab Hpre Henc) as [Hfirst Hadd].
  split.
  - rewrite Hfirst. reflexivity.
  - exact (Hadd eq_refl _ Henc).
Defined.

(** C1 as it is worded fails at [ADD EBX, 5]: the immediate fits a signed
    8-bit value and the operands type-check against the sign-extended form
    of stem [0x83]; the encoder answers with the form of stem [0x81],
    which comes first in the list. *)
Lemma Add_small_immediate_is_encoded_with_0x81 :
  sign_extended_byte 0x100000000 5
  /\ @TypeChecker.TypeCheckInstruction_opt exercises_done Add_Ebx_5 eEvIbv
     = Ok (Some (false, false, None))
  /\ @encode_with exercises_done RegisterModRM Add_Ebx_5 0
       (ModRMGroup 0 [0x83] eEvIbv) (false, false, None)
     = Ok [0x83; 0xC3; 0x05]
  /\ @EncodeInstruction exercises_done RegisterModRM Add_Ebx_5 0
     = Ok [0x81; 0xC3; 0x05; 0x00; 0x00; 0x00]
  /\ @EncodeInstruction exercises_done RegisterModRM Add_Ebx_5 0
     <> @encode_with exercises_done RegisterModRM Add_Ebx_5 0
          (ModRMGroup 0 [0x83] eEvIbv) (false, false, None).
Proof.
  split; [unfold sign_extended_byte; lia |].
  repeat (split; [reflexivity |]).
  discriminate.
Qed.




(** At the same jump under [EncodeInstruction] the displacement is the
    specified one. *)
Example Jmp_0x100_at_0 :
  @EncodeInstruction exercises_done RegisterModRM (Jmp_to 0x100) 0
  = Ok [0xE9; 0xFB; 0x00; 0x00; 0x00].
Proof. reflexivity. Qed.



Lemma shipped_encoder_never_returns_witness :
  @solved as_shipped = false
  /\ @EncodeInstruction as_shipped RegisterModRM
       {| prefixes := []; mnem := Daa; operands := [] |} 0
     = Raise (ExerciseError "X86EncodeTable::Ordinary")
  /\ @EncodeInstruction as_shipped RegisterModRM
       {| prefixes := []; mnem := Daa; operands := [] |} 0
     <> Ok [0x27].
Proof.
  split; [reflexivity |]. split; [reflexivity |].
  apply (@shipped_encoder_never_returns as_shipped RegisterModRM).
  reflexivity.
Defined.

Lemma JccTarget_displacement_as_specified_witness :
  let s := {| group1pfx := None; stem := [0xE9]; segpfx := None;
              addrpfx := false; sizepfx := false; immediates := [];
              _modrm := @None (@ModRM RegisterModRM); addr := 0 |} in
  addrpfx s = false
  /\ exists s',
       @visit_Immediate_JccTarget RegisterModRM (JccTarget 0x100 0) s = Ok s'
       /\ immediates s' = immediates s ++ specified_Jcc_bytes 0x100 s.
Proof.
  intros s. split; [reflexivity |].
  apply (@JccTarget_displacement_as_specified RegisterModRM 0x100 0 s).
  reflexivity.
Defined.

Lemma no_group1_prefix_emitted_witness :
  @EncodeInstruction exercises_done RegisterModRM (Jmp_to 0x100) 0
  = Ok [0xE9; 0xFB; 0x00; 0x00; 0x00]
  /\ exists s modrm,
       @modrm_bytes RegisterModRM s = Ok modrm
       /\ group1pfx s = None
       /\ [0xE9; 0xFB; 0x00; 0x00; 0x00]
          = seg_bytes s ++ addr_bytes s ++ size_bytes s
            ++ stem s ++ modrm ++ immediates s.
Proof.
  assert (E : @EncodeInstruction exercises_done RegisterModRM (Jmp_to 0x100) 0
              = Ok [0xE9; 0xFB; 0x00; 0x00; 0x00]) by reflexivity.
  split; [exact E |].
  destruct (@no_group1_prefix_emitted exercises_done RegisterModRM
              (Jmp_to 0x100) 0 _ E) as (enc & val & s & modrm & _ & Hm & Hg & Hb).
  exists s, modrm. auto.
Defined.

End EncoderFacts.

(* ===================================================================== *)
(** * The byte stream: positions, failures and the cap *)
(* ===================================================================== *)

Module StreamPositions.
Import ByteStream.

Lemma py_index_cases (l : list Z) (i : Z) :
  let n := Z.of_nat (List.length l) in
  (- n <= i < n /\ exists b, py_index l i = Ok b
                             /\ nth_error l (Z.to_nat (i mod n)) = Some b)
  \/ (~ (- n <= i < n) /\ py_index l i = Raise IndexError).
Proof.
  intros n. unfold py_index. fold n.
  destruct (Z.ltb_spec i 0) as [Hneg | Hpos].
  - destruct (Z.ltb_spec (i + n) 0) as [H1 | H1]; cbn [orb].
    + right. split; [lia | reflexivity].
    + destruct (Z.leb_spec n (i + n)) as [H2 | H2]; [lia |].
      left. split; [lia |].
      assert (Hm : i mod n = i + n).
      { symmetry. apply Z.mod_unique with (q := -1); lia. }
      rewrite Hm.
      destruct (nth_error l (Z.to_nat (i + n))) as [b |] eqn:E.
      * exists b. auto.
      * apply nth_error_None in E. unfold n in *. lia.
  - destruct (Z.ltb_spec i 0) as [H1 | H1]; [lia |]. cbn [orb].
    destruct (Z.leb_spec n i) as [H2 | H2].
    + right. split; [lia | reflexivity].
    + left. split; [lia |]. rewrite Z.mod_small by lia.
      destruct (nth_error l (Z.to_nat i)) as [b |] eqn:E.
      * exists b. auto.
      * apply nth_error_None in E. unfold n in *. lia.
Qed.

(** The three outcomes of [Byte]. *)
Lemma Byte_cases (s : StreamObj) :
  let n := Z.of_nat (List.length (bytes s)) in
  (16 <= consumed s /\ Byte s = (Raise InvalidInstruction, s))
  \/ (consumed s < 16 /\ ~ (- n <= pos s < n)
      /\ Byte s = (Raise IndexError, s))
  \/ (consumed s < 16 /\ - n <= pos s < n
      /\ exists b, nth_error (bytes s) (Z.to_nat (pos s mod n)) = Some b
                   /\ Byte s = (Ok b, at_pos s (pos s + 1))).
Proof.
  intros n. unfold Byte, bind, GetByteInternal, consumed.
  destruct (Z.geb_spec (pos s - origpos s) 16) as [H | H].
  - left. auto.
  - right.
    destruct (py_index_cases (bytes s) (pos s)) as [(Hr & b & -> & Hb) | (Hr & ->)].
    + right. repeat (split; [assumption |]). exists b. split; [exact Hb |].
      reflexivity.
    + left. repeat (split; [assumption |]). reflexivity.
Qed.

(** X5: [Byte] returns a byte exactly when fewer than sixteen bytes were
    consumed since the last [SetPos] and [pos] lies in [-len, len); a
    negative position in that range reads from the end of the list, as
    Python indexing does.  Below the cap a position outside the range
    raises [IndexError].  A call that raises leaves the stream as it
    was; a call that returns advances [pos] by one and nothing else. *)
Theorem Byte_outcome (s : StreamObj) :
  let n := Z.of_nat (List.length (bytes s)) in
  ((exists b s', Byte s = (Ok b, s')) <->
     consumed s < 16 /\ - n <= pos s < n)
  /\ (fst (Byte s) = Raise IndexError <->
        consumed s < 16 /\ ~ (- n <= pos s < n))
  /\ (forall b s', Byte s = (Ok b, s') ->
        nth_error (bytes s) (Z.to_nat (pos s mod n)) = Some b
        /\ s' = at_pos s (pos s + 1))
  /\ (forall e s', Byte s = (Raise e, s') -> s' = s).
Proof.
  intros n.
  destruct (Byte_cases s) as [(Hc & E) | [(Hc & Hr & E) | (Hc & Hr & b & Hb & E)]];
    fold n in Hr || idtac; rewrite E; cbn [fst].
  - split; [| split; [| split]].
    + split; [intros (b & s' & R); discriminate R | lia].
    + split; [discriminate | lia].
    + intros b s' R. discriminate R.
    + intros e s' R. injection R as _ <-. reflexivity.
  - split; [| split; [| split]].
    + split; [intros (b & s' & R); discriminate R | tauto].
    + split; [auto | reflexivity].
    + intros b s' R. discriminate R.
    + intros e s' R. injection R as _ <-. reflexivity.
  - split; [| split; [| split]].
    + split; [auto |]. intros _. exists b, (at_pos s (pos s + 1)). reflexivity.
    + split; [discriminate | tauto].
    + intros b' s' R. injection R as <- <-. auto.
    + intros e s' R. discriminate R.
Qed.

Lemma at_pos_same (s : StreamObj) : at_pos s (pos s) = s.
Proof. destruct s; reflexivity. Qed.

Lemma Byte_step (s : StreamObj) :
  (exists b, Byte s = (Ok b, at_pos s (pos s + 1)))
  \/ (exists e, Byte s = (Raise e, s)).
Proof.
  destruct (Byte_cases s) as [(_ & E) | [(_ & _ & E) | (_ & _ & b & _ & E)]];
    eauto.
Qed.

Lemma Byte_in_range (s : StreamObj) :
  consumed s < 16 -> 0 <= pos s < Z.of_nat (List.length (bytes s)) ->
  exists b, Byte s = (Ok b, at_pos s (pos s + 1)).
Proof.
  intros Hc Hr.
  destruct (Byte_cases s) as [(H & _) | [(_ & H & _) | (_ & _ & b & _ & E)]];
    [lia | lia | eauto].
Qed.

Lemma Byte_at_cap (s : StreamObj) :
  16 <= consumed s -> Byte s = (Raise InvalidInstruction, s).
Proof.
  intros Hc.
  destruct (Byte_cases s) as [(_ & E) | [(H & _) | (H & _)]]; [exact E | lia | lia].
Qed.

(** The same at a moved position. *)
Lemma Byte_step_at (s : StreamObj) (p : Z) :
  (exists b, Byte (at_pos s p) = (Ok b, at_pos s (p + 1)))
  \/ (exists e, Byte (at_pos s p) = (Raise e, at_pos s p)).
Proof. exact (Byte_step (at_pos s p)). Qed.

Lemma Byte_in_range_at (s : StreamObj) (p : Z) :
  p - origpos s < 16 -> 0 <= p < Z.of_nat (List.length (bytes s)) ->
  exists b, Byte (at_pos s p) = (Ok b, at_pos s (p + 1)).
Proof. exact (@Byte_in_range (at_pos s p)). Qed.

Lemma Byte_at_cap_at (s : StreamObj) (p : Z) :
  16 <= p - origpos s ->
  Byte (at_pos s p) = (Raise InvalidInstruction, at_pos s p).
Proof. exact (@Byte_at_cap (at_pos s p)). Qed.

(** One more call of [Byte] in a read that has consumed [k] bytes. *)
Ltac next_Byte s k :=
  let b := fresh "b" in let e := fresh "e" in let E := fresh "E" in
  destruct (Byte_step_at s (pos s + k)) as [(b & E) | (e & E)];
  rewrite E;
  [ replace (pos s + k + 1) with (pos s + (k + 1)) by lia
  | intros r s' R; injection R as <- <-; exists k;
    split; [reflexivity | split; [lia | exact E]] ].

(** X6: [Word] and [Dword] only move [pos], by the number of bytes they
    consumed: two and four when they return, and fewer when they raise,
    the bytes read before the failing call of [Byte] staying consumed;
    the exception is the one [Byte] raises where the read stopped. *)
Theorem Word_Dword_consume (s : StreamObj) :
  (forall r s', Word s = (r, s') ->
     exists k, s' = at_pos s (pos s + k)
       /\ match r with
          | Ok _ => k = 2
          | Raise e => 0 <= k < 2 /\ Byte s' = (Raise e, s')
          end)
  /\ (forall r s', Dword s = (r, s') ->
       exists k, s' = at_pos s (pos s + k)
         /\ match r with
            | Ok _ => k = 4
            | Raise e => 0 <= k < 4 /\ Byte s' = (Raise e, s')
            end).
Proof.
  assert (H0 : Byte s = Byte (at_pos s (pos s + 0))).
  { rewrite Z.add_0_r, at_pos_same. reflexivity. }
  split.
  - unfold Word, bind, ret. rewrite H0.
    next_Byte s 0. next_Byte s (0 + 1).
    intros r s' R. injection R as <- <-. exists 2. auto.
  - unfold Dword, Word, bind, ret. rewrite H0.
    next_Byte s 0. next_Byte s (0 + 1). next_Byte s (0 + 1 + 1).
    next_Byte s (0 + 1 + 1 + 1).
    intros r s' R. injection R as <- <-. exists 4. auto.
Qed.

(** A read that reaches the cap: the calls of [Byte] below the cap
    return and the next one raises. *)
Ltac read_below_cap s k :=
  let b := fresh "b" in let E := fresh "E" in
  destruct (@Byte_in_range_at s (pos s + k)) as (b & E);
  [ unfold consumed in *; lia | unfold consumed in *; lia
  | rewrite E; replace (pos s + k + 1) with (pos s + (k + 1)) by lia ].

Ltac read_at_cap s k :=
  rewrite (@Byte_at_cap_at s (pos s + k)) by (unfold consumed in *; lia);
  f_equal; f_equal; unfold consumed in *; lia.

(** X7: a [Word] or [Dword] that starts below the cap of sixteen bytes
    and would end beyond it raises [InvalidInstruction], and leaves the
    position at the cap: the bytes up to the cap are consumed. *)
Theorem reads_stop_at_cap (s : StreamObj) :
  0 <= pos s ->
  origpos s + 16 <= Z.of_nat (List.length (bytes s)) ->
  (14 < consumed s <= 16 ->
     Word s = (Raise InvalidInstruction, at_pos s (origpos s + 16)))
  /\ (12 < consumed s <= 16 ->
       Dword s = (Raise InvalidInstruction, at_pos s (origpos s + 16))).
Proof.
  intros Hpos Hlen.
  assert (H0 : Byte s = Byte (at_pos s (pos s + 0))).
  { rewrite Z.add_0_r, at_pos_same. reflexivity. }
  split; intros Hc.
  - unfold Word, bind, ret. rewrite H0.
    assert (Hk : consumed s = 15 \/ consumed s = 16) by lia.
    destruct Hk as [Hk | Hk].
    + read_below_cap s 0. read_at_cap s (0 + 1).
    + read_at_cap s 0.
  - unfold Dword, Word, bind, ret. rewrite H0.
    assert (Hk : consumed s = 13 \/ consumed s = 14 \/ consumed s = 15
                 \/ consumed s = 16) by lia.
    destruct Hk as [Hk | [Hk | [Hk | Hk]]].
    + read_below_cap s 0. read_below_cap s (0 + 1).
      read_below_cap s (0 + 1 + 1). read_at_cap s (0 + 1 + 1 + 1).
    + read_below_cap s 0. read_below_cap s (0 + 1). read_at_cap s (0 + 1 + 1).
    + read_below_cap s 0. read_at_cap s (0 + 1).
    + read_at_cap s 0.
Qed.

Lemma reads_stop_at_cap_witness :
  let s := snd (Byte_calls 14 (new (repeat 0x90 20%nat))) in
  pos s = 14 /\ Dword s = (Raise InvalidInstruction, at_pos s 16).
Proof.
  intros s. split; [reflexivity |].
  refine (proj2 (@reads_stop_at_cap s _ _) _).
  - vm_compute. discriminate.
  - vm_compute. discriminate.
  - unfold consumed. vm_compute. split; [reflexivity | discriminate].
Defined.

(** X8: [SetPos] starts a new window of sixteen bytes, whatever was
    consumed before it: with [n <= 16] bytes in the list from [ea] on,
    the next [n] calls of [Byte] return them. *)
Theorem SetPos_rearms_cap (s : StreamObj) (ea : Z) (n : nat) :
  0 <= ea -> (n <= 16)%nat ->
  ea + Z.of_nat n <= Z.of_nat (List.length (bytes s)) ->
  Byte_calls n (snd (SetPos ea s)) =
    (firstn n (skipn (Z.to_nat ea) (bytes s)), Ok tt,
     {| bytes := bytes s; pos := ea + Z.of_nat n; origpos := ea |}).
Proof.
  intros H0 Hn Hlen.
  rewrite ByteStreamFacts.Byte_calls_below_cap;
    cbn [SetPos snd bytes pos origpos]; try lia.
  reflexivity.
Qed.

Lemma SetPos_rearms_cap_witness :
  let s := snd (Byte_calls 17 (new (repeat 0x90 20%nat))) in
  fst (Byte s) = Raise InvalidInstruction
  /\ Byte_calls 3 (snd (SetPos 16 s)) =
       ([0x90; 0x90; 0x90], Ok tt,
        {| bytes := repeat 0x90 20%nat; pos := 19; origpos := 16 |}).
Proof.
  intros s. split; [reflexivity |].
  refine (@SetPos_rearms_cap s 16 3 _ _ _).
  - lia.
  - lia.
  - vm_compute. discriminate.
Defined.

End StreamPositions.

(* ===================================================================== *)
(** * The type checker: what it raises, and the algebra of the reduction *)
(* ===================================================================== *)

Module TypeCheckerAlgebra.
Import TypeChecker.


Section Facts.
Context `{Setting}.

Lemma exercise_raises {A} (str : string) (body : res A) (e : exn) :
  exercise str body = Raise e ->
  from_exercise e \/ (solved = true /\ body = Raise e).
Proof.
  unfold exercise, from_exercise. destruct solved; intros R.
  - right. auto.
  - left. injection R as <-. eauto.
Qed.

Lemma exercise_value_raises {A} (str : string) (a : A) (e : exn) :
  exercise str (Ok a) = Raise e -> from_exercise e.
Proof.
  intros R. apply exercise_raises in R as [R | [_ R]]; [exact R | discriminate].
Qed.

Ltac visit_raise :=
  repeat match goal with
         | |- context [if ?c then _ else _] => destruct c
         | |- context [match ?x with _ => _ end] => destruct x
         end;
  intros R; try discriminate R;
  try (apply exercise_value_raises in R; exact R).

Lemma prefixed_raises (PFX : bool -> option TypeCheckInfo -> TypeCheckInfo)
    (yes no : res (option TypeCheckInfo)) (e : exn) :
  prefixed PFX yes no = Raise e -> yes = Raise e \/ no = Raise e.
Proof.
  unfold prefixed, res_bind.
  destruct yes as [[t |] |]; [discriminate | | intros R; left; exact R].
  destruct no as [[t |] |]; [discriminate | discriminate |].
  intros R. right. exact R.
Qed.

(** The visit raises nothing but the exception of an exercise. *)
Lemma visit_raises (check_sizes : bool) (op : Operand) (enc : X86AOTDL)
    (e : exn) :
  visit check_sizes op enc = Raise e -> from_exercise e.
Proof.
  induction enc as [v | v | a | r m | a | a | yes IHy no IHn | yes IHy no IHn];
    cbn [visit].
  - unfold visit_Exact. visit_raise.
  - unfold visit_ExactSeg. visit_raise.
  - unfold visit_GPart. visit_raise.
  - unfold visit_RegOrMem. visit_raise.
  - unfold visit_Immediate_MemExpr, visit_Immediate_FarTarget,
      visit_Immediate_Immediate, visit_Immediate_JccTarget, Default.
    visit_raise.
  - unfold visit_Immediate_JccTarget, visit_SignExtImm_Iw,
      visit_SignExtImm_Id, Default.
    destruct a; visit_raise.
  - intros R. apply exercise_raises in R as [R | [_ R]]; [exact R |].
    apply prefixed_raises in R as [R | R]; auto.
  - intros R. apply exercise_raises in R as [R | [_ R]]; [exact R |].
    apply prefixed_raises in R as [R | R]; auto.
Qed.

Lemma check_raises (aop : AOTElt) (op : Operand) (e : exn) :
  check aop op = Raise e -> from_exercise e.
Proof. unfold check. apply visit_raises. Qed.

Lemma check_operands_raises (aops : list AOTElt) (ops : list Operand)
    (last_ti : option TypeCheckInfo) (e : exn) :
  check_operands aops ops last_ti = Raise e ->
  is_X86TypeCheckError e \/ from_exercise e.
Proof.
  revert ops last_ti.
  induction aops as [| aop aops IH]; intros [| op ops] last_ti;
    cbn [check_operands]; try discriminate.
  unfold res_bind.
  destruct (check aop op) as [[ti |] |] eqn:Ec.
  - destruct last_ti as [l |].
    + destruct (reduce_typeinfo l ti) as [t |] eqn:Er.
      * apply IH.
      * intros R. injection R as <-. left.
        apply TypeCheckerFacts.reduce_typeinfo_Raise in Er. tauto.
    + apply IH.
  - intros R. injection R as <-. left. exact I.
  - intros R. injection R as <-. right. eapply check_raises. exact Ec.
Qed.

Lemma check_operands_Some (aops : list AOTElt) (ops : list Operand)
    (l : TypeCheckInfo) :
  check_operands aops ops (Some l) <> Ok None.
Proof.
  revert ops l.
  induction aops as [| aop aops IH]; intros [| op ops] l;
    cbn [check_operands]; try discriminate.
  unfold res_bind.
  destruct (check aop op) as [[ti |] |]; try discriminate.
  destruct (reduce_typeinfo l ti) as [t |]; [apply IH | discriminate].
Qed.

Lemma check_operands_first (aop : AOTElt) (aops : list AOTElt)
    (op : Operand) (ops : list Operand) :
  check_operands (aop :: aops) (op :: ops) None <> Ok None.
Proof.
  cbn [check_operands]. unfold res_bind.
  destruct (check aop op) as [[ti |] |]; try discriminate.
  apply check_operands_Some.
Qed.

Lemma TypeCheckInstruction_opt_raises
    (instr : Instruction) (aops : list AOTElt) (e : exn) :
  TypeCheckInstruction_opt instr aops = Raise e -> from_exercise e.
Proof.
  unfold TypeCheckInstruction_opt, TypeCheckInstruction_exn, NumOps.
  destruct (Nat.eqb_spec (List.length aops) (List.length (operands instr)))
    as [Hlen | Hlen]; cbn [negb]; [| discriminate].
  destruct aops as [| aop aops]; cbn [List.length Nat.eqb]; [discriminate |].
  destruct (operands instr) as [| op ops]; [discriminate |].
  pose proof (@check_operands_first aop aops op ops) as Hsome.
  pose proof (@check_operands_raises (aop :: aops) (op :: ops) None) as Hr.
  unfold res_bind.
  destruct (check_operands (aop :: aops) (op :: ops) None) as [[t |] | e'].
  - discriminate.
  - contradiction.
  - destruct (Hr e' eq_refl) as [Ht | Hx].
    + destruct e'; try contradiction. discriminate.
    + destruct Hx as (Hs & str & ->). intros R. injection R as <-.
      split; eauto.
Qed.

(** X9: [TypeCheckInstruction_opt] lets no exception through but the one
    of an unwritten exercise: [X86TypeCheckError] is turned into [None],
    the loop always leaves an info behind when there are operands, and
    nothing else is raised.  With the exercises written it always
    returns. *)
Theorem TypeCheckInstruction_opt_raises_only_ExerciseError
    (instr : Instruction) (aops : list AOTElt) (e : exn) :
  TypeCheckInstruction_opt instr aops = Raise e ->
  solved = false /\ exists str, e = ExerciseError str.
Proof. apply TypeCheckInstruction_opt_raises. Qed.

(** ** The source as shipped *)

Lemma visit_shipped (check_sizes : bool) (op : Operand) (enc : X86AOTDL)
    (r : option TypeCheckInfo) :
  solved = false -> visit check_sizes op enc = Ok r -> r = None.
Proof.
  intros Hs.
  assert (Hx : forall str (body : res (option TypeCheckInfo)),
             exercise str body = Ok r -> r = None).
  { intros str body. unfold exercise. rewrite Hs. discriminate. }
  destruct enc as [v | v | a | g m | a | a | yes no | yes no]; cbn [visit];
    try (apply Hx).
  - unfold visit_Exact.
    destruct (Operand_eqb op v); [apply Hx | congruence].
  - unfold visit_ExactSeg.
    repeat match goal with
           | |- context [if ?c then _ else _] => destruct c
           | |- context [match ?x with _ => _ end] => destruct x
           end; try apply Hx; congruence.
  - unfold visit_GPart.
    destruct (same_type op a); [apply Hx | congruence].
  - unfold visit_RegOrMem.
    repeat match goal with
           | |- context [if ?c then _ else _] => destruct c
           | |- context [match ?x with _ => _ end] => destruct x
           end; try apply Hx; congruence.
  - unfold visit_Immediate_MemExpr, visit_Immediate_FarTarget,
      visit_Immediate_Immediate, visit_Immediate_JccTarget, Default.
    repeat match goal with
           | |- context [if ?c then _ else _] => destruct c
           | |- context [match ?x with _ => _ end] => destruct x
           end; try apply Hx; congruence.
  - unfold visit_Immediate_JccTarget, visit_SignExtImm_Iw,
      visit_SignExtImm_Id, Default.
    destruct a;
    repeat match goal with
           | |- context [if ?c then _ else _] => destruct c
           | |- context [match ?x with _ => _ end] => destruct x
           end; try apply Hx; congruence.
Qed.

(** X12: in the source as shipped the type checker accepts an operand
    tuple only when there is no operand to check: every accepting branch
    of the visit methods raises [ExerciseError], so
    [TypeCheckInstruction_opt] returns a triple exactly for an
    instruction without operands against the empty tuple, and the triple
    asks for no prefix. *)
Theorem shipped_typechecker_accepts_no_operand (instr : Instruction)
    (aops : list AOTElt) (v : bool * bool * option SegElt) :
  solved = false ->
  (TypeCheckInstruction_opt instr aops = Ok (Some v)
   <-> operands instr = [] /\ aops = [] /\ v = (false, false, None)).
Proof.
  intros Hs. unfold TypeCheckInstruction_opt, TypeCheckInstruction_exn, NumOps.
  split.
  - destruct (Nat.eqb_spec (List.length aops) (List.length (operands instr)))
      as [Hlen | Hlen]; cbn [negb]; [| discriminate].
    destruct aops as [| aop aops]; cbn [List.length Nat.eqb].
    + intros R. injection R as <-.
      destruct (operands instr); [auto | discriminate Hlen].
    + destruct (operands instr) as [| op ops]; [discriminate Hlen |].
      cbn [check_operands]. unfold res_bind.
      destruct (check aop op) as [[ti |] | e] eqn:Ec.
      * apply (visit_shipped _ _ _ Hs) in Ec. discriminate Ec.
      * discriminate.
      * apply check_raises in Ec as (_ & str & ->). discriminate.
  - intros (-> & -> & ->). reflexivity.
Qed.


Lemma opcheck_comm {A} (eqb : A -> A -> bool)
    (Heqb : forall x y, eqb x y = true <-> x = y)
    (a b : option A) (str : string) :
  opcheck eqb a b str = opcheck eqb b a str.
Proof.
  unfold opcheck. destruct a as [x |], b as [y |]; try reflexivity.
  destruct (eqb x y) eqn:E, (eqb y x) eqn:E'; try reflexivity.
  - apply Heqb in E. subst. reflexivity.
  - apply Heqb in E. subst.
    assert (eqb y y = true) by (apply Heqb; reflexivity). congruence.
  - apply Heqb in E'. subst.
    assert (eqb x x = true) by (apply Heqb; reflexivity). congruence.
Qed.

Lemma opcheck_same {A} (eqb : A -> A -> bool)
    (Heqb : forall x y, eqb x y = true <-> x = y)
    (a : option A) (str : string) :
  opcheck eqb a a str = Ok a.
Proof.
  unfold opcheck. destruct a as [x |]; [| reflexivity].
  assert (eqb x x = true) as -> by (apply Heqb; reflexivity). reflexivity.
Qed.

(** X10: [reduce_typeinfo] is commutative, with the same exception in
    both orders when it raises; it is idempotent; and the info of
    [MATCHES()] is neutral for it. *)
Theorem reduce_typeinfo_algebra (t1 t2 : TypeCheckInfo) :
  reduce_typeinfo t1 t2 = reduce_typeinfo t2 t1
  /\ reduce_typeinfo t1 t1 = Ok t1
  /\ reduce_typeinfo MATCHES t1 = Ok t1
  /\ reduce_typeinfo t1 MATCHES = Ok t1.
Proof.
  split; [| split; [| split]].
  - unfold reduce_typeinfo.
    rewrite (opcheck_comm _ Bool.eqb_true_iff (sizeo t1)),
      (opcheck_comm _ Bool.eqb_true_iff (addro t1)),
      (opcheck_comm _ TypeCheckerFacts.SegElt_eqb_eq (sego t1)).
    reflexivity.
  - unfold reduce_typeinfo.
    rewrite !(opcheck_same _ Bool.eqb_true_iff),
      (opcheck_same _ TypeCheckerFacts.SegElt_eqb_eq).
    destruct t1; reflexivity.
  - destruct t1 as [[s |] [a |] [g |]]; reflexivity.
  - destruct t1 as [[s |] [a |] [g |]]; reflexivity.
Qed.

(** ** The order of the operand positions *)

Lemma check_total (aop : AOTElt) (op : Operand) :
  solved = true -> exists r, check aop op = Ok r.
Proof.
  intros Hs. destruct (check aop op) as [r | e] eqn:E; [eauto |].
  apply check_raises in E as (Hf & _). congruence.
Qed.

(** A position whose operand does not match makes the loop raise
    [X86TypeCheckError], at that position or before it. *)
Lemma check_operands_mismatch (aops : list AOTElt) (ops : list Operand)
    (last_ti : option TypeCheckInfo) :
  solved = true ->
  Exists (fun p => check (fst p) (snd p) = Ok None) (combine aops ops) ->
  exists e, check_operands aops ops last_ti = Raise e
            /\ is_X86TypeCheckError e.
Proof.
  intros Hs. revert ops last_ti.
  induction aops as [| aop aops IH]; intros [| op ops] last_ti Hex;
    cbn [combine] in Hex; try (inversion Hex; fail).
  cbn [check_operands]. unfold res_bind.
  destruct (check_total aop op Hs) as ([ti |] & Ec); rewrite Ec.
  2:{ eexists. split; [reflexivity | exact I]. }
  assert (Hex' : Exists (fun p => check (fst p) (snd p) = Ok None)
                        (combine aops ops)).
  { inversion Hex as [p l Hp | p l Hl]; subst; [| exact Hl].
    cbn [fst snd] in Hp. congruence. }
  destruct last_ti as [l |]; [| apply IH; exact Hex'].
  destruct (reduce_typeinfo l ti) as [t | e] eqn:Er; [apply IH; exact Hex' |].
  exists e. split; [reflexivity |].
  apply TypeCheckerFacts.reduce_typeinfo_Raise in Er. tauto.
Qed.

Lemma infos_exist (l : list (AOTElt * Operand)) :
  solved = true ->
  ~ Exists (fun p => check (fst p) (snd p) = Ok None) l ->
  exists tis,
    Forall2 (fun p ti => check (fst p) (snd p) = Ok (Some ti)) l tis.
Proof.
  intros Hs. induction l as [| p l IH]; intros Hn.
  - exists []. constructor.
  - destruct (check_total (fst p) (snd p) Hs) as ([ti |] & Ec).
    + destruct IH as (tis & Htis).
      { intros Hex. apply Hn. apply Exists_cons_tl. exact Hex. }
      exists (ti :: tis). constructor; assumption.
    + exfalso. apply Hn. apply Exists_cons_hd. exact Ec.
Qed.

(** What [TypeCheckInstruction_opt] makes of the outcome of the fold. *)
Lemma opt_of_reduction (instr : Instruction) (aops : list AOTElt)
    (t0 : TypeCheckInfo) (tis : list TypeCheckInfo) :
  List.length aops = NumOps instr ->
  operand_infos aops (operands instr) (t0 :: tis) ->
  TypeCheckInstruction_opt instr aops
  = match reduce_list t0 tis with
    | Ok t => Ok (Some (is_True (sizeo t), is_True (addro t), sego t))
    | Raise (X86TypeCheckError _) => Ok None
    | Raise e => Raise e
    end.
Proof.
  intros Hlen Hti. unfold NumOps in Hlen.
  unfold TypeCheckInstruction_opt, TypeCheckInstruction_exn, NumOps.
  rewrite Hlen, Nat.eqb_refl. cbn [negb].
  unfold operand_infos in Hti.
  destruct aops as [| aop aops]; [inversion Hti |].
  destruct (operands instr) as [| op ops]; [inversion Hti |].
  cbn [combine] in Hti.
  inversion Hti as [| p t1 ps tis1 Hc Hrest]; subst. cbn [fst snd] in Hc.
  cbn [List.length Nat.eqb check_operands]. rewrite Hc. cbn [res_bind].
  rewrite (@TypeCheckerFacts.check_operands_reduce _ aops ops tis t0);
    [| simpl in Hlen; lia | exact Hrest].
  destruct (reduce_list t0 tis) as [t | e]; reflexivity.
Qed.

Lemma constrained_or_not {A} (vals : list (option A)) :
  unconstrained vals \/ exists x, In (Some x) vals.
Proof.
  induction vals as [| [x |] vals IH].
  - left. intros v [].
  - right. exists x. left. reflexivity.
  - destruct IH as [U | (x & Hx)].
    + left. intros v [<- | Hv]; [reflexivity | apply U; exact Hv].
    + right. exists x. right. exact Hx.
Qed.

Lemma field_reduced_perm {A} (vals vals' : list (option A))
    (r r' : option A) :
  Permutation vals vals' ->
  field_reduced vals r -> field_reduced vals' r' -> r = r'.
Proof.
  intros P [Hu Hs] [Hu' Hs'].
  destruct (constrained_or_not vals) as [U | (x & Hx)].
  - rewrite (Hu U). symmetry. apply Hu'.
    intros v Hv. apply U. apply Permutation_in with (l := vals'); auto.
    apply Permutation_sym. exact P.
  - rewrite (Hs x Hx). symmetry. apply Hs'.
    apply Permutation_in with (l := vals); assumption.
Qed.

Lemma conflict_perm {A} (vals vals' : list (option A)) :
  Permutation vals vals' -> conflict vals -> conflict vals'.
Proof.
  intros P (x & y & Hx & Hy & N). exists x, y.
  repeat split; try assumption; apply Permutation_in with (l := vals);
    assumption.
Qed.

(** The fold over a permutation of the infos: the same info, or an
    [X86TypeCheckError] in both orders. *)
Lemma reduce_list_perm (t0 t0' : TypeCheckInfo) (tis tis' : list TypeCheckInfo) :
  Permutation (t0 :: tis) (t0' :: tis') ->
  match reduce_list t0 tis, reduce_list t0' tis' with
  | Ok t, Ok t' => t = t'
  | Raise e, Raise e' => is_X86TypeCheckError e /\ is_X86TypeCheckError e'
  | _, _ => False
  end.
Proof.
  intros P.
  pose proof (Permutation_map sizeo P) as Ps.
  pose proof (Permutation_map addro P) as Pa.
  pose proof (Permutation_map sego P) as Pg.
  destruct (reduce_list t0 tis) as [t | e] eqn:R;
    destruct (reduce_list t0' tis') as [t' | e'] eqn:R'.
  - apply TypeCheckerFacts.reduce_list_Ok in R as ((_ & Rs) & (_ & Ra) & (_ & Rg)).
    apply TypeCheckerFacts.reduce_list_Ok in R' as ((_ & Rs') & (_ & Ra') & (_ & Rg')).
    pose proof (field_reduced_perm Ps Rs Rs') as Es.
    pose proof (field_reduced_perm Pa Ra Ra') as Ea.
    pose proof (field_reduced_perm Pg Rg Rg') as Eg.
    destruct t, t'. cbn [sizeo addro sego] in *. congruence.
  - apply TypeCheckerFacts.reduce_list_Ok in R as ((Ns & _) & (Na & _) & (Ng & _)).
    apply TypeCheckerFacts.reduce_list_Raise in R' as (_ & C).
    apply Permutation_sym in Ps, Pa, Pg.
    destruct C as [C | [C | C]]; eauto using conflict_perm.
  - apply TypeCheckerFacts.reduce_list_Ok in R' as ((Ns & _) & (Na & _) & (Ng & _)).
    apply TypeCheckerFacts.reduce_list_Raise in R as (_ & C).
    destruct C as [C | [C | C]]; eauto using conflict_perm.
  - apply TypeCheckerFacts.reduce_list_Raise in R as (He & _).
    apply TypeCheckerFacts.reduce_list_Raise in R' as (He' & _). auto.
Qed.

(** X11: with the exercises written, the answer of
    [TypeCheckInstruction_opt] does not depend on the order of the
    operand positions: listing the abstract operand types and the
    operands in another order, together, gives the same triple or
    [None]. *)
Theorem TypeCheckInstruction_opt_permutation (instr instr' : Instruction)
    (aops aops' : list AOTElt) :
  solved = true ->
  List.length aops = NumOps instr ->
  List.length aops' = NumOps instr' ->
  Permutation (combine aops (operands instr))
              (combine aops' (operands instr')) ->
  TypeCheckInstruction_opt instr aops = TypeCheckInstruction_opt instr' aops'.
Proof.
  intros Hs Hlen Hlen' P.
  set (bad := fun p : AOTElt * Operand => check (fst p) (snd p) = Ok None).
  assert (Hdec : forall l, {Exists bad l} + {~ Exists bad l}).
  { intros l. apply Exists_dec. intros p. unfold bad.
    destruct (check (fst p) (snd p)) as [[t |] |];
      [right; discriminate | left; reflexivity | right; discriminate]. }
  assert (Hbad : forall i a, List.length a = NumOps i ->
            Exists bad (combine a (operands i)) ->
            TypeCheckInstruction_opt i a = Ok None).
  { intros i a Hl Hex.
    destruct (@check_operands_mismatch a (operands i) None Hs Hex)
      as (e & Ee & He).
    unfold TypeCheckInstruction_opt, TypeCheckInstruction_exn.
    rewrite Ee, Hl, Nat.eqb_refl. cbn [negb res_bind].
    destruct a as [| aop a]; [inversion Hex |].
    rewrite <- Hl. cbn [List.length Nat.eqb].
    destruct e; try contradiction. reflexivity. }
  destruct (Hdec (combine aops (operands instr))) as [Hex | Hn].
  - rewrite (Hbad _ _ Hlen Hex). symmetry. apply Hbad; [exact Hlen' |].
    apply Exists_exists in Hex as (p & Hp & Hb). apply Exists_exists.
    exists p. split; [| exact Hb]. apply Permutation_in with (1 := P). exact Hp.
  - destruct (infos_exist Hs Hn) as (tis & Htis).
    destruct (Permutation_Forall2 P Htis) as (tis' & Pt & Htis').
    destruct tis as [| t0 tis].
    + apply Permutation_nil in Pt. subst tis'.
      inversion Htis as [E1 E2 |]. inversion Htis' as [E1' E2' |].
      assert (Ha : aops = []).
      { destruct aops as [| x aops]; [reflexivity |].
        unfold NumOps in Hlen.
        destruct (operands instr); [discriminate Hlen | discriminate E1]. }
      assert (Ha' : aops' = []).
      { destruct aops' as [| x aops']; [reflexivity |].
        unfold NumOps in Hlen'.
        destruct (operands instr'); [discriminate Hlen' | discriminate E1']. }
      subst. unfold TypeCheckInstruction_opt, TypeCheckInstruction_exn.
      rewrite <- Hlen, <- Hlen'. reflexivity.
    + destruct tis' as [| t0' tis'].
      { apply Permutation_sym, Permutation_nil in Pt. discriminate Pt. }
      rewrite (@opt_of_reduction instr aops t0 tis Hlen Htis).
      rewrite (@opt_of_reduction instr' aops' t0' tis' Hlen' Htis').
      pose proof (reduce_list_perm Pt) as Hp.
      destruct (reduce_list t0 tis) as [t | e];
        destruct (reduce_list t0' tis') as [t' | e']; try contradiction.
      * subst. reflexivity.
      * destruct Hp as [He He'].
        destruct e; try contradiction. destruct e'; try contradiction.
        reflexivity.
Qed.

(** ** Operand classes *)

Lemma prefixed_None (PFX : bool -> option TypeCheckInfo -> TypeCheckInfo) :
  prefixed PFX (Ok None) (Ok None) = Ok None.
Proof. reflexivity. Qed.

Lemma register_not_immediate (check_sizes : bool) (op : Operand)
    (enc : X86AOTDL) :
  solved = true -> is_Register op = true ->
  immediate_description enc = true -> visit check_sizes op enc = Ok None.
Proof.
  intros Hs Hop.
  induction enc as [v | v | a | g m | a | a | yes IHy no IHn | yes IHy no IHn];
    cbn [immediate_description]; intros Hd; try discriminate Hd.
  - destruct op; try discriminate Hop; destruct a; reflexivity.
  - destruct op; try discriminate Hop; destruct a; reflexivity.
  - apply andb_true_iff in Hd as [Hy Hn]. cbn [visit]. unfold exercise.
    rewrite Hs, (IHy Hy), (IHn Hn). reflexivity.
  - apply andb_true_iff in Hd as [Hy Hn]. cbn [visit]. unfold exercise.
    rewrite Hs, (IHy Hy), (IHn Hn). reflexivity.
Qed.

Lemma immediate_not_register (check_sizes : bool) (op : Operand)
    (enc : X86AOTDL) :
  solved = true -> is_Immediate op = true ->
  register_description enc = true -> visit check_sizes op enc = Ok None.
Proof.
  intros Hs Hop.
  induction enc as [v | v | a | g m | a | a | yes IHy no IHn | yes IHy no IHn];
    cbn [register_description]; intros Hd; try discriminate Hd.
  - destruct op; try discriminate Hop; destruct a; try discriminate Hd;
      reflexivity.
  - destruct g as [r |].
    + destruct op; try discriminate Hop; destruct r; try discriminate Hd;
        destruct m; reflexivity.
    + destruct op; try discriminate Hop; destruct m; reflexivity.
  - apply andb_true_iff in Hd as [Hy Hn]. cbn [visit]. unfold exercise.
    rewrite Hs, (IHy Hy), (IHn Hn). reflexivity.
  - apply andb_true_iff in Hd as [Hy Hn]. cbn [visit]. unfold exercise.
    rewrite Hs, (IHy Hy), (IHn Hn). reflexivity.
Qed.

Lemma nth_error_combine {A B} (l1 : list A) (l2 : list B) (k : nat)
    (x : A) (y : B) :
  nth_error l1 k = Some x -> nth_error l2 k = Some y ->
  In (x, y) (combine l1 l2).
Proof.
  revert l1 l2. induction k as [| k IH]; intros [| a l1] [| b l2] H1 H2;
    try discriminate; cbn [nth_error combine] in *.
  - injection H1 as ->. injection H2 as ->. left. reflexivity.
  - right. apply IH; assumption.
Qed.

(** X22: with the exercises written, the operand classes are kept
    apart: an instruction with a register where the tuple describes an
    immediate, or with an immediate where the tuple describes a register
    or a register or memory location, does not type-check against the
    tuple, whatever the other operands are. *)
Theorem operand_classes_kept_apart (instr : Instruction)
    (aops : list AOTElt) (k : nat) (aop : AOTElt) (op : Operand) :
  solved = true ->
  nth_error aops k = Some aop ->
  nth_error (operands instr) k = Some op ->
  (is_Register op = true /\ immediate_description (AOTtoAOTDL aop) = true)
  \/ (is_Immediate op = true /\ register_description (AOTtoAOTDL aop) = true) ->
  TypeCheckInstruction_opt instr aops = Ok None.
Proof.
  intros Hs Ha Ho Hc.
  assert (Hbad : check aop op = Ok None).
  { unfold check.
    destruct Hc as [[H1 H2] | [H1 H2]];
      [apply register_not_immediate | apply immediate_not_register];
      assumption. }
  unfold TypeCheckInstruction_opt, TypeCheckInstruction_exn, NumOps.
  destruct (Nat.eqb_spec (List.length aops) (List.length (operands instr)))
    as [Hlen | Hlen]; cbn [negb]; [| reflexivity].
  destruct aops as [| aop0 aops]; [destruct k; discriminate Ha |].
  cbn [List.length Nat.eqb].
  destruct (@check_operands_mismatch (aop0 :: aops) (operands instr) None Hs)
    as (e & Ee & He).
  { apply Exists_exists. exists (aop, op). split; [| exact Hbad].
    eapply nth_error_combine; eassumption. }
  rewrite Ee. cbn [res_bind]. destruct e; try contradiction. reflexivity.
Qed.

End Facts.

(** ** The theorems at concrete instructions *)

Lemma TypeCheckInstruction_opt_raises_only_ExerciseError_witness :
  @TypeCheckInstruction_opt as_shipped Add_Ebx_5 eEvIz
    = Raise (ExerciseError "X86TypeChecker::visit_SizePrefix")
  /\ @solved as_shipped = false
  /\ exists str,
       ExerciseError "X86TypeChecker::visit_SizePrefix" = ExerciseError str.
Proof.
  split; [reflexivity |].
  exact (@TypeCheckInstruction_opt_raises_only_ExerciseError as_shipped
           Add_Ebx_5 eEvIz _ eq_refl).
Defined.

Lemma TypeCheckInstruction_opt_permutation_witness :
  let m := Mem16 ES Mw (Some Bx) None None in
  let instr := {| prefixes := []; mnem := Add; operands := [m; Iw 5] |} in
  let instr' := {| prefixes := []; mnem := Add; operands := [Iw 5; m] |} in
  @TypeCheckInstruction_opt exercises_done instr [OEv; OIz]
    = Ok (Some (true, true, Some ES))
  /\ @TypeCheckInstruction_opt exercises_done instr' [OIz; OEv]
     = Ok (Some (true, true, Some ES)).
Proof.
  intros m instr instr'.
  assert (E : @TypeCheckInstruction_opt exercises_done instr [OEv; OIz]
              = Ok (Some (true, true, Some ES))) by reflexivity.
  split; [exact E |]. rewrite <- E. symmetry.
  apply (@TypeCheckInstruction_opt_permutation exercises_done instr instr'
           [OEv; OIz] [OIz; OEv]).
  - reflexivity.
  - reflexivity.
  - reflexivity.
  - apply perm_swap.
Defined.

Lemma shipped_typechecker_accepts_no_operand_witness :
  let instr := {| prefixes := []; mnem := Daa; operands := [] |} in
  @TypeCheckInstruction_opt as_shipped instr eNone
    = Ok (Some (false, false, None))
  /\ operands instr = [] /\ eNone = [] /\ (false, false, @None SegElt) = (false, false, None).
Proof.
  intros instr. split; [reflexivity |].
  apply (proj1 (@shipped_typechecker_accepts_no_operand as_shipped instr eNone
                  (false, false, None) eq_refl)).
  reflexivity.
Defined.

Lemma operand_classes_kept_apart_witness :
  let instr := {| prefixes := []; mnem := Add;
                  operands := [Gd Ebx; Gd Ecx] |} in
  @TypeCheckInstruction_opt exercises_done instr [OEv; OIz] = Ok None.
Proof.
  intros instr.
  refine (@operand_classes_kept_apart exercises_done instr [OEv; OIz]
            1%nat OIz (Gd Ecx) _ _ _ _).
  - reflexivity.
  - reflexivity.
  - reflexivity.
  - left. split; reflexivity.
Defined.

End TypeCheckerAlgebra.

(* ===================================================================== *)
(** * The encoder: failures, sequences and the bytes returned *)
(* ===================================================================== *)

Module EncoderOutcomes.
Import Encoder.

Section Facts.
Context `{Setting} `{ModRMCodec}.

(** ** A sequence of instructions *)

(** X13: [EncodeInstructions] on a list put together from two lists
    encodes the first list at the address given and the second at that
    address advanced by the number of bytes of the first; the bytes are
    those of the first followed by those of the second, and the first
    exception met is the exception of the whole. *)
Theorem EncodeInstructions_app (l1 l2 : list Instruction) (a : Z) :
  EncodeInstructions (l1 ++ l2) a
  = (b1 <- EncodeInstructions l1 a ;;
     b2 <- EncodeInstructions l2 (a + Z.of_nat (List.length b1)) ;;
     Ok (b1 ++ b2))%res.
Proof.
  revert a. induction l1 as [| i l1 IH]; intros a; cbn [app EncodeInstructions].
  - cbn [res_bind List.length Z.of_nat]. rewrite Z.add_0_r.
    destruct (EncodeInstructions l2 a); reflexivity.
  - destruct (EncodeInstruction i a) as [enc | e]; cbn [res_bind]; [| reflexivity].
    rewrite IH.
    destruct (EncodeInstructions l1 (a + Z.of_nat (List.length enc)))
      as [b1 | e]; cbn [res_bind]; [| reflexivity].
    rewrite length_app, Nat2Z.inj_add, Z.add_assoc.
    destruct (EncodeInstructions l2 _) as [b2 | e]; cbn [res_bind];
      [| reflexivity].
    rewrite app_assoc. reflexivity.
Qed.

(** ** [InvalidInstruction] *)

Lemma try_encodings_none (instr : Instruction) (a : Z) (encs : list X86Enc) :
  Forall (fun enc => TypeChecker.TypeCheckInstruction_opt instr (enc_ops enc)
                     = Ok None) encs ->
  try_encodings instr a encs = Raise InvalidInstruction.
Proof.
  induction 1 as [| enc encs He _ IH]; cbn [try_encodings]; [reflexivity |].
  rewrite He. exact IH.
Qed.

Lemma count_mismatch (instr : Instruction) (aops : list AOTElt) :
  List.length aops <> NumOps instr ->
  TypeChecker.TypeCheckInstruction_opt instr aops = Ok None.
Proof.
  intros Hne.
  unfold TypeChecker.TypeCheckInstruction_opt,
    TypeChecker.TypeCheckInstruction_exn.
  destruct (Nat.eqb_spec (List.length aops) (NumOps instr)); [contradiction |].
  reflexivity.
Qed.

Section Codec.

(** What follows from [InvalidInstruction] raised by a method of the
    ModRM classes follows from [InvalidInstruction] raised by the
    encoding of a candidate: no statement of the encoder's own raises
    it there. *)
Variable Q : Prop.
Hypothesis EncodeFromParts16_Q : forall b i d m,
  EncodeFromParts16 b i d m = Raise InvalidInstruction -> Q.
Hypothesis EncodeFromParts32_Q : forall b i sc d m,
  EncodeFromParts32 b i sc d m = Raise InvalidInstruction -> Q.
Hypothesis Encode_Q : forall m, Encode m = Raise InvalidInstruction -> Q.

Lemma exercise_other {A} (str : string) (body : res A) :
  (body = Raise InvalidInstruction -> Q) ->
  exercise str body = Raise InvalidInstruction -> Q.
Proof. unfold exercise. destruct solved; [auto | discriminate]. Qed.

Lemma on_ModRM_other (f : ModRM -> res ModRM) (s : X86Encoder) :
  (forall m, f m = Raise InvalidInstruction -> Q) ->
  on_ModRM f s = Raise InvalidInstruction -> Q.
Proof.
  intros Hf. unfold on_ModRM, res_bind.
  destruct (f _) as [m' | e] eqn:E; [discriminate |].
  intros R. injection R as ->. exact (Hf _ E).
Qed.

Lemma Immediate_value_other (op : Operand) (f : Z -> X86Encoder) :
  (v <- Immediate_value op ;; Ok (f v))%res = Raise InvalidInstruction -> Q.
Proof. destruct op; discriminate. Qed.

Ltac other :=
  repeat first
    [ apply exercise_other
    | apply Immediate_value_other
    | apply on_ModRM_other; intro
    | apply EncodeFromParts16_Q
    | apply EncodeFromParts32_Q
    | discriminate
    | match goal with
      | |- context [if ?c then _ else _] => destruct c
      | |- context [match ?x with _ => _ end] => destruct x
      end ].

Lemma visit_other (enc : X86AOTDL) (op : Operand) (s : X86Encoder) :
  visit op enc s = Raise InvalidInstruction -> Q.
Proof.
  revert s. induction enc as [v | v | a | g m | a | a | yes IHy no IHn
                             | yes IHy no IHn]; intros s; cbn [visit].
  - unfold visit_Exact. other.
  - unfold visit_ExactSeg. other.
  - unfold visit_GPart. other.
  - unfold visit_RegOrMem_Register, visit_RegOrMem_Mem16,
      visit_RegOrMem_Mem32, Default.
    destruct (is_Register op); [other |]. destruct op; other.
  - unfold visit_Immediate_MemExpr, visit_Immediate_FarTarget,
      visit_Immediate_Ib, visit_Immediate_Iw, visit_Immediate_Id,
      visit_Immediate_JccTarget, Default.
    destruct (is_MemExpr a); [other |].
    destruct (is_FarTarget a); [other |].
    destruct a; other.
  - unfold visit_Immediate_Ib, visit_Immediate_JccTarget.
    destruct a; other.
  - apply exercise_other. destruct (sizepfx s); [apply IHy | apply IHn].
  - apply exercise_other. destruct (addrpfx s); [apply IHy | apply IHn].
Qed.

Lemma visit_operands_other (aops : list AOTElt) (ops : list Operand)
    (s : X86Encoder) :
  visit_operands aops ops s = Raise InvalidInstruction -> Q.
Proof.
  revert ops s. induction aops as [| aop aops IH]; intros [| op ops] s;
    cbn [visit_operands]; try discriminate.
  unfold res_bind.
  destruct (visit op (AOTtoAOTDL aop) s) as [s1 | e] eqn:V; [apply IH |].
  intros R. injection R as ->. exact (visit_other _ _ _ V).
Qed.

Lemma encode_with_other (instr : Instruction) (a : Z) (enc : X86Enc)
    (val : bool * bool * option SegElt) :
  encode_with instr a enc val = Raise InvalidInstruction -> Q.
Proof.
  destruct val as [[v0 v1] v2].
  unfold encode_with, encode_state, res_bind.
  destruct (enc_Encode enc _) as [s1 | e] eqn:E1.
  - destruct (visit_operands _ _ s1) as [s2 | e] eqn:E2.
    + unfold collect, modrm_bytes, res_bind.
      destruct (_modrm s2) as [m |]; [| discriminate].
      destruct (Encode m) as [bs | e] eqn:Em; [discriminate |].
      intros R. injection R as ->. exact (Encode_Q _ Em).
    + intros R. injection R as ->. exact (visit_operands_other _ _ _ E2).
  - intros R. injection R as ->. revert E1.
    destruct enc; cbn [enc_Encode]; other.
Qed.

End Codec.

(** The candidates the loop of [EncodeInstruction] goes through when it
    raises [InvalidInstruction]. *)
Lemma try_encodings_InvalidInstruction (instr : Instruction) (a : Z)
    (encs : list X86Enc) :
  try_encodings instr a encs = Raise InvalidInstruction ->
  Forall (fun enc => TypeChecker.TypeCheckInstruction_opt instr (enc_ops enc)
                     = Ok None) encs
  \/ exists pre enc post val,
       encs = pre ++ enc :: post
       /\ Forall (fun e => TypeChecker.TypeCheckInstruction_opt instr (enc_ops e)
                           = Ok None) pre
       /\ TypeChecker.TypeCheckInstruction_opt instr (enc_ops enc)
          = Ok (Some val)
       /\ encode_with instr a enc val = Raise InvalidInstruction.
Proof.
  induction encs as [| enc encs IH]; cbn [try_encodings];
    [left; constructor |].
  destruct (TypeChecker.TypeCheckInstruction_opt instr (enc_ops enc))
    as [[val |] | e] eqn:T; cbn [res_bind].
  - intros R. right. exists [], enc, encs, val.
    split; [reflexivity |]. split; [constructor |]. split; assumption.
  - intros R. destruct (IH R) as [Hall | (pre & e & post & val & -> & Hp & Ht & He)].
    + left. constructor; assumption.
    + right. exists (enc :: pre), e, post, val.
      split; [reflexivity |]. split; [constructor; assumption |].
      split; assumption.
  - intros R. injection R as ->.
    apply TypeCheckerAlgebra.TypeCheckInstruction_opt_raises in T
      as (_ & str & Hstr).
    discriminate Hstr.
Qed.

(** X14: for a mnemonic that has a list of candidates,
    [EncodeInstruction] raises [InvalidInstruction] exactly when the type
    checker returns [None] for every candidate, or the encoding of the
    first candidate the type checker accepts raises it; the encoding of a
    candidate raises it only through a method of the ModRM classes
    ([EncodeFromParts], [Encode]), whatever these are; and the type
    checker returns [None] for a candidate whose number of operands is
    not the instruction's, so that an instruction with no candidate of
    its number of operands raises it. *)
Theorem InvalidInstruction_iff_no_candidate_or_ModRM
    (instr : Instruction) (a : Z) :
  (EncodeInstruction instr a = Raise InvalidInstruction
   <-> Forall (fun enc => TypeChecker.TypeCheckInstruction_opt instr
                            (enc_ops enc) = Ok None)
              (mnem_to_encodings (mnem instr))
       \/ exists pre enc post val,
            mnem_to_encodings (mnem instr) = pre ++ enc :: post
            /\ Forall (fun e => TypeChecker.TypeCheckInstruction_opt instr
                                  (enc_ops e) = Ok None) pre
            /\ TypeChecker.TypeCheckInstruction_opt instr (enc_ops enc)
               = Ok (Some val)
            /\ encode_with instr a enc val = Raise InvalidInstruction)
  /\ (forall enc val,
        encode_with instr a enc val = Raise InvalidInstruction ->
        ModRM_raises InvalidInstruction)
  /\ (forall aops,
        List.length aops <> NumOps instr ->
        TypeChecker.TypeCheckInstruction_opt instr aops = Ok None)
  /\ (Forall (fun enc => List.length (enc_ops enc) <> NumOps instr)
             (mnem_to_encodings (mnem instr)) ->
      EncodeInstruction instr a = Raise InvalidInstruction).
Proof.
  unfold EncodeInstruction. split; [split |].
  - apply try_encodings_InvalidInstruction.
  - intros [Hall | (pre & enc & post & val & Htab & Hpre & Htc & He)].
    + apply try_encodings_none. exact Hall.
    + rewrite Htab.
      rewrite (@EncoderFacts.try_encodings_first _ _ instr a pre enc post val
                 Hpre Htc).
      exact He.
  - split; [| split].
    + intros enc val.
      apply (@encode_with_other (ModRM_raises InvalidInstruction)).
      * intros b i d m E. left. exists b, i, d, m. exact E.
      * intros b i sc d m E. right. left. exists b, i, sc, d, m. exact E.
      * intros m E. right. right. exists m. exact E.
    + intros aops. apply count_mismatch.
    + intros Hall. apply try_encodings_none.
      eapply Forall_impl; [| exact Hall].
      intros enc Hne. apply count_mismatch. exact Hne.
Qed.

(** ** Instructions without operands *)

(** X15: with the exercises written, an instruction without operands is
    encoded with the first candidate of its mnemonic that takes no
    operand, the candidates with operands being skipped: the bytes are
    the stem for an [Ordinary] encoding, [0x66] and the stem for a
    [Native16] one, and the stem and the ModRM byte holding [ggg] for a
    [ModRMGroup] one; they do not depend on the address. *)
Theorem no_operand_instruction_is_its_stem (instr : Instruction) (a : Z)
    (pre : list X86Enc) (enc : X86Enc) (post : list X86Enc) :
  solved = true ->
  operands instr = [] ->
  mnem_to_encodings (mnem instr) = pre ++ enc :: post ->
  Forall (fun e => enc_ops e <> []) pre ->
  enc_ops enc = [] ->
  EncodeInstruction instr a
  = match enc with
    | Ordinary b _ => Ok b
    | Native16 b _ => Ok (0x66 :: b)
    | ModRMGroup ggg b _ =>
        (m <- Encode (set_GGG ggg ModRM32) ;; Ok (b ++ m))%res
    end.
Proof.
  intros Hs Hops Htab Hpre Henc. unfold EncodeInstruction. rewrite Htab.
  rewrite (@EncoderFacts.try_encodings_first _ _ instr a pre enc post
             (false, false, None)).
  - unfold encode_with, encode_state. rewrite Henc, Hops.
    destruct enc as [b o | b o | g b o]; cbn [enc_Encode enc_bytes];
      unfold exercise; rewrite Hs.
    + cbn. rewrite !app_nil_r. reflexivity.
    + cbn. rewrite !app_nil_r. reflexivity.
    + cbn. unfold collect, modrm_bytes. cbn.
      destruct (Encode _); cbn; [rewrite !app_nil_r |]; reflexivity.
  - eapply Forall_impl; [| exact Hpre].
    intros e Hne. cbv beta in Hne. apply count_mismatch.
    unfold NumOps. rewrite Hops.
    destruct (enc_ops e); [exfalso; apply Hne; reflexivity | discriminate].
  - unfold TypeChecker.TypeCheckInstruction_opt,
      TypeChecker.TypeCheckInstruction_exn, NumOps.
    rewrite Henc, Hops. reflexivity.
Qed.

(** ** Jump targets *)

Lemma little_endian_value (v : Z) (n k : nat) :
  le_value (map (fun i => Z.land (Z.shiftr v (8 * Z.of_nat i)) 0xFF) (seq k n))
  = Z.shiftr v (8 * Z.of_nat k) mod 2 ^ (8 * Z.of_nat n).
Proof.
  revert k. induction n as [| n IH]; intros k; cbn [seq map le_value].
  - change (8 * Z.of_nat 0) with 0. rewrite Z.pow_0_r, Z.mod_1_r. reflexivity.
  - rewrite IH.
    replace (8 * Z.of_nat (S n)) with (8 + 8 * Z.of_nat n) by lia.
    rewrite Z.pow_add_r by lia.
    change 0xFF with (Z.ones 8). rewrite Z.land_ones by lia.
    replace (8 * Z.of_nat (S k)) with (8 * Z.of_nat k + 8) by lia.
    rewrite <- Z.shiftr_shiftr by lia.
    rewrite (Z.shiftr_div_pow2 (Z.shiftr v (8 * Z.of_nat k)) 8) by lia.
    symmetry. apply Z.rem_mul_r; lia.
Qed.

Lemma le_value_little_endian_bytes (v : Z) (n : nat) :
  le_value (little_endian_bytes v n) = v mod 2 ^ (8 * Z.of_nat n).
Proof.
  unfold little_endian_bytes. rewrite little_endian_value.
  change (8 * Z.of_nat 0) with 0. rewrite Z.shiftr_0_r. reflexivity.
Qed.

Lemma length_little_endian_bytes (v : Z) (n : nat) :
  List.length (little_endian_bytes v n) = n.
Proof. unfold little_endian_bytes. rewrite length_map, length_seq. reflexivity. Qed.

Lemma skipn_all_but (p q : list Z) :
  skipn (List.length (p ++ q) - List.length q) (p ++ q) = q.
Proof.
  rewrite length_app.
  replace (List.length p + List.length q - List.length q)%nat
    with (List.length p) by lia.
  rewrite skipn_app, skipn_all, Nat.sub_diag. reflexivity.
Qed.

(** X16: with the exercises written, a jump whose first type-checking
    candidate is an [Ordinary] encoding of a jump target is encoded, to
    the stem and four bytes, and reaches its target: the address after
    the returned bytes plus the displacement held in their last four
    bytes is the taken address modulo [2^32], at every address.  No
    hypothesis is made on the answer of the type checker, which asks no
    prefix for a jump target. *)
Theorem jump_reaches_taken_address (instr : Instruction) (a : Z)
    (pre : list X86Enc) (b : list Z) (aop : AOTElt) (post : list X86Enc)
    (taken not_taken : Z) :
  solved = true ->
  operands instr = [JccTarget taken not_taken] ->
  mnem_to_encodings (mnem instr) = pre ++ Ordinary b [aop] :: post ->
  Forall (fun e => TypeChecker.TypeCheckInstruction_opt instr (enc_ops e)
                   = Ok None) pre ->
  jump_description (AOTtoAOTDL aop) ->
  exists bs,
    EncodeInstruction instr a = Ok bs
    /\ List.length bs = (List.length b + 4)%nat
    /\ firstn (List.length b) bs = b
    /\ decoded_target a bs = taken mod 2 ^ 32.
Proof.
  intros Hs Hops Htab Hpre Hd.
  rewrite (@EncoderFacts.jump_encoded _ _ instr a pre b aop post taken
             not_taken Hs Hops Htab Hpre Hd).
  set (d := (taken - (a + (Z.of_nat (List.length b) + 4))) mod 2 ^ 32).
  exists (b ++ little_endian_bytes d 4). split; [reflexivity |].
  split; [rewrite length_app, length_little_endian_bytes; reflexivity |].
  split.
  { rewrite firstn_app, Nat.sub_diag, firstn_all. cbn [firstn].
    apply app_nil_r. }
  unfold decoded_target.
  rewrite <- (length_little_endian_bytes d 4) at 2.
  rewrite skipn_all_but, le_value_little_endian_bytes.
  rewrite length_app, length_little_endian_bytes.
  change (8 * Z.of_nat 4) with 32.
  unfold d. rewrite Z.mod_mod by lia. rewrite Z.add_mod_idemp_r by lia.
  f_equal. lia.
Qed.

(** ** The address *)

Ltac addr_cases :=
  unfold exercise, on_ModRM, res_bind, with_addr, AppendImmediate,
    Immediate_value, Default;
  cbn [group1pfx stem segpfx addrpfx sizepfx immediates _modrm addr];
  repeat match goal with
         | |- context [if ?c then _ else _] => destruct c
         | |- context [match ?x with _ => _ end] => destruct x
         end;
  try reflexivity; try discriminate.

(** A visit of an operand that is no jump target does not read the
    address. *)
Lemma visit_with_addr (enc : X86AOTDL) (op : Operand) (s : X86Encoder)
    (a' : Z) :
  is_JccTarget op = false ->
  visit op enc (with_addr s a')
  = (s1 <- visit op enc s ;; Ok (with_addr s1 a'))%res.
Proof.
  intros Hop. revert s.
  induction enc as [v | v | g | g m | g | g | yes IHy no IHn | yes IHy no IHn];
    intros s; cbn [visit].
  - unfold visit_Exact. addr_cases.
  - unfold visit_ExactSeg. addr_cases.
  - unfold visit_GPart. addr_cases.
  - unfold visit_RegOrMem_Register, visit_RegOrMem_Mem16,
      visit_RegOrMem_Mem32.
    destruct (is_Register op); [addr_cases |]. destruct op; addr_cases.
  - unfold visit_Immediate_MemExpr, visit_Immediate_FarTarget,
      visit_Immediate_Ib, visit_Immediate_Iw, visit_Immediate_Id,
      visit_Immediate_JccTarget.
    destruct (is_MemExpr g); [destruct op; addr_cases |].
    destruct (is_FarTarget g); [destruct op; addr_cases |].
    destruct g; destruct op; try discriminate Hop; addr_cases.
  - unfold visit_Immediate_Ib, visit_Immediate_JccTarget.
    destruct g; destruct op; try discriminate Hop; addr_cases.
  - unfold exercise. destruct solved; [| reflexivity].
    change (sizepfx (with_addr s a')) with (sizepfx s).
    destruct (sizepfx s); auto.
  - unfold exercise. destruct solved; [| reflexivity].
    change (addrpfx (with_addr s a')) with (addrpfx s).
    destruct (addrpfx s); auto.
Qed.

Lemma visit_operands_with_addr (aops : list AOTElt) (ops : list Operand)
    (s : X86Encoder) (a' : Z) :
  Forall (fun op => is_JccTarget op = false) ops ->
  visit_operands aops ops (with_addr s a')
  = (s1 <- visit_operands aops ops s ;; Ok (with_addr s1 a'))%res.
Proof.
  intros Hops. revert aops s.
  induction Hops as [| op ops Hop _ IH]; intros [| aop aops] s;
    cbn [visit_operands res_bind]; try reflexivity.
  rewrite (@visit_with_addr (AOTtoAOTDL aop) op s a' Hop). unfold res_bind at 1 3.
  destruct (visit op (AOTtoAOTDL aop) s) as [s1 | e]; [apply IH | reflexivity].
Qed.

Lemma enc_Encode_with_addr (enc : X86Enc) (s : X86Encoder) (a' : Z) :
  enc_Encode enc (with_addr s a')
  = (s1 <- enc_Encode enc s ;; Ok (with_addr s1 a'))%res.
Proof. destruct enc; cbn [enc_Encode]; addr_cases. Qed.

Lemma collect_with_addr (s : X86Encoder) (a' : Z) :
  collect (with_addr s a') = collect s.
Proof. reflexivity. Qed.

Lemma encode_with_any_addr (instr : Instruction) (a a' : Z) (enc : X86Enc)
    (val : bool * bool * option SegElt) :
  no_jump_target instr ->
  encode_with instr a' enc val = encode_with instr a enc val.
Proof.
  intros Hno. destruct val as [[v0 v1] v2]. unfold encode_with, encode_state.
  set (s := {| group1pfx := None; stem := enc_bytes enc; segpfx := v2;
               addrpfx := v1; sizepfx := v0; immediates := [];
               _modrm := None; addr := a |}).
  change {| group1pfx := None; stem := enc_bytes enc; segpfx := v2;
            addrpfx := v1; sizepfx := v0; immediates := [];
            _modrm := None; addr := a' |} with (with_addr s a').
  rewrite enc_Encode_with_addr. unfold res_bind.
  destruct (enc_Encode enc s) as [s1 | e]; [| reflexivity].
  rewrite (@visit_operands_with_addr (enc_ops enc) (operands instr) s1 a' Hno).
  unfold res_bind.
  destruct (visit_operands _ _ s1) as [s2 | e]; [| reflexivity].
  apply collect_with_addr.
Qed.

(** X17: the address is read by the visit of a jump target only: an
    instruction none of whose operands is a jump target is encoded to
    the same bytes, or fails with the same exception, at every address;
    so is a list of such instructions. *)
Theorem encoding_ignores_address (instrs : list Instruction) (a a' : Z) :
  Forall no_jump_target instrs ->
  Forall (fun instr => EncodeInstruction instr a' = EncodeInstruction instr a)
         instrs
  /\ EncodeInstructions instrs a' = EncodeInstructions instrs a.
Proof.
  intros Hall.
  assert (H1 : forall instr b b', no_jump_target instr ->
                 EncodeInstruction instr b' = EncodeInstruction instr b).
  { intros instr b b' Hno. unfold EncodeInstruction.
    induction (mnem_to_encodings (mnem instr)) as [| enc encs IH];
      cbn [try_encodings]; [reflexivity |].
    destruct (TypeChecker.TypeCheckInstruction_opt instr (enc_ops enc))
      as [[val |] |]; cbn [res_bind]; [| exact IH | reflexivity].
    apply encode_with_any_addr. exact Hno. }
  split.
  - eapply Forall_impl; [| exact Hall]. intros instr Hno. apply H1. exact Hno.
  - revert a a'. induction Hall as [| instr instrs Hno _ IH]; intros a a';
      cbn [EncodeInstructions]; [reflexivity |].
    rewrite (H1 instr a a' Hno).
    destruct (EncodeInstruction instr a) as [enc | e]; cbn [res_bind];
      [| reflexivity].
    rewrite (IH (a + Z.of_nat (List.length enc)) (a' + Z.of_nat (List.length enc))).
    reflexivity.
Qed.

End Facts.

(** ** The theorems at concrete instructions *)

Lemma InvalidInstruction_iff_no_candidate_or_ModRM_witness :
  let counted := {| prefixes := []; mnem := Ret; operands := [Iw 1; Iw 2] |} in
  let typed := {| prefixes := []; mnem := Ret; operands := [Gd Eax] |} in
  @EncodeInstruction as_shipped RegisterModRM counted 0
    = Raise InvalidInstruction
  /\ @EncodeInstruction exercises_done RegisterModRM typed 0
     = Raise InvalidInstruction.
Proof.
  intros counted typed. split.
  - refine (proj2 (proj2 (proj2 (@InvalidInstruction_iff_no_candidate_or_ModRM
                                   as_shipped RegisterModRM counted 0))) _).
    repeat constructor; discriminate.
  - refine (proj2 (proj1 (@InvalidInstruction_iff_no_candidate_or_ModRM
                            exercises_done RegisterModRM typed 0)) _).
    left. repeat constructor.
Defined.

Lemma no_operand_instruction_is_its_stem_witness :
  let instr := {| prefixes := []; mnem := Ret; operands := [] |} in
  @EncodeInstruction exercises_done RegisterModRM instr 0x1000 = Ok [0xC3].
Proof.
  intros instr.
  refine (@no_operand_instruction_is_its_stem exercises_done RegisterModRM
            instr 0x1000 [Ordinary [0xC2] eIw] (Ordinary [0xC3] eNone) []
            _ _ _ _ _).
  - reflexivity.
  - reflexivity.
  - reflexivity.
  - repeat constructor; discriminate.
  - reflexivity.
Defined.

Lemma jump_reaches_taken_address_witness :
  exists bs,
    @EncodeInstruction exercises_done RegisterModRM (Jmp_to 0x401000) 0x400000
      = Ok bs
    /\ List.length bs = 5%nat
    /\ firstn 1 bs = [0xE9]
    /\ decoded_target 0x400000 bs = 0x401000 mod 2 ^ 32.
Proof.
  refine (@jump_reaches_taken_address exercises_done RegisterModRM
            (Jmp_to 0x401000) 0x400000 [] [0xE9] OJz [ModRMGroup 4 [0xFF] eEv]
            0x401000 0 _ _ _ _ _).
  - reflexivity.
  - reflexivity.
  - reflexivity.
  - constructor.
  - exists 0, 0. left. reflexivity.
Defined.

Lemma encoding_ignores_address_witness :
  @EncodeInstructions exercises_done RegisterModRM
    [Add_Ebx_5; Add_Bx_0x1234] 0x1000
  = @EncodeInstructions exercises_done RegisterModRM
      [Add_Ebx_5; Add_Bx_0x1234] 0.
Proof.
  refine (proj2 (@encoding_ignores_address exercises_done RegisterModRM
                   [Add_Ebx_5; Add_Bx_0x1234] 0 0x1000 _)).
  repeat constructor.
Defined.

End EncoderOutcomes.

(* ===================================================================== *)
(** * The parser: scale factors, operand candidates and the encoder *)
(* ===================================================================== *)

Module ParserFacts.
Import Yacc.

(** X18: [validate_scale] accepts the scale factors 1, 2, 4 and 8 and
    nothing else, also no negative number and not 0, and returns the
    exponent: [validate_scale num] returns [r] exactly when
    [num = 2^r] with [0 <= r <= 3]; otherwise it raises [ValueError]. *)
Theorem validate_scale_exponent (num : Z) :
  (forall r, validate_scale num = YOk r <-> 0 <= r <= 3 /\ num = 2 ^ r)
  /\ (forall e, validate_scale num = YRaise e -> exists str, e = ValueError str).
Proof.
  split.
  - intros r. split.
    + unfold validate_scale.
      destruct (Z.eqb_spec (Z.land num (num - 1)) 0) as [Hl | Hl];
        cbn [andb negb]; [| discriminate].
      destruct (Z.eqb_spec num 0) as [H0 | H0]; cbn [andb negb];
        [discriminate |].
      destruct (Z.leb_spec num 8) as [H8 | H8]; cbn [negb]; [| discriminate].
      assert (Hpos : 0 < num).
      { destruct (Z.lt_trichotomy num 0) as [Hn | [Hn | Hn]]; [| lia | lia].
        exfalso. assert (Z.land num (num - 1) < 0) by (apply Z.land_neg; lia).
        lia. }
      assert (Hc : num = 1 \/ num = 2 \/ num = 3 \/ num = 4 \/ num = 5
                   \/ num = 6 \/ num = 7 \/ num = 8) by lia.
      destruct Hc as [-> | [-> | [-> | [-> | [-> | [-> | [-> | ->]]]]]]];
        try (exfalso; apply Hl; fail); try discriminate Hl;
        cbn; intros R; injection R as <-; split; (lia || reflexivity).
    + intros [Hr ->].
      assert (Hc : r = 0 \/ r = 1 \/ r = 2 \/ r = 3) by lia.
      destruct Hc as [-> | [-> | [-> | ->]]]; reflexivity.
  - intros e. unfold validate_scale.
    destruct (negb _); intros R; [| discriminate R].
    injection R as <-. eauto.
Qed.

(** ** The candidates for an immediate of unknown size *)

Lemma offers_Ib_iff (v : Z) :
  offers_Ib v = true
  <-> v <= 0xFF \/ 0xFF80 <= v <= 0xFFFF \/ 0xFFFFFF80 <= v.
Proof.
  unfold offers_Ib.
  rewrite !orb_true_iff, !andb_true_iff, !Z.leb_le, !Z.geb_le. lia.
Qed.

Lemma offers_Iw_iff (v : Z) :
  offers_Iw v = true <-> v <= 0xFFFF \/ 0xFFFF8000 <= v.
Proof.
  unfold offers_Iw.
  rewrite !orb_true_iff, !andb_true_iff, !Z.leb_le, !Z.geb_le. lia.
Qed.

Lemma stands_for_Ib_iff (v : Z) :
  0 <= v ->
  ((exists b, stands_for (Ib b) v)
   <-> v <= 0xFF \/ 0xFF80 <= v <= 0xFFFF
       \/ 0xFFFFFF80 <= v <= 0xFFFFFFFF).
Proof.
  intros Hv. unfold stands_for, sign_extend.
  change (2 ^ (8 - 1)) with 128. change (2 ^ 16 - 2 ^ 8) with 0xFF00.
  change (2 ^ 32 - 2 ^ 8) with 0xFFFFFF00.
  split.
  - intros (b & Hb & Hc). destruct (Z.ltb_spec b 128); lia.
  - intros [Hc | [Hc | Hc]].
    + exists v. lia.
    + exists (v - 0xFF00). destruct (Z.ltb_spec (v - 0xFF00) 128); lia.
    + exists (v - 0xFFFFFF00).
      destruct (Z.ltb_spec (v - 0xFFFFFF00) 128); lia.
Qed.

Lemma stands_for_Iw_iff (v : Z) :
  0 <= v ->
  ((exists w, stands_for (Iw w) v)
   <-> v <= 0xFFFF \/ 0xFFFF8000 <= v <= 0xFFFFFFFF).
Proof.
  intros Hv. unfold stands_for, sign_extend.
  change (2 ^ (16 - 1)) with 0x8000.
  change (2 ^ 32 - 2 ^ 16) with 0xFFFF0000.
  split.
  - intros (w & Hw & Hc). destruct (Z.ltb_spec w 0x8000); lia.
  - intros [Hc | Hc].
    + exists v. lia.
    + exists (v - 0xFFFF0000).
      destruct (Z.ltb_spec (v - 0xFFFF0000) 0x8000); lia.
Qed.

Lemma low_bits (v : Z) (n : Z) :
  0 <= n -> Z.land v (Z.ones n) = v mod 2 ^ n.
Proof. intros Hn. apply Z.land_ones. exact Hn. Qed.

Lemma new_Ib_stands_for (v : Z) :
  0 <= v <= 0xFFFFFFFF -> offers_Ib v = true -> stands_for (new_Ib v) v.
Proof.
  intros Hv Ho. apply offers_Ib_iff in Ho.
  unfold new_Ib, Immediate_init, GuardedInteger, stands_for, sign_extend.
  change 0xFF with (Z.ones 8). rewrite low_bits by lia.
  change (2 ^ (8 - 1)) with 128. change (2 ^ 16 - 2 ^ 8) with 0xFF00.
  change (2 ^ 32 - 2 ^ 8) with 0xFFFFFF00. change (2 ^ 8) with 256.
  change (Z.ones 8) with 255.
  pose proof (Z.mod_pos_bound v 256 ltac:(lia)) as Hm.
  pose proof (Z.div_mod v 256 ltac:(lia)) as Hd.
  split; [lia |].
  destruct (Z.ltb_spec (v mod 256) 128); lia.
Qed.

Lemma new_Iw_stands_for (v : Z) :
  0 <= v <= 0xFFFFFFFF -> offers_Iw v = true -> stands_for (new_Iw v) v.
Proof.
  intros Hv Ho. apply offers_Iw_iff in Ho.
  unfold new_Iw, Immediate_init, GuardedInteger, stands_for, sign_extend.
  change 0xFFFF with (Z.ones 16). rewrite low_bits by lia.
  change (2 ^ (16 - 1)) with 0x8000. change (2 ^ 32 - 2 ^ 16) with 0xFFFF0000.
  change (2 ^ 16) with 65536. change (Z.ones 16) with 65535.
  pose proof (Z.mod_pos_bound v 65536 ltac:(lia)) as Hm.
  pose proof (Z.div_mod v 65536 ltac:(lia)) as Hd.
  split; [lia |].
  destruct (Z.ltb_spec (v mod 65536) 0x8000); lia.
Qed.

Lemma new_Id_in_range (v : Z) : 0 <= v <= 0xFFFFFFFF -> new_Id v = Id v.
Proof.
  intros Hv. unfold new_Id, Immediate_init, GuardedInteger.
  change 0xFFFFFFFF with (Z.ones 32). rewrite low_bits by lia.
  rewrite Z.mod_small; [reflexivity |]. change (2 ^ 32) with 0x100000000. lia.
Qed.

(** X19: for an immediate of unknown size holding a 32-bit value [v],
    [mk_op_list] offers [Id(v)] first; every operand it offers stands
    for [v] (its value is [v], or [v] is its sign extension to 16 or 32
    bits); and it offers an [Ib], respectively an [Iw], exactly when
    some 8-bit, respectively 16-bit, immediate stands for [v]. *)
Theorem unknown_immediate_candidates (v : Z) :
  0 <= v <= 0xFFFFFFFF ->
  let l := mk_op_list (Some (X86UnknownSizeImmediate v)) in
  hd_error l = Some (Some (Id v))
  /\ (forall o, In o l -> exists op, o = Some op /\ stands_for op v)
  /\ ((exists b, In (Some (Ib b)) l) <-> exists b, stands_for (Ib b) v)
  /\ ((exists w, In (Some (Iw w)) l) <-> exists w, stands_for (Iw w) v).
Proof.
  intros Hv l.
  assert (Hl : l = [Some (Id v)]
                   ++ (if offers_Ib v then [Some (new_Ib v)] else [])
                   ++ (if offers_Iw v then [Some (new_Iw v)] else [])).
  { unfold l, mk_op_list. rewrite new_Id_in_range by exact Hv.
    destruct (offers_Ib v), (offers_Iw v); reflexivity. }
  rewrite Hl. clear Hl l.
  split; [reflexivity |]. split; [| split].
  - intros o Ho. apply in_app_or in Ho as [[<- | []] | Ho].
    { exists (Id v). split; reflexivity. }
    apply in_app_or in Ho as [Ho | Ho].
    + destruct (offers_Ib v) eqn:Eb; [| contradiction].
      destruct Ho as [<- | []]. exists (new_Ib v).
      split; [reflexivity | apply new_Ib_stands_for; assumption].
    + destruct (offers_Iw v) eqn:Ew; [| contradiction].
      destruct Ho as [<- | []]. exists (new_Iw v).
      split; [reflexivity | apply new_Iw_stands_for; assumption].
  - rewrite stands_for_Ib_iff by lia. split.
    + intros (b & Hb).
      apply in_app_or in Hb as [[Hb | []] | Hb]; [discriminate Hb |].
      apply in_app_or in Hb as [Hb | Hb].
      * destruct (offers_Ib v) eqn:Eb; [| contradiction].
        apply offers_Ib_iff in Eb. lia.
      * destruct (offers_Iw v); [| contradiction].
        destruct Hb as [Hb | []]. discriminate Hb.
    + intros Hc. assert (Eb : offers_Ib v = true) by (apply offers_Ib_iff; lia).
      rewrite Eb. unfold new_Ib. eexists. apply in_or_app. right.
      apply in_or_app. left. left. reflexivity.
  - rewrite stands_for_Iw_iff by lia. split.
    + intros (w & Hw).
      apply in_app_or in Hw as [[Hw | []] | Hw]; [discriminate Hw |].
      apply in_app_or in Hw as [Hw | Hw].
      * destruct (offers_Ib v); [| contradiction].
        destruct Hw as [Hw | []]. discriminate Hw.
      * destruct (offers_Iw v) eqn:Ew; [| contradiction].
        apply offers_Iw_iff in Ew. lia.
    + intros Hc. assert (Ew : offers_Iw v = true) by (apply offers_Iw_iff; lia).
      rewrite Ew. unfold new_Iw. eexists. apply in_or_app. right.
      apply in_or_app. right. left. reflexivity.
Qed.

Lemma unknown_immediate_candidates_witness :
  mk_op_list (Some (X86UnknownSizeImmediate 0xFFFFFF80))
  = [Some (Id 0xFFFFFF80); Some (Ib 0x80); Some (Iw 0xFF80)]
  /\ forall o,
       In o (mk_op_list (Some (X86UnknownSizeImmediate 0xFFFFFF80))) ->
       exists op, o = Some op /\ stands_for op 0xFFFFFF80.
Proof.
  split; [reflexivity |].
  refine (proj1 (proj2 (@unknown_immediate_candidates 0xFFFFFF80 _))).
  lia.
Defined.

(** ** The instruction the parser returns, and the encoder *)

Section Encoding.
Context `{Setting} `{ModRMCodec}.

Lemma some_encoding_matches_true (i : Instruction) (encs : list X86Enc) :
  some_encoding_matches i encs = Ok true ->
  exists pre enc post val,
    encs = pre ++ enc :: post
    /\ Forall (fun e => TypeChecker.TypeCheckInstruction_opt i (enc_ops e)
                        = Ok None) pre
    /\ TypeChecker.TypeCheckInstruction_opt i (enc_ops enc) = Ok (Some val).
Proof.
  induction encs as [| e encs IH]; cbn [some_encoding_matches];
    [discriminate |].
  destruct (TypeChecker.TypeCheckInstruction_opt i (enc_ops e))
    as [[val |] |] eqn:T; cbn [res_bind]; [| | discriminate].
  - intros _. exists [], e, encs, val. auto.
  - intros R. destruct (IH R) as (pre & enc & post & val & -> & Hpre & Henc).
    exists (e :: pre), enc, post, val. auto.
Qed.

Lemma some_encoding_matches_false (i : Instruction) (encs : list X86Enc) :
  some_encoding_matches i encs = Ok false ->
  Forall (fun e => TypeChecker.TypeCheckInstruction_opt i (enc_ops e)
                   = Ok None) encs.
Proof.
  induction encs as [| e encs IH]; cbn [some_encoding_matches];
    [constructor |].
  destruct (TypeChecker.TypeCheckInstruction_opt i (enc_ops e))
    as [[val |] |] eqn:T; cbn [res_bind]; [discriminate | | discriminate].
  intros R. constructor; [exact T | auto].
Qed.

Lemma first_accepted_Ok (candidates : list Instruction) (i : Instruction) :
  first_accepted candidates = YOk i ->
  In i candidates
  /\ some_encoding_matches i (mnem_to_encodings (mnem i)) = Ok true.
Proof.
  induction candidates as [| c candidates IH]; cbn [first_accepted];
    [discriminate |].
  destruct (some_encoding_matches c (mnem_to_encodings (mnem c)))
    as [[|] |] eqn:M; [| | discriminate].
  - intros R. injection R as <-. split; [left; reflexivity | exact M].
  - intros R. destruct (IH R) as [Hin Hm]. split; [right; exact Hin | exact Hm].
Qed.

Lemma first_accepted_ValueError (candidates : list Instruction) (str : string) :
  first_accepted candidates = YRaise (ValueError str) ->
  Forall (fun c => some_encoding_matches c (mnem_to_encodings (mnem c))
                   = Ok false) candidates.
Proof.
  induction candidates as [| c candidates IH]; cbn [first_accepted];
    [constructor |].
  destruct (some_encoding_matches c (mnem_to_encodings (mnem c)))
    as [[|] |] eqn:M; [discriminate | | discriminate].
  intros R. constructor; [exact M | auto].
Qed.

Lemma in_product3 {A} (l1 l2 l3 : list A) (t : A * A * A) :
  In t (product3 l1 l2 l3)
  <-> In (fst (fst t)) l1 /\ In (snd (fst t)) l2 /\ In (snd t) l3.
Proof.
  destruct t as [[x y] z]. unfold product3. cbn [fst snd].
  rewrite in_flat_map. split.
  - intros (x' & Hx & Hin). apply in_flat_map in Hin as (y' & Hy & Hin).
    apply in_map_iff in Hin as (z' & E & Hz). injection E as -> -> ->. auto.
  - intros (Hx & Hy & Hz). exists x. split; [exact Hx |].
    apply in_flat_map. exists y. split; [exact Hy |].
    apply in_map_iff. exists z. auto.
Qed.

(** X20: an instruction that [p_instr_pseudo] returns is built from the
    prefixes and the mnemonic read, with at each operand position one of
    the operands [mk_op_list] offers for it, and [EncodeInstruction]
    finds an encoding for it at every address: it encodes it with the
    first candidate of the mnemonic that type-checks, and does not raise
    [InvalidInstruction] for want of one.  When [p_instr_pseudo] raises
    [ValueError], [EncodeInstruction] raises [InvalidInstruction] on
    every instruction that could have been built. *)
Theorem parsed_instruction_has_an_encoding (pseudo : X86Pseudo) (a : Z) :
  (forall i, p_instr_pseudo pseudo = YOk i ->
     (exists o1 o2 o3,
        In o1 (mk_op_list (op1 pseudo)) /\ In o2 (mk_op_list (op2 pseudo))
        /\ In o3 (mk_op_list (op3 pseudo))
        /\ i = make_Instruction (pf pseudo) (pmnem pseudo) (o1, o2, o3))
     /\ exists pre enc post val,
          mnem_to_encodings (pmnem pseudo) = pre ++ enc :: post
          /\ Forall (fun e => TypeChecker.TypeCheckInstruction_opt i (enc_ops e)
                              = Ok None) pre
          /\ TypeChecker.TypeCheckInstruction_opt i (enc_ops enc)
             = Ok (Some val)
          /\ Encoder.EncodeInstruction i a = Encoder.encode_with i a enc val)
  /\ (forall str, p_instr_pseudo pseudo = YRaise (ValueError str) ->
        forall o1 o2 o3,
          In o1 (mk_op_list (op1 pseudo)) -> In o2 (mk_op_list (op2 pseudo)) ->
          In o3 (mk_op_list (op3 pseudo)) ->
          Encoder.EncodeInstruction
            (make_Instruction (pf pseudo) (pmnem pseudo) (o1, o2, o3)) a
          = Raise InvalidInstruction).
Proof.
  unfold p_instr_pseudo. split.
  - intros i R. apply first_accepted_Ok in R as [Hin Hm].
    apply in_map_iff in Hin as ([[o1 o2] o3] & Hi & Hin).
    apply in_product3 in Hin as (H1 & H2 & H3). cbn [fst snd] in *.
    assert (Hmn : mnem i = pmnem pseudo) by (rewrite <- Hi; reflexivity).
    split; [exists o1, o2, o3; auto |].
    rewrite Hmn in Hm.
    apply some_encoding_matches_true in Hm
      as (pre & enc & post & val & Htab & Hpre & Henc).
    exists pre, enc, post, val. repeat (split; [assumption |]).
    unfold Encoder.EncodeInstruction. rewrite Hmn, Htab.
    apply EncoderFacts.try_encodings_first; assumption.
  - intros str R o1 o2 o3 H1 H2 H3.
    apply first_accepted_ValueError in R. rewrite Forall_forall in R.
    set (i := make_Instruction (pf pseudo) (pmnem pseudo) (o1, o2, o3)).
    assert (Hin : In i (map (make_Instruction (pf pseudo) (pmnem pseudo))
                          (product3 (mk_op_list (op1 pseudo))
                             (mk_op_list (op2 pseudo))
                             (mk_op_list (op3 pseudo))))).
    { apply in_map. apply in_product3. cbn [fst snd]. auto. }
    apply R in Hin. apply some_encoding_matches_false in Hin.
    unfold Encoder.EncodeInstruction.
    apply EncoderOutcomes.try_encodings_none. exact Hin.
Qed.

End Encoding.

Lemma parsed_instruction_has_an_encoding_witness :
  let pseudo := {| pf := []; pmnem := Add; op1 := Some (Sized (Gd Ebx));
                   op2 := Some (X86UnknownSizeImmediate 5); op3 := None |} in
  @p_instr_pseudo exercises_done pseudo = YOk Add_Ebx_5
  /\ exists pre enc post val,
       mnem_to_encodings Add = pre ++ enc :: post
       /\ Forall (fun e => @TypeChecker.TypeCheckInstruction_opt exercises_done
                             Add_Ebx_5 (enc_ops e) = Ok None) pre
       /\ @TypeChecker.TypeCheckInstruction_opt exercises_done
            Add_Ebx_5 (enc_ops enc) = Ok (Some val)
       /\ @Encoder.EncodeInstruction exercises_done RegisterModRM Add_Ebx_5 0
          = @Encoder.encode_with exercises_done RegisterModRM
              Add_Ebx_5 0 enc val.
Proof.
  intros pseudo. split; [reflexivity |].
  exact (proj2 (proj1 (@parsed_instruction_has_an_encoding exercises_done
                         RegisterModRM pseudo 0) Add_Ebx_5 eq_refl)).
Defined.

End ParserFacts.

(* ===================================================================== *)
(** * Hexadecimal strings *)
(* ===================================================================== *)

Module HexifyFacts.
Import Hexify.

Ltac digit_cases d :=
  let Hc := fresh "Hc" in
  assert (Hc : d = 0 \/ d = 1 \/ d = 2 \/ d = 3 \/ d = 4 \/ d = 5 \/ d = 6
               \/ d = 7 \/ d = 8 \/ d = 9 \/ d = 10 \/ d = 11 \/ d = 12
               \/ d = 13 \/ d = 14 \/ d = 15) by lia;
  destruct Hc as [-> | [-> | [-> | [-> | [-> | [-> | [-> | [-> | [-> | [->
                | [-> | [-> | [-> | [-> | [-> | ->]]]]]]]]]]]]]]].

(** The digits of a number: the first and the last one. *)
Lemma hex_digits_first (fuel : nat) (n : Z) :
  0 <= n ->
  exists d rest, 0 <= d < 16 /\ hex_digits (S fuel) n = hex_digit d :: rest.
Proof.
  revert n. induction fuel as [| fuel IH]; intros n Hn; cbn [hex_digits].
  - destruct (Z.ltb_spec n 16).
    + exists n, []. split; [lia | reflexivity].
    + exists (n mod 16), []. split; [apply Z.mod_pos_bound; lia | reflexivity].
  - destruct (Z.ltb_spec n 16).
    + exists n, []. split; [lia | reflexivity].
    + destruct (IH (n / 16)) as (d & rest & Hd & E).
      { apply Z.div_pos; lia. }
      cbn [hex_digits] in E. rewrite E.
      exists d, (rest ++ [hex_digit (n mod 16)]). split; [exact Hd | reflexivity].
Qed.

Lemma hex_digits_last (fuel : nat) (n : Z) (c : ascii) :
  0 <= n ->
  exists d, 0 <= d < 16 /\ last (hex_digits (S fuel) n) c = hex_digit d.
Proof.
  intros Hn. cbn [hex_digits]. destruct (Z.ltb_spec n 16).
  - exists n. split; [lia | reflexivity].
  - exists (n mod 16). split; [apply Z.mod_pos_bound; lia |].
    apply last_last.
Qed.

Lemma digit_reads_back (d : Z) :
  0 <= d < 16 -> hex_digit_value (upper_ascii (hex_digit d)) = Some d.
Proof. intros Hd. digit_cases d; reflexivity. Qed.

Lemma hex_value_snoc (l : list ascii) (c : ascii) :
  hex_value (l ++ [c]) = hex_step (hex_value l) c.
Proof. unfold hex_value. rewrite fold_left_app. reflexivity. Qed.

(** The digits read back give the number. *)
Lemma hex_digits_value (fuel : nat) (n : Z) :
  0 <= n < 16 ^ Z.of_nat fuel ->
  hex_value (upper (hex_digits fuel n)) = Some n.
Proof.
  revert n. induction fuel as [| fuel IH]; intros n Hn.
  - change (16 ^ Z.of_nat 0) with 1 in Hn. assert (n = 0) as -> by lia.
    reflexivity.
  - cbn [hex_digits]. destruct (Z.ltb_spec n 16) as [Hlt | Hge].
    + unfold upper, hex_value. cbn [map fold_left]. unfold hex_step.
      rewrite digit_reads_back by lia. f_equal.
    + unfold upper. rewrite map_app. cbn [map]. fold (upper (hex_digits fuel (n / 16))).
      rewrite hex_value_snoc, IH.
      * unfold hex_step. rewrite digit_reads_back
          by (apply Z.mod_pos_bound; lia).
        f_equal. pose proof (Z.div_mod n 16 ltac:(lia)). lia.
      * rewrite Nat2Z.inj_succ, Z.pow_succ_r in Hn by lia.
        split; [apply Z.div_pos; lia |].
        apply Z.div_lt_upper_bound; lia.
Qed.

Lemma enough_digits (n : Z) :
  0 <= n -> n < 16 ^ Z.of_nat (S (Z.to_nat (Z.log2 n))).
Proof.
  intros Hn. rewrite Nat2Z.inj_succ, Z2Nat.id by apply Z.log2_nonneg.
  destruct (Z.eq_dec n 0) as [-> | Hne].
  - cbn. lia.
  - apply Z.lt_le_trans with (2 ^ Z.succ (Z.log2 n)).
    + apply Z.log2_spec. lia.
    + apply Z.pow_le_mono_l. lia.
Qed.

Lemma digit_is_no_L (d : Z) (l : list ascii) :
  0 <= d < 16 ->
  match hex_digit d with
  | "l"%char | "L"%char => removelast l
  | _ => l
  end = l.
Proof. intros Hd. digit_cases d; reflexivity. Qed.

Lemma first_digit_decimal (d : Z) (rest : list ascii) :
  0 <= d < 16 ->
  exists c body,
    upper (if (ascii_leb "a" (hex_digit d) && ascii_leb (hex_digit d) "f")%bool
           then "0"%char :: hex_digit d :: rest
           else hex_digit d :: rest) = c :: body
    /\ is_decimal_digit c = true.
Proof.
  intros Hd. digit_cases d; cbn [hex_digit nth Z.to_nat Pos.to_nat
    Pos.iter_op Nat.add ascii_leb nat_of_ascii andb];
    eexists; eexists; (split; [reflexivity | reflexivity]).
Qed.

Lemma leading_zero_value (l : list ascii) :
  hex_value ("0"%char :: l) = hex_value l.
Proof. reflexivity. Qed.

(** The string [X86Hexify] builds for a number that is not negative. *)
Lemma X86Hexify_digits (value : Z) (is_long : bool) :
  0 <= value ->
  exists d rest,
    0 <= d < 16
    /\ hex_digits (S (Z.to_nat (Z.log2 value))) value = hex_digit d :: rest
    /\ X86Hexify value is_long
       = Ok (upper (if (ascii_leb "a" (hex_digit d)
                        && ascii_leb (hex_digit d) "f")%bool
                    then "0"%char :: hex_digit d :: rest
                    else hex_digit d :: rest)
             ++ ["h"%char]).
Proof.
  intros Hv.
  destruct (hex_digits_first (Z.to_nat (Z.log2 value)) Hv)
    as (d & rest & Hd & E).
  exists d, rest. split; [exact Hd |]. split; [exact E |].
  unfold X86Hexify, hex.
  destruct (Z.ltb_spec value 0) as [Hneg | _]; [lia |].
  rewrite Z.abs_eq by exact Hv. cbn [app].
  set (ds := hex_digits (S (Z.to_nat (Z.log2 value))) value) in *.
  assert (Hstrip :
    match last ("0"%char :: "x"%char
                :: ds ++ (if is_long then ["L"%char] else [])) "x"%char with
    | "l"%char | "L"%char =>
        removelast ("0"%char :: "x"%char
                    :: ds ++ (if is_long then ["L"%char] else []))
    | _ => "0"%char :: "x"%char :: ds ++ (if is_long then ["L"%char] else [])
    end = "0"%char :: "x"%char :: ds).
  { destruct is_long.
    - change ("0"%char :: "x"%char :: ds ++ ["L"%char])
        with (("0"%char :: "x"%char :: ds) ++ ["L"%char]).
      rewrite last_last, removelast_last. reflexivity.
    - rewrite app_nil_r.
      destruct (@hex_digits_last (Z.to_nat (Z.log2 value)) value "x"%char Hv)
        as (d' & Hd' & El).
      fold ds in El.
      assert (Hl : last ("0"%char :: "x"%char :: ds) "x"%char
                   = last ds "x"%char).
      { rewrite E. reflexivity. }
      rewrite Hl, El. apply digit_is_no_L. exact Hd'. }
  rewrite Hstrip. rewrite E. cbn [nth_error skipn]. reflexivity.
Qed.

(** X21: for a number that is not negative, [X86Hexify] returns a string
    that ends in [h], begins with a decimal digit, and whose characters
    before the [h] read as a hexadecimal number give the value back;
    the string is the same for an [int] and for a [long]. *)
Theorem X86Hexify_reads_back (value : Z) (is_long : bool) :
  0 <= value ->
  exists c body,
    X86Hexify value is_long = Ok ((c :: body) ++ ["h"%char])
    /\ is_decimal_digit c = true
    /\ hex_value (c :: body) = Some value
    /\ X86Hexify value (negb is_long) = X86Hexify value is_long.
Proof.
  intros Hv.
  destruct (X86Hexify_digits is_long Hv) as (d & rest & Hd & E & R).
  destruct (X86Hexify_digits (negb is_long) Hv) as (d' & rest' & _ & E' & R').
  rewrite E in E'. injection E' as Ed Er.
  destruct (first_digit_decimal rest Hd) as (c & body & Eu & Hc).
  exists c, body. rewrite R', R, <- Ed, <- Er, Eu.
  repeat (split; [reflexivity || exact Hc |]).
  split; [| reflexivity].
  rewrite <- Eu.
  assert (Hval : hex_value (upper (hex_digit d :: rest)) = Some value).
  { rewrite <- E. apply hex_digits_value. apply (conj Hv).
    apply enough_digits. exact Hv. }
  destruct (ascii_leb "a" (hex_digit d) && ascii_leb (hex_digit d) "f")%bool;
    [| exact Hval].
  unfold upper. cbn [map]. change (upper_ascii "0"%char) with "0"%char.
  rewrite leading_zero_value. exact Hval.
Qed.

Lemma X86Hexify_reads_back_witness :
  X86Hexify 0xAB true = Ok (list_ascii_of_string "0ABh")
  /\ exists c body,
       X86Hexify 0xAB true = Ok ((c :: body) ++ ["h"%char])
       /\ is_decimal_digit c = true
       /\ hex_value (c :: body) = Some 0xAB
       /\ X86Hexify 0xAB (negb true) = X86Hexify 0xAB true.
Proof.
  split; [reflexivity |].
  refine (@X86Hexify_reads_back 0xAB true _). lia.
Defined.

End HexifyFacts.

(* ===================================================================== *)
(** * The decoder description language: the prefixes of an SSE entry *)
(* ===================================================================== *)

Module DecodeTableFacts.
Import DecodeTable.

Section Facts.
Context `{Setting}.
Variable except_e : dec_exn -> option dec_exn.
Variable read_ModRM : bool -> ByteStream.M DecodedModRM.

Lemma pop_until_skip (skipped rest : list PF1Elt) (rep repne : X86DECDL) :
  Forall (fun q => selects q rep repne = None) skipped ->
  pop_until (skipped ++ rest)
    (negb (is_InvalidEntry rep)) (negb (is_InvalidEntry repne))
  = pop_until rest (negb (is_InvalidEntry rep)) (negb (is_InvalidEntry repne)).
Proof.
  induction 1 as [| q skipped Hq _ IH]; [reflexivity |].
  cbn [app pop_until]. unfold selects in Hq.
  destruct q; destruct (is_InvalidEntry rep), (is_InvalidEntry repne);
    cbn [negb]; try discriminate Hq; exact IH.
Qed.

Lemma pop_until_selected (p : PF1Elt) (rest : list PF1Elt)
    (rep repne entry : X86DECDL) :
  selects p rep repne = Some entry ->
  (pop_until (p :: rest)
     (negb (is_InvalidEntry rep)) (negb (is_InvalidEntry repne)) = UseRep
   /\ entry = rep)
  \/ (pop_until (p :: rest)
        (negb (is_InvalidEntry rep)) (negb (is_InvalidEntry repne)) = UseRepne
      /\ entry = repne).
Proof.
  unfold selects. cbn [pop_until].
  destruct p; destruct (is_InvalidEntry rep), (is_InvalidEntry repne);
    cbn [negb]; intros E; try discriminate E; injection E as <-; auto.
Qed.

Lemma decode_unprefixed (no rep size repne : X86DECDL) (d : X86Decoder) :
  (if sizepfx d && negb (is_InvalidEntry size)
   then decode except_e read_ModRM size d else decode except_e read_ModRM no d)
  = decode except_e read_ModRM (unprefixed_entry no size d) d.
Proof.
  unfold unprefixed_entry. destruct (sizepfx d && negb (is_InvalidEntry size));
    reflexivity.
Qed.

(** X23: an [SSE] entry is decoded by the entry of the group 1 prefix
    nearest the stem that selects one ([REP] with a valid [rep] entry,
    [REPNE] with a valid [repne] entry), the prefixes after it that
    select nothing being passed over; that entry decodes with the stack
    of group 1 prefixes emptied, and the operand-size prefix is not
    looked at.  Without a group 1 prefix the [size] entry decodes when
    the operand-size prefix is there and the entry is valid, and the
    [no] entry otherwise. *)
Theorem SSE_nearest_prefix_decides (no rep size repne : X86DECDL)
    (d : X86Decoder) :
  (forall before p after entry r d',
     group1pfx d = before ++ p :: after ->
     Forall (fun q => selects q rep repne = None) after ->
     selects p rep repne = Some entry ->
     decode except_e read_ModRM entry (clear_group1pfx d) = (DOk r, d') ->
     decode except_e read_ModRM (SSE no rep size repne) d = (DOk r, d'))
  /\ (group1pfx d = [] ->
      decode except_e read_ModRM (SSE no rep size repne) d
      = decode except_e read_ModRM (unprefixed_entry no size d) d).
Proof.
  split.
  - intros before p after entry r d' Hpfx Hafter Hsel Hdec.
    cbn [decode]. rewrite Hpfx.
    destruct (before ++ p :: after) as [| q l] eqn:El.
    { destruct before; discriminate El. }
    rewrite <- El. rewrite rev_app_distr. cbn [rev]. rewrite <- app_assoc.
    rewrite pop_until_skip by (apply Forall_rev; exact Hafter).
    cbn [app].
    destruct (@pop_until_selected p (rev before) rep repne entry Hsel)
      as [[-> ->] | [-> ->]];
      rewrite Hdec; reflexivity.
  - intros Hpfx. cbn [decode]. rewrite Hpfx. apply decode_unprefixed; assumption.
Qed.

(** X24: when there are group 1 prefixes and none of them selects an
    entry, the loop of [SSE.decode] pops the emptied list, and the
    [IndexError] reaches the clause [except e,Exception]: the entry
    raises what leaves that clause, with the stack of group 1 prefixes
    emptied, and decodes the entry used without group 1 prefix only if
    the clause catches the [IndexError].  With [e] not bound the clause
    raises [NameError], so an [SSE] entry without [rep] and [repne]
    entries ([SSENo], [SSE66], [SSENo66]) fails under any group 1
    prefix. *)
Theorem SSE_without_applicable_prefix (no rep size repne : X86DECDL)
    (d : X86Decoder) :
  group1pfx d <> [] ->
  Forall (fun q => selects q rep repne = None) (group1pfx d) ->
  decode except_e read_ModRM (SSE no rep size repne) d
  = match except_e (Std IndexError) with
    | Some y => (DRaise y, clear_group1pfx d)
    | None =>
        decode except_e read_ModRM (unprefixed_entry no size (clear_group1pfx d))
          (clear_group1pfx d)
    end.
Proof.
  intros Hne Hall. cbn [decode].
  destruct (group1pfx d) as [| q l] eqn:El; [contradiction |].
  rewrite <- (app_nil_r (rev (q :: l))).
  rewrite pop_until_skip by (apply Forall_rev; exact Hall).
  cbn [pop_until].
  destruct (except_e (Std IndexError)); [reflexivity |].
  apply decode_unprefixed; assumption.
Qed.

(** ** What decoding leaves of the decoder *)

Lemma kept_refl (d : X86Decoder) : kept d d.
Proof. unfold kept. repeat split; auto. Qed.

Lemma kept_trans (d d1 d2 : X86Decoder) :
  kept d d1 -> kept d1 d2 -> kept d d2.
Proof.
  intros (Hs & Ha & Hg & Hm & Hx) (Hs' & Ha' & Hg' & Hm' & Hx').
  unfold kept. split; [congruence |]. split; [congruence |].
  split; [| split].
  - destruct Hg as [Hg | [Hg Hne]], Hg' as [Hg' | [Hg' Hne']].
    + left. congruence.
    + right. split; [exact Hg' | congruence].
    + right. split; [congruence | exact Hne].
    + right. split; [exact Hg' | exact Hne].
  - intros m Hd. destruct (Hm m Hd) as [Hm1 Hs1].
    destruct (Hm' m Hm1) as [Hm2 Hs2]. split; congruence.
  - intros Hsol. destruct (Hx Hsol) as [Hm1 Hs1].
    destruct (Hx' Hsol) as [Hm2 Hs2]. split; congruence.
Qed.

Lemma kept_clear (d : X86Decoder) :
  group1pfx d <> [] -> kept d (clear_group1pfx d).
Proof. intros Hne. unfold kept. cbn. repeat split; auto. Qed.

Lemma get_ModRM_kept (d d1 : X86Decoder) (r : dres DecodedModRM) :
  solved = true ->
  get_ModRM read_ModRM d = (r, d1) -> kept d d1.
Proof.
  intros Hs. unfold get_ModRM.
  destruct (modrm d) as [m |] eqn:Em.
  - intros E. injection E as _ <-. apply kept_refl.
  - destruct (read_ModRM (addrpfx d) (stream d)) as [[m | e] st];
      intros E; injection E as _ <-; unfold kept; cbn;
      (repeat split; auto; try congruence);
      intros m' Hm'; rewrite Em in Hm'; discriminate Hm'.
Qed.

Lemma decode_frame (entry : X86DECDL) :
  forall d r d',
    decode except_e read_ModRM entry d = (r, d') -> kept d d'.
Proof.
  revert entry. fix IH 1.
  intros [| | m o | g | g | no rep size repne | o r0 | o r0 | o r0] d r d';
    cbn [decode].
  - intros E. injection E as _ <-. apply kept_refl.
  - intros E. injection E as _ <-. apply kept_refl.
  - intros E. injection E as _ <-. apply kept_refl.
  - destruct solved eqn:Hs;
      [| intros E; injection E as _ <-; apply kept_refl].
    destruct (get_ModRM read_ModRM d) as [[m | e] d1] eqn:G;
      apply (get_ModRM_kept _ Hs) in G;
      [| intros E; injection E as _ <-; exact G].
    generalize (Z.to_nat (GGG m)).
    induction g as [| x g IHg]; intros n E.
    + injection E as _ <-. exact G.
    + destruct n as [| n];
        [exact (kept_trans G (IH x _ _ _ E)) | exact (IHg _ E)].
  - destruct solved eqn:Hs;
      [| intros E; injection E as _ <-; apply kept_refl].
    destruct (get_ModRM read_ModRM d) as [[m | e] d1] eqn:G;
      apply (get_ModRM_kept _ Hs) in G;
      [| intros E; injection E as _ <-; exact G].
    generalize (Z.to_nat (RM m)).
    induction g as [| x g IHg]; intros n E.
    + injection E as _ <-. exact G.
    + destruct n as [| n];
        [exact (kept_trans G (IH x _ _ _ E)) | exact (IHg _ E)].
  - assert (Hafter : forall d0 r0 d0',
              (if sizepfx d0 && negb (is_InvalidEntry size)
               then decode except_e read_ModRM size d0
               else decode except_e read_ModRM no d0)
              = (r0, d0') -> kept d0 d0').
    { intros d0 r0 d0'.
      destruct (sizepfx d0 && negb (is_InvalidEntry size));
        [apply (IH size) | apply (IH no)]. }
    destruct (group1pfx d) as [| q l] eqn:El.
    { intros E. apply Hafter in E. exact E. }
    rewrite <- El.
    assert (Hne : group1pfx d <> []) by (rewrite El; discriminate).
    assert (Hc : kept d (clear_group1pfx d)) by (apply kept_clear; exact Hne).
    assert (Hleave : forall x,
              (forall rx dx, x = (rx, dx) -> kept (clear_group1pfx d) dx) ->
              match x with
              | (DOk y, dx) => (DOk y, dx)
              | (DRaise y, dx) =>
                  match except_e y with
                  | Some z => (DRaise z, dx)
                  | None =>
                      if sizepfx dx && negb (is_InvalidEntry size)
                      then decode except_e read_ModRM size dx
                      else decode except_e read_ModRM no dx
                  end
              end = (r, d') -> kept d d').
    { intros [[y | y] dx] Hx E; pose proof (Hx _ _ eq_refl) as Hk.
      - injection E as _ <-. exact (kept_trans Hc Hk).
      - destruct (except_e y).
        + injection E as _ <-. exact (kept_trans Hc Hk).
        + apply Hafter in E. exact (kept_trans Hc (kept_trans Hk E)). }
    destruct (pop_until _ _ _).
    + apply Hleave. intros rx dx. apply (IH rep).
    + apply Hleave. intros rx dx. apply (IH repne).
    + apply (Hleave (DRaise (Std IndexError), clear_group1pfx d)).
      intros rx dx E. injection E as _ <-. apply kept_refl.
  - destruct solved; [| intros E; injection E as _ <-; apply kept_refl].
    destruct (sizepfx d); [apply (IH o) | apply (IH r0)].
  - destruct solved; [| intros E; injection E as _ <-; apply kept_refl].
    destruct (addrpfx d); [apply (IH o) | apply (IH r0)].
  - destruct solved eqn:Hs;
      [| intros E; injection E as _ <-; apply kept_refl].
    destruct (get_ModRM read_ModRM d) as [[m | e] d1] eqn:G;
      apply (get_ModRM_kept _ Hs) in G;
      [| intros E; injection E as _ <-; exact G].
    destruct (refers_to_memory m); intros E;
      [exact (kept_trans G (IH o _ _ _ E))
      | exact (kept_trans G (IH r0 _ _ _ E))].
Qed.

(** X26: decoding an entry, whatever it is made of and also when it
    raises, never changes the prefix flags of the decoder; it leaves the
    stack of group 1 prefixes as it was or emptied; a ModRM the decoder
    holds is kept, and the stream is then not read; with the exercises
    as shipped the ModRM is not consulted at all.  A decoder that holds
    its ModRM and has no group 1 prefix is left as it was.  A decoder
    without ModRM may be left with the ModRM decoded and the stream
    advanced: see [Group_decodes_ModRM_on_first_access]. *)
Theorem decode_keeps_decoder (entry : X86DECDL) (d : X86Decoder) :
  let d' := snd (decode except_e read_ModRM entry d) in
  sizepfx d' = sizepfx d /\ addrpfx d' = addrpfx d
  /\ (group1pfx d' = group1pfx d \/ group1pfx d' = [])
  /\ (group1pfx d = [] -> group1pfx d' = [])
  /\ (forall m, modrm d = Some m ->
        modrm d' = Some m /\ stream d' = stream d)
  /\ (solved = false -> modrm d' = modrm d /\ stream d' = stream d)
  /\ (forall m, modrm d = Some m -> group1pfx d = [] -> d' = d).
Proof.
  intros d'. subst d'.
  destruct (decode except_e read_ModRM entry d) as [r d'] eqn:E. cbn [snd].
  apply decode_frame in E as (Hs & Ha & Hg & Hm & Hx).
  split; [exact Hs |]. split; [exact Ha |].
  split; [destruct Hg as [Hg | [Hg _]]; auto |].
  split; [intros Hnil; destruct Hg as [Hg | [Hg _]]; congruence |].
  split; [exact Hm |]. split; [exact Hx |].
  intros m Hd Hnil. destruct (Hm m Hd) as [Hm' Hst].
  assert (Hg' : group1pfx d' = group1pfx d)
    by (destruct Hg as [Hg | [_ Hne]]; [exact Hg | contradiction]).
  destruct d, d'. cbn in *. congruence.
Qed.

End Facts.

Lemma SSE_nearest_prefix_decides_witness :
  let d := {| group1pfx := [REPNE; REP; LOCK]; sizepfx := true;
              addrpfx := false; modrm := None;
              stream := ByteStream.mkStream [0x10; 0xC8] 0 0 |} in
  @decode as_shipped e_not_bound read_ModRM_byte
    (SSE (Direct Add []) (Direct Or []) (Direct Adc []) (Direct Daa [])) d
  = (DOk (Or, []), clear_group1pfx d).
Proof.
  intros d.
  refine (proj1 (@SSE_nearest_prefix_decides as_shipped e_not_bound read_ModRM_byte
                   (Direct Add []) (Direct Or []) (Direct Adc [])
                   (Direct Daa []) d)
            [REPNE] REP [LOCK] (Direct Or []) (Or, []) (clear_group1pfx d)
            _ _ _ _).
  - reflexivity.
  - repeat constructor.
  - reflexivity.
  - reflexivity.
Defined.

Lemma SSE_without_applicable_prefix_witness :
  let d := {| group1pfx := [REP]; sizepfx := false; addrpfx := false;
              modrm := None; stream := ByteStream.mkStream [0x10; 0xC8] 0 0 |} in
  @decode as_shipped e_not_bound read_ModRM_byte (SSENo (Direct Add [])) d
  = (DRaise (NameError "e"), clear_group1pfx d).
Proof.
  intros d.
  refine (@SSE_without_applicable_prefix as_shipped e_not_bound read_ModRM_byte
            (Direct Add []) InvalidEntry InvalidEntry InvalidEntry d _ _).
  - discriminate.
  - repeat constructor.
Defined.

Lemma decode_keeps_decoder_witness :
  let d := {| group1pfx := [REP]; sizepfx := true; addrpfx := false;
              modrm := Some {| GGG := 1; RM := 0; refers_to_memory := false |};
              stream := ByteStream.mkStream [0x10; 0xC8] 1 0 |} in
  let entry := SSENo (Group [Direct Add []; Direct Or []]) in
  let d' := snd (@decode exercises_done (fun _ => None) read_ModRM_byte
                   entry d) in
  modrm d' = modrm d /\ stream d' = stream d /\ sizepfx d' = true
  /\ d' = clear_group1pfx d.
Proof.
  intros d entry d'.
  destruct (@decode_keeps_decoder exercises_done (fun _ => None)
              read_ModRM_byte entry d)
    as (Hs & _ & _ & _ & Hm & _).
  destruct (Hm _ eq_refl) as [Hm1 Hm2].
  split; [exact Hm1 |]. split; [exact Hm2 |]. split; [exact Hs | reflexivity].
Defined.

(** The ModRM is decoded when it is first consulted: a [Group] entry on a
    decoder without ModRM reads the byte [0xC8] of the stream, holds the
    ModRM decoded from it ([GGG = 1]) and selects the entry at [1]; the
    decoder is left with its ModRM and the stream advanced.  On the
    decoder so left the entry decodes again without reading. *)
Example Group_decodes_ModRM_on_first_access :
  let d := {| group1pfx := []; sizepfx := false; addrpfx := false;
              modrm := None; stream := ByteStream.mkStream [0x10; 0xC8] 1 0 |} in
  let m := {| GGG := 1; RM := 0; refers_to_memory := false |} in
  let d1 := {| group1pfx := []; sizepfx := false; addrpfx := false;
               modrm := Some m; stream := ByteStream.mkStream [0x10; 0xC8] 2 0 |} in
  let entry := Group [Direct Add []; Direct Or []] in
  @decode exercises_done e_not_bound read_ModRM_byte entry d
    = (DOk (Or, []), d1)
  /\ @decode exercises_done e_not_bound read_ModRM_byte entry d1
     = (DOk (Or, []), d1)
  /\ @decode as_shipped e_not_bound read_ModRM_byte entry d
     = (DRaise (Std (ExerciseError "X86DecodeTable::Group::Decode")), d).
Proof. repeat split. Qed.

End DecodeTableFacts.

(* ===================================================================== *)
(** * The tests: generated displacements *)
(* ===================================================================== *)

Module TestSupportFacts.
Import TestSupport.

(** X25: the displacement [rnd_displ] generates for the ModRM tests fits
    the mask it is given ([0xFFFF] or [0xFFFFFFFF]): it is [None] or a
    number in [0, mask]; it is [None] only when the caller allows it;
    and the branch of the signed byte gives a number that is the sign
    extension of a byte, [0..0x7F] or one of the top [0x80] values of
    the width. *)
Theorem rnd_displ_fits_mask (choose_none : bool) (mask i r1 r2 : Z) :
  mask = 0xFFFF \/ mask = 0xFFFFFFFF ->
  drawn choose_none mask i r1 r2 ->
  disp_in_range (rnd_displ choose_none mask i r1 r2) mask
  /\ (rnd_displ choose_none mask i r1 r2 = None -> choose_none = true)
  /\ (i = 1 -> exists v, rnd_displ choose_none mask i r1 r2 = Some v
                         /\ sign_extended_byte (mask + 1) v).
Proof.
  intros Hmask (Hi & Hr1 & Hr2).
  assert (Hland : exists n, 8 <= n /\ mask = Z.ones n /\ mask + 1 = 2 ^ n).
  { destruct Hmask as [-> | ->]; [exists 16 | exists 32];
      repeat split; try lia; reflexivity. }
  destruct Hland as (n & Hn & Hones & Hpow). clear Hmask. subst mask.
  assert (Hx : forall x, -128 <= x <= 127 ->
             0 <= Z.land (Z.ones n) x <= Z.ones n
             /\ sign_extended_byte (Z.ones n + 1) (Z.land (Z.ones n) x)).
  { intros x Hx. rewrite Z.land_comm, Z.land_ones by lia.
    assert (H256 : 256 <= 2 ^ n).
    { change 256 with (2 ^ 8). apply Z.pow_le_mono_r; lia. }
    unfold sign_extended_byte. rewrite Hpow.
    destruct (Z.lt_trichotomy x 0) as [Hneg | Hpos].
    - assert (E : x mod 2 ^ n = x + 2 ^ n).
      { symmetry. apply Z.mod_unique with (q := -1); lia. }
      rewrite E. lia.
    - rewrite Z.mod_small by lia. lia. }
  assert (Hi' : 0 <= i <= 2) by (destruct choose_none; lia).
  unfold rnd_displ, disp_in_range.
  destruct (Z.eqb_spec i 0) as [-> | H0].
  - split; [exact I |]. split.
    + intros _. destruct choose_none; [reflexivity | lia].
    + intros E. discriminate E.
  - destruct (Z.eqb_spec i 1) as [-> | H1].
    + destruct (Hx (127 - r1) ltac:(lia)) as [Hb Hs].
      split; [exact Hb |]. split; [discriminate |].
      intros _. eexists. split; [reflexivity | exact Hs].
    + destruct (Z.eqb_spec i 2) as [-> | H2]; [| lia].
      split; [exact Hr2 |]. split; [discriminate |]. intros E. discriminate E.
Qed.

Lemma rnd_displ_fits_mask_witness :
  rnd_displ false 0xFFFF 1 255 0 = Some 0xFF80
  /\ disp_in_range (rnd_displ false 0xFFFF 1 255 0) 0xFFFF
  /\ sign_extended_byte 0x10000 0xFF80.
Proof.
  split; [reflexivity |].
  destruct (@rnd_displ_fits_mask false 0xFFFF 1 255 0) as (Hd & _ & Hs).
  - left. reflexivity.
  - unfold drawn. lia.
  - split; [exact Hd |].
    destruct (Hs eq_refl) as (v & E & Hv). injection E as <-. exact Hv.
Defined.

End TestSupportFacts.
